(** * Kokoro-FastAPI: the synthesis orchestrator (api/src/services/tts_service.py)

    A shallow embedding of [TTSService]: the LRU-cached voice loader, the
    non-streaming synthesis path, the streaming generator and the voice
    combination, together with the properties stated about them.

    Conventions of the embedding.
    - Python exceptions are values of [exc]; a call that may raise returns a
      [result].  [isinstance_Exception] tells the classes caught by
      [except Exception] from those that are not ([GeneratorExit],
      [KeyboardInterrupt]).
    - Effects (the voice store, the [lru_cache] of [_load_voice], object
      allocation, logging, [cleanup()]) live in a [world] that is threaded
      through a state-and-error monad [M].
    - In-memory objects ([tensor], [ndarray]) carry an identity, so that
      "the same object" and "an equal copy" are different statements.
    - The async generator is a resumption tree [step]: it either yields and
      waits to be resumed (by [__anext__], or by an exception thrown in at the
      [yield], which is how [aclose()] works), returns, or raises.  One
      request is followed at a time: a generator resumes in the world it
      suspended in.
    - Collaborators whose code is not part of this service (text
      normalisation, chunker, model, encoder) are fields of [Collaborators];
      they are deterministic functions of their arguments.
    - Floating point is idealised: tensor elements are rationals, and
      wall-clock readings are an opaque value. *)

From Stdlib Require Import Ascii String QArith.
From stdpp Require Import gmap strings list fin_maps sorting.

Local Open Scope string_scope.

(** ** Exceptions and results *)

Inductive exc_class :=
| ValueError
| RuntimeError
| IndexError
| FileNotFoundError
| UnpicklingError
| OSError
| OtherException
| GeneratorExit
| KeyboardInterrupt.

Record exc := mk_exc { exc_cls : exc_class; exc_msg : string }.

(** [isinstance(e, Exception)]: everything but the two classes that derive
    from [BaseException] only. *)
Definition isinstance_Exception (e : exc) : bool :=
  match exc_cls e with
  | GeneratorExit | KeyboardInterrupt => false
  | _ => true
  end.

(** [isinstance(e, (ValueError, RuntimeError))] *)
Definition isinstance_ValueError_RuntimeError (e : exc) : bool :=
  match exc_cls e with
  | ValueError | RuntimeError => true
  | _ => false
  end.

(** [str(e)] *)
Definition str (e : exc) : string := exc_msg e.

Inductive result (A : Type) :=
| Ok (a : A)
| Raise (e : exc).
Arguments Ok {A} a.
Arguments Raise {A} e.

(** ** Objects and the world *)

(** A [torch.Tensor] in memory: an identity and its (flattened) elements. *)
Record tensor := mk_tensor { t_id : nat; t_data : list Q }.

(** A [numpy.ndarray] of samples in memory. *)
Record ndarray := mk_ndarray { a_id : nat; a_samples : list Z }.

(** What a path of the voice store holds. *)
Inductive file :=
| TensorFile (data : list Q)
| Garbage.

Inductive event :=
| EvTorchLoad (path : string)          (* torch.load reads storage *)
| EvTorchSave (path : string)          (* torch.save is attempted *)
| EvTokenize (chunk : string)          (* TTSModel.process_text is called *)
| EvSynthesize                         (* TTSModel.generate_from_tokens is called *)
| EvConvert (is_first_chunk is_last_chunk : bool) (* AudioService.convert_audio *)
| EvLogError (msg : string)            (* logger.error *)
| EvLogGpu (tag : string)              (* log_gpu_memory *)
| EvCleanup (verbose : bool).          (* cleanup() *)

Record world := mk_world {
  fs : gmap string file;                  (* the files that exist *)
  voice_cache : list (string * tensor);   (* lru_cache of _load_voice, most recent first *)
  next_id : nat;                          (* identity of the next allocated object *)
  trace : list event                      (* what happened so far, oldest first *)
}.

Definition set_fs (f : gmap string file) (w : world) : world :=
  mk_world f (voice_cache w) (next_id w) (trace w).
Definition set_voice_cache (c : list (string * tensor)) (w : world) : world :=
  mk_world (fs w) c (next_id w) (trace w).
Definition set_next_id (n : nat) (w : world) : world :=
  mk_world (fs w) (voice_cache w) n (trace w).
Definition set_trace (t : list event) (w : world) : world :=
  mk_world (fs w) (voice_cache w) (next_id w) t.

(** ** The state-and-error monad *)

Definition M (A : Type) : Type := world -> world * result A.

Definition ret {A} (a : A) : M A := fun w => (w, Ok a).
Definition raise {A} (e : exc) : M A := fun w => (w, Raise e).
Definition bind {A B} (m : M A) (f : A -> M B) : M B :=
  fun w =>
    match m w with
    | (w', Ok a) => f a w'
    | (w', Raise e) => (w', Raise e)
    end.

Declare Scope py_scope.
Delimit Scope py_scope with py.
Notation "'let*' x := m 'in' k" := (bind m (fun x => k))
  (at level 10, x name, m at level 100, k at level 200) : py_scope.
Notation "'let*' ' p := m 'in' k" := (bind m (fun x => match x with p => k end))
  (at level 10, p pattern, m at level 100, k at level 200) : py_scope.
Notation "m ;; k" := (bind m (fun _ => k))
  (at level 100, k at level 200, right associativity) : py_scope.
Local Open Scope py_scope.

(** [try: body  except Exception as e: handler e] *)
Definition try_except {A} (body : M A) (handler : exc -> M A) : M A :=
  fun w =>
    match body w with
    | (w', Ok a) => (w', Ok a)
    | (w', Raise e) =>
        if isinstance_Exception e then handler e w' else (w', Raise e)
    end.

(** [try: body  finally: fin] *)
Definition try_finally {A} (body : M A) (fin : M unit) : M A :=
  fun w =>
    match body w with
    | (w', r) =>
        match fin w' with
        | (w'', Ok _) => (w'', r)
        | (w'', Raise e) => (w'', Raise e)
        end
    end.

Definition emit (ev : event) : M unit :=
  fun w => (set_trace (trace w ++ [ev])%list w, Ok tt).

Definition logger_error (msg : string) : M unit := emit (EvLogError msg).
Definition log_gpu_memory (tag : string) : M unit := emit (EvLogGpu tag).
Definition cleanup (verbose : bool) : M unit := emit (EvCleanup verbose).

(** ** Paths and storage *)

Definition startswith_sep (s : string) : bool :=
  match s with
  | String c _ => if decide (c = "/"%char) then true else false
  | EmptyString => false
  end.

Fixpoint endswith_sep (s : string) : bool :=
  match s with
  | EmptyString => false
  | String c EmptyString => if decide (c = "/"%char) then true else false
  | String _ s' => endswith_sep s'
  end.

(** [os.path.join(a, b)] (posixpath) *)
Definition os_path_join (a b : string) : string :=
  if startswith_sep b then b
  else if decide (a = "") then b
  else if endswith_sep a then a +:+ b
  else a +:+ "/" +:+ b.

(** [os.path.exists(path)] *)
Definition os_path_exists (path : string) : M bool :=
  fun w => (w, Ok (bool_decide (is_Some (fs w !! path)))).

(** [torch.load(path, map_location=..., weights_only=True)]: reads storage and
    allocates a new tensor object. *)
Definition torch_load (path : string) : M tensor :=
  fun w =>
    let w1 := set_trace (trace w ++ [EvTorchLoad path])%list w in
    match fs w !! path with
    | Some (TensorFile d) =>
        (set_next_id (S (next_id w1)) w1, Ok (mk_tensor (next_id w) d))
    | Some Garbage =>
        (w1, Raise (mk_exc UnpicklingError ("invalid load key: " +:+ path)))
    | None =>
        (w1, Raise (mk_exc FileNotFoundError
                      ("[Errno 2] No such file or directory: '" +:+ path +:+ "'")))
    end.

(** ** functools.lru_cache *)

Section lru_cache.
Context {V : Type}.
Variable maxsize : nat.

Fixpoint cache_get (key : string) (c : list (string * V)) : option V :=
  match c with
  | [] => None
  | (k, v) :: c' => if decide (k = key) then Some v else cache_get key c'
  end.

Fixpoint cache_remove (key : string) (c : list (string * V)) : list (string * V) :=
  match c with
  | [] => []
  | (k, v) :: c' => if decide (k = key) then c' else (k, v) :: cache_remove key c'
  end.

(** a hit moves the link to the front of the queue *)
Definition cache_hit (key : string) (v : V) (c : list (string * V)) :=
  (key, v) :: cache_remove key c.

(** a miss stores the result; when full, the oldest link is dropped *)
Definition cache_store (key : string) (v : V) (c : list (string * V)) :=
  if decide (length c < maxsize) then (key, v) :: c
  else (key, v) :: removelast c.
End lru_cache.

(** ** Collaborators

    Everything the service consumes from outside its own file.  The model and
    the encoder are stubs in the sense of the specification: deterministic
    functions of their arguments that either return or raise. *)

Class Collaborators := {
  tokens : Type;
  phonemes : Type;
  speed_t : Type;
  duration : Type;
  normalizer : Type;                      (* state of an AudioNormalizer *)
  bytes : Type;
  VOICES_DIR : string;                    (* TTSModel.VOICES_DIR *)
  n_cache_voices : nat;                   (* settings.n_cache_voices *)
  elapsed : duration;                     (* time.time() - start_time *)
  normalize_text : string -> string;
  split_text : string -> list string;     (* chunker.split_text *)
  process_text : string -> ascii -> result (phonemes * tokens);
  generate_from_tokens : tokens -> tensor -> speed_t -> result (option ndarray);
  AudioNormalizer : normalizer;           (* AudioNormalizer() *)
  convert_audio :
    ndarray -> Z -> string -> bool -> normalizer -> bool -> normalizer * result bytes;
  torch_save_error : string -> option exc (* why a write to this path fails, if it does *)
}.

(** The async generator: what a resumption does, and what the generator
    answers. *)
Inductive resume :=
| RNext                 (* __anext__() *)
| RThrow (e : exc).     (* athrow(e); aclose() throws GeneratorExit *)

Inductive step (Y : Type) :=
| Yielded (w : world) (y : Y) (k : resume -> step Y)
| Returned (w : world)
| Raised (w : world) (e : exc).
Arguments Yielded {Y} w y k.
Arguments Returned {Y} w.
Arguments Raised {Y} w e.

Definition lift {A} (r : result A) : M A := fun w => (w, r).
Definition exec (m : M unit) (w : world) : world := fst (m w).

(** [s[0]] on a string *)
Definition index0 (s : string) : M ascii :=
  match s with
  | String c _ => ret c
  | EmptyString => raise (mk_exc IndexError "string index out of range")
  end.

(** [np.concatenate(arrays)]: a new array *)
Definition np_concatenate (arrays : list ndarray) : M ndarray :=
  fun w =>
    (set_next_id (S (next_id w)) w,
     Ok (mk_ndarray (next_id w) (concat (map a_samples arrays)))).

(** [torch.stack(ts)]: the rows, which must have equal sizes *)
Definition torch_stack (ts : list tensor) : M (list (list Q)) :=
  match ts with
  | [] => raise (mk_exc RuntimeError "stack expects a non-empty TensorList")
  | t :: ts' =>
      if forallb (fun t' => Nat.eqb (length (t_data t')) (length (t_data t))) ts'
      then ret (map t_data ts)
      else raise (mk_exc RuntimeError "stack expects each tensor to be equal size")
  end.

Fixpoint vec_add (a b : list Q) : list Q :=
  match a, b with
  | x :: a', y :: b' => Qred (x + y) :: vec_add a' b'
  | _, _ => []
  end.

Definition col_sum (rows : list (list Q)) : list Q :=
  match rows with
  | [] => []
  | r :: rs => fold_left vec_add rs r
  end.

(** [torch.mean(stacked, dim=0)]: a new tensor of the column means *)
Definition torch_mean_dim0 (rows : list (list Q)) : M tensor :=
  fun w =>
    let n := inject_Z (Z.of_nat (length rows)) in
    (set_next_id (S (next_id w)) w,
     Ok (mk_tensor (next_id w) (map (fun s => Qred (s / n)) (col_sum rows)))).

Section Service.
Context `{C : Collaborators}.

(** [torch.save(v, path)] *)
Definition torch_save (v : tensor) (path : string) : M unit :=
  fun w =>
    let w1 := set_trace (trace w ++ [EvTorchSave path])%list w in
    match torch_save_error path with
    | Some e => (w1, Raise e)
    | None => (set_fs (<[path := TensorFile (t_data v)]> (fs w1)) w1, Ok tt)
    end.

(** [TTSModel.process_text(chunk, voice[0])] *)
Definition call_process_text (chunk voice : string) : M (phonemes * tokens) :=
  let* lang := index0 voice in
  emit (EvTokenize chunk);;
  lift (process_text chunk lang).

(** [TTSModel.generate_from_tokens(tokens, voicepack, speed)] *)
Definition call_generate_from_tokens
    (toks : tokens) (voicepack : tensor) (speed : speed_t) : M (option ndarray) :=
  emit EvSynthesize;;
  lift (generate_from_tokens toks voicepack speed).

(** *** [_load_voice], under [@lru_cache(maxsize=settings.n_cache_voices)] *)
Definition _load_voice (voice_path : string) : M tensor :=
  fun w =>
    match n_cache_voices with
    | O => torch_load voice_path w
    | S _ =>
        match cache_get voice_path (voice_cache w) with
        | Some t =>
            (set_voice_cache (cache_hit voice_path t (voice_cache w)) w, Ok t)
        | None =>
            match torch_load voice_path w with
            | (w', Ok t) =>
                (set_voice_cache
                   (cache_store n_cache_voices voice_path t (voice_cache w')) w',
                 Ok t)
            | (w', Raise e) => (w', Raise e)
            end
        end
    end.

(** *** [_get_voice_path] *)
Definition _get_voice_path (voice_name : string) : M (option string) :=
  let voice_path := os_path_join VOICES_DIR (voice_name +:+ ".pt") in
  let* found := os_path_exists voice_path in
  ret (if found : bool then Some voice_path else None).

(** *** [_generate_audio_internal] *)

(** the loop of lines 78-84 *)
Fixpoint tokenize_loop (voice : string) (chunks : list string)
    (chunks_data : list (string * tokens)) : M (list (string * tokens)) :=
  match chunks with
  | [] => ret chunks_data
  | chunk :: rest =>
      let* chunks_data' :=
        try_except
          (let* '(_, toks) := call_process_text chunk voice in
           ret (chunks_data ++ [(chunk, toks)])%list)
          (fun e =>
             logger_error ("Failed to process chunk: '" +:+ chunk +:+
                           "'. Error: " +:+ str e);;
             ret chunks_data) in
      tokenize_loop voice rest chunks_data'
  end.

(** the loop of lines 91-100 *)
Fixpoint synthesize_loop (voicepack : tensor) (speed : speed_t)
    (chunks_data : list (string * tokens))
    (audio_chunks : list ndarray) : M (list ndarray) :=
  match chunks_data with
  | [] => ret audio_chunks
  | (chunk, toks) :: rest =>
      let* audio_chunks' :=
        try_except
          (let* chunk_audio := call_generate_from_tokens toks voicepack speed in
           match chunk_audio with
           | Some a => ret (audio_chunks ++ [a])%list
           | None =>
               logger_error ("No audio generated for chunk: '" +:+ chunk +:+ "'");;
               ret audio_chunks
           end)
          (fun e =>
             logger_error ("Failed to generate audio for chunk: '" +:+ chunk +:+
                           "'. Error: " +:+ str e);;
             ret audio_chunks) in
      synthesize_loop voicepack speed rest audio_chunks'
  end.

(** lines 76-106: the branch [if stitch_long_output] *)
Definition stitched_audio (text voice : string) (voicepack : tensor)
    (speed : speed_t) : M (option ndarray) :=
  let* chunks_data := tokenize_loop voice (split_text text) [] in
  match chunks_data with
  | [] => raise (mk_exc ValueError "No chunks were processed successfully")
  | _ :: _ =>
      let* audio_chunks := synthesize_loop voicepack speed chunks_data [] in
      match audio_chunks with
      | [] => raise (mk_exc ValueError "No audio chunks were generated successfully")
      | first :: _ =>
          if decide (1 < length audio_chunks)
          then let* a := np_concatenate audio_chunks in ret (Some a)
          else ret (Some first)
      end
  end.

(** lines 108-113: the branch [else] *)
Definition single_chunk_audio (text voice : string) (voicepack : tensor)
    (speed : speed_t) : M (option ndarray) :=
  let* '(_, toks) := call_process_text text voice in
  log_gpu_memory "After text processing, pre-generate";;
  let* a := call_generate_from_tokens toks voicepack speed in
  log_gpu_memory "After audio generation";;
  cleanup true;;
  ret a.

Definition _generate_audio_internal
    (text voice : string) (speed : speed_t) (stitch_long_output : bool)
    : M (option ndarray * duration) :=
  try_except
    ((if decide (text = "")
      then raise (mk_exc ValueError "Text is empty after preprocessing")
      else ret tt);;
     let normalized := normalize_text text in
     (if decide (normalized = "")
      then raise (mk_exc ValueError "Text is empty after preprocessing")
      else ret tt);;
     let text := normalized in
     let* voice_path := _get_voice_path voice in
     match voice_path with
     | None => raise (mk_exc ValueError ("Voice not found: " +:+ voice))
     | Some voice_path =>
         let* voicepack := _load_voice voice_path in
         let* audio :=
           if stitch_long_output
           then stitched_audio text voice voicepack speed
           else single_chunk_audio text voice voicepack speed in
         ret (audio, elapsed)
     end)
    (fun e =>
       logger_error ("Error in audio generation: " +:+ str e);;
       raise e).

(** *** [_generate_audio] *)
Definition _generate_audio
    (text voice : string) (speed : speed_t) (stitch_long_output : bool)
    : M (option ndarray * duration) :=
  try_finally
    (let* '(audio, processing_time) :=
       _generate_audio_internal text voice speed stitch_long_output in
     ret (audio, processing_time))
    (cleanup false).

(** *** [generate_audio_stream] *)

(** lines 126-143: validation and voice loading *)
Definition stream_prologue (text voice : string) : M (string * tensor) :=
  (if decide (text = "")
   then raise (mk_exc ValueError "Text is empty")
   else ret tt);;
  let normalized := normalize_text text in
  (if decide (normalized = "")
   then raise (mk_exc ValueError "Text is empty after preprocessing")
   else ret tt);;
  let text := normalized in
  let* voice_path := _get_voice_path voice in
  match voice_path with
  | None => raise (mk_exc ValueError ("Voice not found: " +:+ voice))
  | Some voice_path =>
      let* voicepack := _load_voice voice_path in
      ret (text, voicepack)
  end.

(** lines 152-185: one turn of the [while] loop for [current_chunk], with
    [chunk_gen] what the chunker has still to produce. *)
Fixpoint stream_loop (voice : string) (voicepack : tensor) (speed : speed_t)
    (output_format : string) (current_chunk : string) (chunk_gen : list string)
    (is_first : bool) (stream_normalizer : normalizer) (w : world) : step bytes :=
  let next_chunk := head chunk_gen in
  (* line 185, and the loop test *)
  let continue_ (is_first' : bool) (norm' : normalizer) (w' : world) : step bytes :=
    match chunk_gen with
    | [] => Returned w'
    | c :: chunk_gen' =>
        stream_loop voice voicepack speed output_format c chunk_gen' is_first' norm' w'
    end in
  (* lines 182-183 *)
  let except_ (e : exc) (norm' : normalizer) (w' : world) : step bytes :=
    if isinstance_Exception e
    then continue_ is_first norm'
           (exec (logger_error ("Failed to generate audio for chunk: '" +:+
                                current_chunk +:+ "'. Error: " +:+ str e)) w')
    else Raised w' e in
  match (let* '(_, toks) := call_process_text current_chunk voice in
         call_generate_from_tokens toks voicepack speed) w with
  | (w1, Raise e) => except_ e stream_normalizer w1
  | (w1, Ok None) =>
      continue_ is_first stream_normalizer
        (exec (logger_error ("No audio generated for chunk: '" +:+
                             current_chunk +:+ "'")) w1)
  | (w1, Ok (Some chunk_audio)) =>
      let is_last := bool_decide (next_chunk = None) in
      let w2 := exec (emit (EvConvert is_first is_last)) w1 in
      match convert_audio chunk_audio 24000 output_format is_first
              stream_normalizer is_last with
      | (norm', Raise e) => except_ e norm' w2
      | (norm', Ok chunk_bytes) =>
          Yielded w2 chunk_bytes
            (fun r =>
               match r with
               | RNext => continue_ false norm' w2
               | RThrow e => except_ e norm' w2
               end)
      end
  end.

(** lines 126-186: the body inside the outer [try] *)
Definition stream_body (text voice : string) (speed : speed_t)
    (output_format : string) (w : world) : step bytes :=
  let stream_normalizer := AudioNormalizer in
  match stream_prologue text voice w with
  | (w1, Raise e) => Raised w1 e
  | (w1, Ok (text', voicepack)) =>
      match split_text text' with
      | [] => Returned w1
      | current_chunk :: chunk_gen =>
          stream_loop voice voicepack speed output_format
            current_chunk chunk_gen true stream_normalizer w1
      end
  end.

(** lines 187-191: [except Exception as e: log; raise] and
    [finally: cleanup()] around the whole body, yields included *)
Fixpoint stream_handlers {Y} (s : step Y) : step Y :=
  match s with
  | Yielded w y k => Yielded w y (fun r => stream_handlers (k r))
  | Returned w => Returned (exec (cleanup false) w)
  | Raised w e =>
      let w' :=
        if isinstance_Exception e
        then exec (logger_error ("Error in audio generation stream: " +:+ str e)) w
        else w in
      Raised (exec (cleanup false) w') e
  end.

(** The generator object made by a call in world [w]: nothing has run yet.
    Its first resumption starts the body; an exception thrown into a
    generator that has not started ends it without running any of it. *)
Definition generate_audio_stream (text voice : string) (speed : speed_t)
    (output_format : string) (w : world) : resume -> step bytes :=
  fun r =>
    match r with
    | RNext => stream_handlers (stream_body text voice speed output_format w)
    | RThrow e => Raised w e
    end.

(** *** [combine_voices] *)

(** the loop of lines 213-222 *)
Fixpoint load_loop (voices : list string)
    (t_voices : list tensor) (v_name : list string)
    : M (list tensor * list string) :=
  match voices with
  | [] => ret (t_voices, v_name)
  | voice :: rest =>
      let* '(t_voices', v_name') :=
        try_except
          (let voice_path := os_path_join VOICES_DIR (voice +:+ ".pt") in
           let* voicepack := torch_load voice_path in
           ret ((t_voices ++ [voicepack])%list, (v_name ++ [voice])%list))
          (fun e =>
             raise (mk_exc ValueError
                      ("Failed to load voice " +:+ voice +:+ ": " +:+ str e))) in
      load_loop rest t_voices' v_name'
  end.

Definition combine_voices (voices : list string) : M string :=
  if decide (length voices < 2)
  then raise (mk_exc ValueError "At least 2 voices are required for combination")
  else
    let* '(t_voices, v_name) := load_loop voices [] [] in
    try_except
      (let f := String.concat "_" v_name in
       let* stacked := torch_stack t_voices in
       let* v := torch_mean_dim0 stacked in
       let combined_path := os_path_join VOICES_DIR (f +:+ ".pt") in
       try_finally
         (try_except
            (torch_save v combined_path)
            (fun e =>
               raise (mk_exc RuntimeError
                        ("Failed to save combined voice to " +:+ combined_path +:+
                         ": " +:+ str e))))
         (cleanup false);;
       ret f)
      (fun e =>
         if isinstance_ValueError_RuntimeError e
         then raise e
         else raise (mk_exc RuntimeError ("Error combining voices: " +:+ str e))).
End Service.

(** ** Consumers of a generator *)

Record run (Y : Type) := mk_run {
  yields : list Y;          (* what the consumer received, in order *)
  final : world;            (* the world when the generator ended *)
  raised : option exc       (* the exception that ended it, if any *)
}.
Arguments mk_run {Y} yields final raised.
Arguments yields {Y} r.
Arguments final {Y} r.
Arguments raised {Y} r.

(** [async for chunk in gen]: pull until the generator ends. *)
Fixpoint exhaust_from {Y} (s : step Y) : run Y :=
  match s with
  | Yielded _ y k =>
      let r := exhaust_from (k RNext) in
      mk_run (y :: yields r) (final r) (raised r)
  | Returned w => mk_run [] w None
  | Raised w e => mk_run [] w (Some e)
  end.

Definition exhaust {Y} (gen : resume -> step Y) : run Y := exhaust_from (gen RNext).

Definition run_cons {Y} (y : Y) (r : run Y) : run Y :=
  mk_run (y :: yields r) (final r) (raised r).

(** [aclose()] on a generator suspended at a [yield] with continuation [k]:
    [GeneratorExit] is thrown in; the call returns normally when the generator
    lets it through or finishes, and raises otherwise. *)
Definition aclose_from {Y} (k : resume -> step Y) : run Y :=
  match k (RThrow (mk_exc GeneratorExit "")) with
  | Yielded w _ _ =>
      mk_run [] w (Some (mk_exc RuntimeError "async generator ignored GeneratorExit"))
  | Returned w => mk_run [] w None
  | Raised w e =>
      mk_run [] w (match exc_cls e with GeneratorExit => None | _ => Some e end)
  end.

(** Receive the item at hand and [n] more, then [aclose()]. *)
Fixpoint close_after_from {Y} (n : nat) (s : step Y) {struct s} : run Y :=
  match s with
  | Yielded _ y k =>
      let r := match n with
               | O => aclose_from k
               | S n' => close_after_from n' (k RNext)
               end in
      mk_run (y :: yields r) (final r) (raised r)
  | Returned w => mk_run [] w None
  | Raised w e => mk_run [] w (Some e)
  end.

Definition close_after {Y} (n : nat) (gen : resume -> step Y) : run Y :=
  close_after_from n (gen RNext).

(** The worlds in which a generator can end, whatever its consumer does. *)
Inductive ends_in {Y} : step Y -> world -> Prop :=
| ends_returned w : ends_in (Returned w) w
| ends_raised w e : ends_in (Raised w e) w
| ends_resumed w y k r w' : ends_in (k r) w' -> ends_in (Yielded w y k) w'.

(** The worlds in which a generator can be suspended at a [yield]. *)
Inductive suspends_in {Y} : step Y -> world -> Prop :=
| suspends_here w y k : suspends_in (Yielded w y k) w
| suspends_later w y k r w' : suspends_in (k r) w' -> suspends_in (Yielded w y k) w'.

(** ** Observing the trace *)

Definition is_cleanup (ev : event) : bool :=
  match ev with EvCleanup _ => true | _ => false end.

Definition count_cleanup (t : list event) : nat := length (filter is_cleanup t).

Definition is_model_call (ev : event) : bool :=
  match ev with EvTokenize _ | EvSynthesize => true | _ => false end.

Definition is_save (ev : event) : bool :=
  match ev with EvTorchSave _ => true | _ => false end.


Definition is_Ok {A} (r : result A) : bool :=
  match r with Ok _ => true | Raise _ => false end.

(** a computation that calls [cleanup()] [n] times when it returns and not
    at all when it raises; with [n = 0], one that never calls it *)
Definition cleans_on_return {A} (n : nat) (m : M A) : Prop :=
  forall w,
    count_cleanup (trace (fst (m w))) =
    count_cleanup (trace w) + (if is_Ok (snd (m w)) then n else 0).

(** the events between an earlier world and a later one *)
Definition events_since (w w' : world) : list event :=
  drop (length (trace w)) (trace w').

(** ** An encoder that records its flags

    [tagged C] is [C] with an encoder that returns, next to the bytes of
    [C]'s encoder, the [is_first_chunk] and [is_last_chunk] it was called
    with.  Erasing the tags gives back the stream of [C] ([tagged_erase]
    below), so the tags of a yielded item are the flags its bytes were
    encoded with. *)
Definition tagged (C : Collaborators) : Collaborators := {|
  tokens := @tokens C;
  phonemes := @phonemes C;
  speed_t := @speed_t C;
  duration := @duration C;
  normalizer := @normalizer C;
  bytes := @bytes C * (bool * bool);
  VOICES_DIR := @VOICES_DIR C;
  n_cache_voices := @n_cache_voices C;
  elapsed := @elapsed C;
  normalize_text := @normalize_text C;
  split_text := @split_text C;
  process_text := @process_text C;
  generate_from_tokens := @generate_from_tokens C;
  AudioNormalizer := @AudioNormalizer C;
  convert_audio := fun a rate fmt is_first norm is_last =>
    match @convert_audio C a rate fmt is_first norm is_last with
    | (norm', Ok b) => (norm', Ok (b, (is_first, is_last)))
    | (norm', Raise e) => (norm', Raise e)
    end;
  torch_save_error := @torch_save_error C
|}.

Fixpoint step_map {X Y} (f : X -> Y) (s : step X) : step Y :=
  match s with
  | Yielded w y k => Yielded w (f y) (fun r => step_map f (k r))
  | Returned w => Returned w
  | Raised w e => Raised w e
  end.

Definition tag_first {B} (y : B * (bool * bool)) : bool := fst (snd y).
Definition tag_last {B} (y : B * (bool * bool)) : bool := snd (snd y).

(** ** Per-chunk outcomes, as the specification speaks of them *)

Section Outcomes.
Context `{C : Collaborators}.

(** what tokenizing [chunk] for [voice] gives *)
Definition tokenize_result (voice chunk : string) : result (phonemes * tokens) :=
  match voice with
  | EmptyString => Raise (mk_exc IndexError "string index out of range")
  | String lang _ => process_text chunk lang
  end.

(** tokenization fails: it raises an [Exception] *)
Definition tokenize_fails (voice chunk : string) : bool :=
  match tokenize_result voice chunk with
  | Raise e => isinstance_Exception e
  | Ok _ => false
  end.

(** synthesis fails or gives no audio *)
Definition synthesize_fails (voicepack : tensor) (speed : speed_t) (toks : tokens) : bool :=
  match generate_from_tokens toks voicepack speed with
  | Raise e => isinstance_Exception e
  | Ok None => true
  | Ok (Some _) => false
  end.

(** the audio of a chunk that survives both phases *)
Definition chunk_audio_of (voice : string) (voicepack : tensor) (speed : speed_t)
    (chunk : string) : option ndarray :=
  match tokenize_result voice chunk with
  | Ok (_, toks) =>
      match generate_from_tokens toks voicepack speed with
      | Ok (Some a) => Some a
      | _ => None
      end
  | Raise _ => None
  end.

(** a chunk soft-fails: tokenization or synthesis raises an [Exception], or
    synthesis gives no audio *)
Definition soft_fails (voice : string) (voicepack : tensor) (speed : speed_t)
    (chunk : string) : bool :=
  match tokenize_result voice chunk with
  | Raise e => isinstance_Exception e
  | Ok (_, toks) => synthesize_fails voicepack speed toks
  end.

(** a chunk on which the model raises something that is not an
    [Exception] (an interrupt): nothing contains that *)
Definition interrupts (voice : string) (voicepack : tensor) (speed : speed_t)
    (chunk : string) : bool :=
  match tokenize_result voice chunk with
  | Raise e => negb (isinstance_Exception e)
  | Ok (_, toks) =>
      match generate_from_tokens toks voicepack speed with
      | Raise e => negb (isinstance_Exception e)
      | Ok _ => false
      end
  end.

(** the surviving buffers, in the order of their chunks *)
Definition survivors (voice : string) (voicepack : tensor) (speed : speed_t)
    (chunks : list string) : list ndarray :=
  omap (chunk_audio_of voice voicepack speed) chunks.

(** the path of a named voice in the store *)
Definition voice_file (name : string) : string :=
  os_path_join VOICES_DIR (name +:+ ".pt").

(** the named voice has an embedding file that loads in [w] *)
Definition loads (w : world) (name : string) : Prop :=
  exists d, fs w !! voice_file name = Some (TensorFile d).

(** load these paths through the cache, one after the other *)
Fixpoint load_voices (paths : list string) : M (list tensor) :=
  match paths with
  | [] => ret []
  | p :: ps =>
      let* t := _load_voice p in
      let* ts := load_voices ps in
      ret (t :: ts)
  end.

(** what the first phase keeps of a chunk *)
Definition token_data (voice chunk : string) : option (string * tokens) :=
  match tokenize_result voice chunk with
  | Ok (_, toks) => Some (chunk, toks)
  | Raise _ => None
  end.

(** what the second phase keeps of a tokenized chunk *)
Definition audio_data (voicepack : tensor) (speed : speed_t)
    (cd : string * tokens) : option ndarray :=
  match generate_from_tokens (snd cd) voicepack speed with
  | Ok (Some a) => Some a
  | _ => None
  end.

(** a request passes validation in [w]: the text is not empty, before and
    after normalisation, the voice resolves, and loading it (through the
    cache) gives [voicepack] and leaves the world [w1] *)
Definition accepted (text voice : string) (w w1 : world) (voicepack : tensor) : Prop :=
  text <> "" /\ normalize_text text <> "" /\
  is_Some (fs w !! voice_file voice) /\
  _load_voice (voice_file voice) w = (w1, Ok voicepack).

(** a request fails validation in [w] *)
Definition rejected (text voice : string) (w : world) : Prop :=
  text = "" \/ normalize_text text = "" \/ fs w !! voice_file voice = None.
End Outcomes.



(** ** One turn of the streaming loop, seen from outside

    What lines 156-183 do with the chunk at hand before the generator
    either suspends or moves on: the chunk's bytes are ready to be yielded,
    or the chunk was skipped, or an exception escapes the loop. *)

Inductive chunk_outcome (Y N : Type) :=
| Emitted (w : world) (norm : N) (y : Y)
| Skipped (w : world) (norm : N)
| Aborted (w : world) (e : exc).
Arguments Emitted {Y N} w norm y.
Arguments Skipped {Y N} w norm.
Arguments Aborted {Y N} w e.

Section Turn.
Context `{C : Collaborators}.

(** the handler of lines 182-183 *)
Definition chunk_except (current_chunk : string) (e : exc)
    (norm : normalizer) (w : world) : chunk_outcome bytes normalizer :=
  if isinstance_Exception e
  then Skipped
         (exec (logger_error ("Failed to generate audio for chunk: '" +:+
                              current_chunk +:+ "'. Error: " +:+ str e)) w) norm
  else Aborted w e.

Definition process_chunk (voice : string) (voicepack : tensor) (speed : speed_t)
    (output_format : string) (current_chunk : string) (is_first is_last : bool)
    (norm : normalizer) (w : world) : chunk_outcome bytes normalizer :=
  match (let* '(_, toks) := call_process_text current_chunk voice in
         call_generate_from_tokens toks voicepack speed) w with
  | (w1, Raise e) => chunk_except current_chunk e norm w1
  | (w1, Ok None) =>
      Skipped (exec (logger_error ("No audio generated for chunk: '" +:+
                                   current_chunk +:+ "'")) w1) norm
  | (w1, Ok (Some chunk_audio)) =>
      let w2 := exec (emit (EvConvert is_first is_last)) w1 in
      match convert_audio chunk_audio 24000 output_format is_first norm is_last with
      | (norm', Raise e) => chunk_except current_chunk e norm' w2
      | (norm', Ok chunk_bytes) => Emitted w2 norm' chunk_bytes
      end
  end.

(** where the loop goes after a turn *)
Definition next_turn (voice : string) (voicepack : tensor) (speed : speed_t)
    (output_format : string) (chunk_gen : list string)
    (is_first : bool) (norm : normalizer) (w : world) : step bytes :=
  match chunk_gen with
  | [] => Returned w
  | c :: chunk_gen' =>
      stream_loop voice voicepack speed output_format c chunk_gen' is_first norm w
  end.

(** what the generator does when it is resumed after yielding a chunk *)
Definition after_yield (voice : string) (voicepack : tensor) (speed : speed_t)
    (output_format : string) (current_chunk : string) (chunk_gen : list string)
    (is_first : bool) (norm : normalizer) (w : world) (r : resume) : step bytes :=
  match r with
  | RNext => next_turn voice voicepack speed output_format chunk_gen false norm w
  | RThrow e =>
      if isinstance_Exception e
      then next_turn voice voicepack speed output_format chunk_gen is_first norm
             (exec (logger_error ("Failed to generate audio for chunk: '" +:+
                                  current_chunk +:+ "'. Error: " +:+ str e)) w)
      else Raised w e
  end.

(** the encoder always returns bytes *)
Definition encoder_total : Prop :=
  forall a rate fmt is_first norm is_last,
  exists norm' b, convert_audio a rate fmt is_first norm is_last = (norm', Ok b).

(** what the encoder raises is an [Exception] *)
Definition encoder_raises_Exceptions : Prop :=
  forall a rate fmt is_first norm is_last e,
    snd (convert_audio a rate fmt is_first norm is_last) = Raise e ->
    isinstance_Exception e = true.
End Turn.



(** the flags of the turns from one with [remaining] chunks after it, when
    every chunk is yielded *)
Fixpoint loop_positions (is_first : bool) (remaining : nat) : list (bool * bool) :=
  match remaining with
  | 0 => [(is_first, true)]
  | S m => (is_first, false) :: loop_positions false m
  end.

(** a generator that ends at once when it is closed at a [yield] *)
Inductive closes_promptly {Y} : step Y -> Prop :=
| closes_returned w : closes_promptly (Returned w)
| closes_raised w e : closes_promptly (Raised w e)
| closes_yielded w y k :
    (exists w' e, k (RThrow (mk_exc GeneratorExit "")) = Raised w' e /\
                  exc_cls e = GeneratorExit) ->
    closes_promptly (k RNext) ->
    closes_promptly (Yielded w y k).

(** ** A concrete set of collaborators

    Small stubs on which the statements below are evaluated: the chunker
    cuts at full stops, tokenization raises on the chunk ["bad"], a chunk
    without letters gives no audio, and the encoder frames the samples
    with a header (first chunk) and a trailer (last chunk). *)

Fixpoint split_stops (acc s : string) : list string :=
  match s with
  | EmptyString => if decide (acc = "") then [] else [acc]
  | String c s' =>
      if decide (c = "."%char)
      then (if decide (acc = "") then split_stops "" s' else acc :: split_stops "" s')
      else split_stops (acc +:+ String c EmptyString) s'
  end.

Definition demo_process_text (chunk : string) (lang : ascii) : result (string * list Z) :=
  if decide (chunk = "bad")
  then Raise (mk_exc ValueError "cannot phonemize")
  else if decide (chunk = "-")
       then Ok (chunk, [])
       else Ok (chunk, [Z.of_nat (String.length chunk)]).

Definition demo_generate (toks : list Z) (voicepack : tensor) (speed : unit)
    : result (option ndarray) :=
  match toks with
  | [] => Ok None
  | t :: _ => Ok (Some (mk_ndarray (1000 + Z.to_nat t) [t; t]))
  end.

Definition demo_convert (a : ndarray) (rate : Z) (fmt : string) (is_first : bool)
    (norm : nat) (is_last : bool) : nat * result (list Z) :=
  (S norm,
   Ok ((if is_first then [82; 73; 70; 70]%Z else []) ++ a_samples a ++
       (if is_last then [0%Z] else []))%list).

Definition demo : Collaborators := {|
  tokens := list Z;
  phonemes := string;
  speed_t := unit;
  duration := unit;
  normalizer := nat;
  bytes := list Z;
  VOICES_DIR := "voices";
  n_cache_voices := 2;
  elapsed := tt;
  normalize_text := fun s => s;
  split_text := split_stops "";
  process_text := demo_process_text;
  generate_from_tokens := demo_generate;
  AudioNormalizer := 0;
  convert_audio := demo_convert;
  torch_save_error := fun _ => None
|}.

(** a store with the voices [a], [b], [c] and [af] *)
Definition demo_fs : gmap string file :=
  <["voices/a.pt" := TensorFile [2; 2]%Q]>
  (<["voices/b.pt" := TensorFile [4; 4]%Q]>
  (<["voices/c.pt" := TensorFile [6; 0]%Q]>
  (<["voices/af.pt" := TensorFile [1; 1]%Q]> ∅))).

Definition demo_world : world := mk_world demo_fs [] 0 [].

(** the stubs with a store that refuses every write *)
Definition demo_full_disk : Collaborators := {|
  tokens := @tokens demo;
  phonemes := @phonemes demo;
  speed_t := @speed_t demo;
  duration := @duration demo;
  normalizer := @normalizer demo;
  bytes := @bytes demo;
  VOICES_DIR := @VOICES_DIR demo;
  n_cache_voices := @n_cache_voices demo;
  elapsed := @elapsed demo;
  normalize_text := @normalize_text demo;
  split_text := @split_text demo;
  process_text := @process_text demo;
  generate_from_tokens := @generate_from_tokens demo;
  AudioNormalizer := @AudioNormalizer demo;
  convert_audio := @convert_audio demo;
  torch_save_error := fun _ => Some (mk_exc OSError "[Errno 28] No space left on device")
|}.

(** ** The rest of the service

    What follows models the parts of [tts_service.py] that the statements
    above do not need: the construct-once [__new__], [list_voices], and a
    few more consumers and observers of the generator. *)

(** *** [TTSService.__new__]

    The class attribute [_instance] and the objects made so far. *)
Record service := mk_service {
  service_id : nat;                 (* identity of the instance *)
  output_dir : option string        (* its [output_dir] attribute *)
}.

Record class_state := mk_class {
  _instance : option service;       (* TTSService._instance *)
  next_service_id : nat
}.

Definition __new__ (dir : option string) (cls : class_state) : class_state * service :=
  match _instance cls with
  | None =>
      let inst := mk_service (next_service_id cls) dir in
      (mk_class (Some inst) (S (next_service_id cls)), inst)
  | Some inst => (cls, inst)
  end.

(** [TTSService(d1)], [TTSService(d2)], ... one after the other *)
Fixpoint construct_all (dirs : list (option string)) (cls : class_state)
    : class_state * list service :=
  match dirs with
  | [] => (cls, [])
  | d :: rest =>
      let (cls1, inst) := __new__ d cls in
      let (cls2, insts) := construct_all rest cls1 in
      (cls2, inst :: insts)
  end.

(** *** Directory listing

    The store holds regular files under their full paths.  A directory is
    there when some file lies under it; its entries are the files directly
    in it and the directories that hold files further down, each once. *)

Definition dir_prefix (d : string) : string :=
  if endswith_sep d then d else d +:+ "/".

Fixpoint strip_prefix (pre s : string) : option string :=
  match pre with
  | EmptyString => Some s
  | String c pre' =>
      match s with
      | String c' s' => if decide (c = c') then strip_prefix pre' s' else None
      | EmptyString => None
      end
  end.

Fixpoint has_sep (s : string) : bool :=
  match s with
  | EmptyString => false
  | String c s' => if decide (c = "/"%char) then true else has_sep s'
  end.

(** what precedes the first ["/"] *)
Fixpoint first_component (s : string) : string :=
  match s with
  | EmptyString => EmptyString
  | String c s' => if decide (c = "/"%char) then EmptyString else String c (first_component s')
  end.

(** the name of the entry of directory [d] that the file at [path] is, or
    lies under *)
Definition entry_name (d path : string) : option string :=
  match strip_prefix (dir_prefix d) path with
  | Some rest =>
      if decide (first_component rest = "") then None
      else Some (first_component rest)
  | None => None
  end.

(** [os.scandir(d)]: the names of the entries, in the order of the file
    system *)
Definition scandir (d : string) : M (list string) :=
  fun w =>
    let paths := map fst (map_to_list (fs w)) in
    if decide (d = "") then
      (w, Raise (mk_exc FileNotFoundError "[Errno 2] No such file or directory: ''"))
    else if existsb (fun p => bool_decide (is_Some (strip_prefix (dir_prefix d) p))) paths
    then (w, Ok (remove_dups (omap (entry_name d) paths)))
    else (w, Raise (mk_exc FileNotFoundError
                      ("[Errno 2] No such file or directory: '" +:+ d +:+ "'"))).

(** [e] names an entry of directory [d] in the store of [w]: a file directly
    in [d], or a directory in [d] with a file somewhere below *)
Definition dir_entry (w : world) (d e : string) : Prop :=
  d <> "" /\ e <> "" /\
  exists path rest,
    is_Some (fs w !! path) /\
    strip_prefix (dir_prefix d) path = Some rest /\
    first_component rest = e.

(** no file of the store lies in a subdirectory of [d] *)
Definition flat_dir (w : world) (d : string) : Prop :=
  forall path rest,
    is_Some (fs w !! path) ->
    strip_prefix (dir_prefix d) path = Some rest ->
    has_sep rest = false.

(** [s.endswith(suffix)] *)
Fixpoint endswith (suffix s : string) : bool :=
  if decide (s = suffix) then true
  else match s with
       | EmptyString => false
       | String _ s' => endswith suffix s'
       end.

(** [s[:-3]] *)
Definition drop_last3 (s : string) : string :=
  substring 0 (String.length s - 3) s.

(** [sorted(names)] on strings *)
Definition sorted (names : list string) : list string := merge_sort String.le names.

(** *** More consumers and observers *)

(** A consumer that answers the generator's yields with the resumptions of
    [script], in order, and pulls until the end once the script is used up. *)
Fixpoint drive {Y} (script : list resume) (s : step Y) {struct s} : run Y :=
  match s with
  | Yielded _ y k =>
      match script with
      | [] => run_cons y (drive [] (k RNext))
      | r :: script' => run_cons y (drive script' (k r))
      end
  | Returned w => mk_run [] w None
  | Raised w e => mk_run [] w (Some e)
  end.

Definition is_load (ev : event) : bool :=
  match ev with EvTorchLoad _ => true | _ => false end.

(** the chunks handed to [TTSModel.process_text], in order *)
Definition tokenized_chunks (t : list event) : list string :=
  omap (fun ev => match ev with EvTokenize c => Some c | _ => None end) t.

(** [recording C] is [C] with an encoder that returns, next to its bytes,
    the buffer it was given. *)
Definition recording (C : Collaborators) : Collaborators := {|
  tokens := @tokens C;
  phonemes := @phonemes C;
  speed_t := @speed_t C;
  duration := @duration C;
  normalizer := @normalizer C;
  bytes := @bytes C * ndarray;
  VOICES_DIR := @VOICES_DIR C;
  n_cache_voices := @n_cache_voices C;
  elapsed := @elapsed C;
  normalize_text := @normalize_text C;
  split_text := @split_text C;
  process_text := @process_text C;
  generate_from_tokens := @generate_from_tokens C;
  AudioNormalizer := @AudioNormalizer C;
  convert_audio := fun a rate fmt is_first norm is_last =>
    match @convert_audio C a rate fmt is_first norm is_last with
    | (norm', Ok b) => (norm', Ok (b, a))
    | (norm', Raise e) => (norm', Raise e)
    end;
  torch_save_error := @torch_save_error C
|}.

(** a relation between an earlier world and a later one that holds of no
    change and of successive changes *)
Definition frame := world -> world -> Prop.

(** [m] changes the world within [R] *)
Definition within {A} (R : frame) (m : M A) : Prop :=
  forall w, R w (fst (m w)).

(** nothing was written, the cache is as it was, and storage was not read *)
Definition untouched : frame :=
  fun w w' =>
    fs w' = fs w /\ voice_cache w' = voice_cache w /\
    filter is_load (trace w') = filter is_load (trace w).

(** as many calls of [cleanup()] as attempts to save, nothing written but
    at [path], and the cache as it was *)
Definition save_frame (path : string) : frame :=
  fun w w' =>
    voice_cache w' = voice_cache w /\
    (forall q, q <> path -> fs w' !! q = fs w !! q) /\
    count_cleanup (trace w') + length (filter is_save (trace w)) =
    count_cleanup (trace w) + length (filter is_save (trace w')).

Section ListVoices.
Context `{C : Collaborators}.

(** the cache is within its bound and holds no path twice *)
Definition cache_ok (w : world) : Prop :=
  length (voice_cache w) <= n_cache_voices /\
  NoDup (map fst (voice_cache w)).

(** what a synthesis request may do to the world: write nothing, read
    storage at most once, and keep the cache in order *)
Definition request_frame : frame :=
  fun w w' =>
    fs w' = fs w /\
    length (filter is_load (trace w')) <= S (length (filter is_load (trace w))) /\
    (cache_ok w -> cache_ok w').

(** the loop of lines 252-254 *)
Fixpoint collect_voices (entries : list string) (voices : list string) : list string :=
  match entries with
  | [] => voices
  | name :: rest =>
      collect_voices rest
        (if endswith ".pt" name then (voices ++ [drop_last3 name])%list else voices)
  end.

(** [list_voices] *)
Definition list_voices : M (list string) :=
  let* voices :=
    try_except
      (let* it := scandir VOICES_DIR in
       ret (collect_voices it []))
      (fun e =>
         logger_error ("Error listing voices: " +:+ str e);;
         ret []) in
  ret (sorted voices).

(** the pure reading of the streaming loop: what a consumer that pulls to
    the end receives, chunk by chunk *)
Fixpoint expected_stream (voice : string) (voicepack : tensor) (speed : speed_t)
    (output_format : string) (chunks : list string) (is_first : bool)
    (norm : normalizer) : list bytes :=
  match chunks with
  | [] => []
  | c :: rest =>
      match chunk_audio_of voice voicepack speed c with
      | None => expected_stream voice voicepack speed output_format rest is_first norm
      | Some a =>
          match convert_audio a 24000 output_format is_first norm
                  (bool_decide (rest = [])) with
          | (norm', Ok b) =>
              b :: expected_stream voice voicepack speed output_format rest false norm'
          | (norm', Raise _) =>
              expected_stream voice voicepack speed output_format rest is_first norm'
          end
      end
  end.
End ListVoices.

(** * Properties *)

Arguments _get_voice_path : simpl never.
Arguments _load_voice : simpl never.
Arguments torch_load : simpl never.
Arguments torch_save : simpl never.
Arguments call_process_text : simpl never.
Arguments call_generate_from_tokens : simpl never.
Arguments stitched_audio : simpl never.
Arguments single_chunk_audio : simpl never.
Arguments np_concatenate : simpl never.
Arguments os_path_join : simpl never.
Arguments String.append : simpl never.

Section Basics.
Context `{C : Collaborators}.

Lemma bind_eq {A B} (m : M A) (f : A -> M B) w :
  bind m f w =
  match m w with
  | (w', Ok a) => f a w'
  | (w', Raise e) => (w', Raise e)
  end.
Proof. reflexivity. Qed.

Lemma try_except_eq {A} (body : M A) handler w :
  try_except body handler w =
  match body w with
  | (w', Ok a) => (w', Ok a)
  | (w', Raise e) => if isinstance_Exception e then handler e w' else (w', Raise e)
  end.
Proof. reflexivity. Qed.

Lemma try_finally_eq {A} (body : M A) fin w :
  try_finally body fin w =
  match body w with
  | (w', r) =>
      match fin w' with
      | (w'', Ok _) => (w'', r)
      | (w'', Raise e) => (w'', Raise e)
      end
  end.
Proof. reflexivity. Qed.

Lemma events_since_app w w' l :
  trace w' = (trace w ++ l)%list -> events_since w w' = l.
Proof.
  unfold events_since. intros ->. by rewrite drop_app_length.
Qed.

Lemma count_cleanup_app t1 t2 :
  count_cleanup (t1 ++ t2) = count_cleanup t1 + count_cleanup t2.
Proof. unfold count_cleanup. by rewrite filter_app, length_app. Qed.

Lemma get_voice_path_found voice w :
  is_Some (fs w !! voice_file voice) ->
  _get_voice_path voice w = (w, Ok (Some (voice_file voice))).
Proof.
  intros H. unfold _get_voice_path, os_path_exists, bind, ret. simpl.
  by rewrite bool_decide_eq_true_2.
Qed.

Lemma get_voice_path_missing voice w :
  fs w !! voice_file voice = None ->
  _get_voice_path voice w = (w, Ok None).
Proof.
  intros H. unfold _get_voice_path, os_path_exists, bind, ret. simpl.
  rewrite bool_decide_eq_false_2; [done|].
  fold (voice_file voice). rewrite H. by intros [? ?].

Qed.

Lemma stream_prologue_accepted text voice w w1 voicepack :
  accepted text voice w w1 voicepack ->
  stream_prologue text voice w = (w1, Ok (normalize_text text, voicepack)).
Proof.
  intros (Ht & Hn & Hv & Hl). unfold stream_prologue.
  rewrite bind_eq. destruct (decide (text = "")) as [|_]; [done|]. cbn.
  rewrite bind_eq. destruct (decide (normalize_text text = "")) as [|_]; [done|]. cbn.
  rewrite bind_eq, (get_voice_path_found _ _ Hv), bind_eq, Hl. done.
Qed.

Lemma generate_audio_internal_accepted text voice speed stitch w w1 voicepack :
  accepted text voice w w1 voicepack ->
  _generate_audio_internal text voice speed stitch w =
  try_except
    (let* audio :=
       if stitch
       then stitched_audio (normalize_text text) voice voicepack speed
       else single_chunk_audio (normalize_text text) voice voicepack speed in
     ret (audio, elapsed))
    (fun e => logger_error ("Error in audio generation: " +:+ str e);; raise e) w1.
Proof.
  intros (Ht & Hn & Hv & Hl). unfold _generate_audio_internal.
  rewrite !try_except_eq. f_equal.
  rewrite bind_eq. destruct (decide (text = "")) as [|_]; [done|]. cbn.
  rewrite bind_eq. destruct (decide (normalize_text text = "")) as [|_]; [done|]. cbn.
  rewrite bind_eq, (get_voice_path_found _ _ Hv), bind_eq, Hl. done.
Qed.
End Basics.

(** ** Validation comes before any inference work *)

Section Validation.
Context `{C : Collaborators}.

(** A rejected request fails in the validation prologue of either path,
    with a [ValueError], in the world it started in. *)
Lemma rejected_prologue text voice w :
  rejected text voice w ->
  exists msg,
    stream_prologue text voice w = (w, Raise (mk_exc ValueError msg)) /\
    forall speed stitch,
      exists msg',
        _generate_audio_internal text voice speed stitch w =
        (exec (logger_error ("Error in audio generation: " +:+ msg')) w,
         Raise (mk_exc ValueError msg')).
Proof.
  intros Hrej. unfold stream_prologue, _generate_audio_internal.
  destruct (decide (text = "")) as [->|Ht].
  { eexists; split; [reflexivity|]. intros; eexists; reflexivity. }
  destruct (decide (normalize_text text = "")) as [Hn|Hn].
  { eexists; split; [reflexivity|]. intros; eexists; reflexivity. }
  destruct Hrej as [?|[?|Hv]]; [done..|].
  eexists; split.
  - cbn. rewrite bind_eq, (get_voice_path_missing _ _ Hv). reflexivity.
  - intros; eexists. rewrite try_except_eq. cbn.
    rewrite bind_eq, (get_voice_path_missing _ _ Hv). reflexivity.
Qed.

(** C7. On either synthesis path, a request whose text is empty, or empty
    after normalisation, or whose voice has no embedding file, is refused
    with a [ValueError] before the model is asked to tokenize or to
    synthesize anything; the streaming generator raises it on its first
    resumption, so it yields nothing. *)
Theorem validation_precedes_inference text voice speed stitch output_format w :
  rejected text voice w ->
  (exists w' msg,
      _generate_audio_internal text voice speed stitch w =
        (w', Raise (mk_exc ValueError msg)) /\
      filter is_model_call (events_since w w') = []) /\
  (exists w' msg,
      _generate_audio text voice speed stitch w =
        (w', Raise (mk_exc ValueError msg)) /\
      filter is_model_call (events_since w w') = []) /\
  (exists w' msg,
      generate_audio_stream text voice speed output_format w RNext =
        Raised w' (mk_exc ValueError msg) /\
      filter is_model_call (events_since w w') = [] /\
      yields (exhaust (generate_audio_stream text voice speed output_format w)) = []).
Proof.
  intros Hrej. destruct (rejected_prologue _ _ _ Hrej) as (msg & Hs & Hi).
  destruct (Hi speed stitch) as (msg' & Hi').
  split; [|split].
  - do 2 eexists. split; [exact Hi'|].
    by erewrite events_since_app by reflexivity.
  - do 2 eexists. unfold _generate_audio.
    rewrite try_finally_eq, bind_eq, Hi'. split; [reflexivity|].
    by erewrite events_since_app by (cbn; rewrite <- app_assoc; reflexivity).
  - do 2 eexists. unfold exhaust, generate_audio_stream, stream_body.
    rewrite Hs. cbn. split; [reflexivity|]. split; [|reflexivity].
    by erewrite events_since_app by (cbn; rewrite <- app_assoc; reflexivity).
Qed.
End Validation.

Lemma validation_precedes_inference_witness :
  rejected (C:=demo) "hello" "nobody" demo_world /\
  exists w' msg,
    generate_audio_stream (C:=demo) "hello" "nobody" tt "wav" demo_world RNext =
      Raised w' (mk_exc ValueError msg) /\
    filter is_model_call (events_since demo_world w') = [] /\
    yields (exhaust (generate_audio_stream (C:=demo) "hello" "nobody" tt "wav" demo_world)) = [].
Proof.
  assert (H : rejected (C:=demo) "hello" "nobody" demo_world)
    by (right; right; vm_compute; reflexivity).
  split; [exact H|].
  exact (proj2 (proj2
    (validation_precedes_inference (C:=demo) "hello" "nobody" tt true "wav" demo_world H))).
Defined.

(** ** The non-streaming path *)

Section NonStreaming.
Context `{C : Collaborators}.

Lemma omap_cons_eq {A B} (f : A -> option B) x l :
  omap f (x :: l) =
  match f x with Some y => y :: omap f l | None => omap f l end.
Proof. reflexivity. Qed.

Lemma call_process_text_eq chunk voice w :
  call_process_text chunk voice w =
  match voice with
  | EmptyString => (w, Raise (mk_exc IndexError "string index out of range"))
  | String lang _ => (exec (emit (EvTokenize chunk)) w, process_text chunk lang)
  end.
Proof. destruct voice; reflexivity. Qed.

Lemma call_process_text_result chunk voice w :
  snd (call_process_text chunk voice w) = tokenize_result voice chunk.
Proof. rewrite call_process_text_eq. by destruct voice. Qed.

Lemma call_generate_from_tokens_eq toks voicepack speed w :
  call_generate_from_tokens toks voicepack speed w =
  (exec (emit EvSynthesize) w, generate_from_tokens toks voicepack speed).
Proof. reflexivity. Qed.

Lemma chunk_audio_of_bind voice voicepack speed chunk :
  chunk_audio_of voice voicepack speed chunk =
  token_data voice chunk ≫= audio_data voicepack speed.
Proof.
  unfold chunk_audio_of, token_data, audio_data.
  destruct (tokenize_result voice chunk) as [[ph toks]|e]; reflexivity.
Qed.

Lemma survivors_two_phases voice voicepack speed chunks :
  survivors voice voicepack speed chunks =
  omap (audio_data voicepack speed) (omap (token_data voice) chunks).
Proof.
  unfold survivors. induction chunks as [|c cs IH]; [done|].
  rewrite !omap_cons_eq, chunk_audio_of_bind, IH.
  destruct (token_data voice c); [|done].
  by rewrite omap_cons_eq.
Qed.

(** The first phase keeps, in order, the chunks that tokenize. *)
Lemma tokenize_loop_keeps voice chunks :
  forall acc w,
    (forall chunk, chunk ∈ chunks ->
       forall e, tokenize_result voice chunk = Raise e -> isinstance_Exception e = true) ->
    exists w', tokenize_loop voice chunks acc w =
               (w', Ok (acc ++ omap (token_data voice) chunks)%list).
Proof.
  induction chunks as [|c cs IH]; intros acc w Hexc.
  - eexists. cbn. by rewrite app_nil_r.
  - cbn [tokenize_loop]. rewrite bind_eq, try_except_eq, bind_eq.
    pose proof (call_process_text_result c voice w) as Hr.
    destruct (call_process_text c voice w) as [w1 r]. cbn in Hr. subst r.
    specialize (Hexc c (list_elem_of_here _ _)) as Hc.
    rewrite omap_cons_eq. unfold token_data at 1.
    destruct (tokenize_result voice c) as [[ph toks]|e].
    + cbn. destruct (IH (acc ++ [(c, toks)])%list w1) as [w' ->].
      { intros; eapply Hexc; [by right|done]. }
      eexists. by rewrite <- app_assoc.
    + rewrite (Hc e eq_refl). cbn.
      destruct (IH acc (exec (logger_error
         ("Failed to process chunk: '" +:+ c +:+ "'. Error: " +:+ str e)) w1)) as [w' Hw'].
      { intros; eapply Hexc; [by right|done]. }
      eexists. exact Hw'.
Qed.

(** The second phase keeps, in order, the buffers that were synthesized. *)
Lemma synthesize_loop_keeps voicepack speed chunks_data :
  forall acc w,
    (forall cd, cd ∈ chunks_data ->
       forall e, generate_from_tokens (snd cd) voicepack speed = Raise e ->
                 isinstance_Exception e = true) ->
    exists w', synthesize_loop voicepack speed chunks_data acc w =
               (w', Ok (acc ++ omap (audio_data voicepack speed) chunks_data)%list).
Proof.
  induction chunks_data as [|[c toks] cs IH]; intros acc w Hexc.
  - eexists. cbn. by rewrite app_nil_r.
  - cbn [synthesize_loop]. rewrite bind_eq, try_except_eq, bind_eq.
    rewrite call_generate_from_tokens_eq.
    specialize (Hexc (c, toks) (list_elem_of_here _ _)) as Hc. cbn in Hc.
    rewrite omap_cons_eq. unfold audio_data at 1. cbn [snd].
    destruct (generate_from_tokens toks voicepack speed) as [[a|]|e].
    + cbn. edestruct (IH (acc ++ [a])%list) as [w' Hw'];
        [|rewrite Hw'; eexists; by rewrite <- app_assoc].
      intros; eapply Hexc; [by right|done].
    + cbn. edestruct IH as [w' Hw']; [|eexists; exact Hw'].
      intros; eapply Hexc; [by right|done].
    + rewrite (Hc e eq_refl). cbn.
      edestruct IH as [w' Hw']; [|eexists; exact Hw'].
      intros; eapply Hexc; [by right|done].
Qed.

Lemma not_interrupted_tokenize voice voicepack speed chunk e :
  interrupts voice voicepack speed chunk = false ->
  tokenize_result voice chunk = Raise e -> isinstance_Exception e = true.
Proof.
  unfold interrupts. intros H Ht. rewrite Ht in H. by apply negb_false_iff in H.
Qed.

Lemma not_interrupted_synthesize voice voicepack speed chunk cd e :
  interrupts voice voicepack speed chunk = false ->
  token_data voice chunk = Some cd ->
  generate_from_tokens (snd cd) voicepack speed = Raise e ->
  isinstance_Exception e = true.
Proof.
  unfold interrupts, token_data.
  destruct (tokenize_result voice chunk) as [[ph toks]|]; [|done].
  intros H [= <-]. cbn. intros Hg. rewrite Hg in H.
  by apply negb_false_iff in H.
Qed.

(** What the stitched branch computes when nothing interrupts it. *)
Lemma stitched_audio_eq text voice voicepack speed w :
  (forall chunk, chunk ∈ split_text text ->
     interrupts voice voicepack speed chunk = false) ->
  exists w1 w2,
    stitched_audio text voice voicepack speed w =
    match omap (token_data voice) (split_text text) with
    | [] => (w1, Raise (mk_exc ValueError "No chunks were processed successfully"))
    | _ :: _ =>
        match survivors voice voicepack speed (split_text text) with
        | [] => (w2, Raise (mk_exc ValueError
                              "No audio chunks were generated successfully"))
        | [a] => (w2, Ok (Some a))
        | (_ :: _ :: _) as audio_chunks =>
            (set_next_id (S (next_id w2)) w2,
             Ok (Some (mk_ndarray (next_id w2)
                         (concat (map a_samples audio_chunks)))))
        end
    end.
Proof.
  intros Hint. unfold stitched_audio. rewrite bind_eq.
  destruct (tokenize_loop_keeps voice (split_text text) [] w) as [w1 ->].
  { intros; by eapply not_interrupted_tokenize; eauto. }
  cbn [app]. rewrite survivors_two_phases.
  destruct (omap (token_data voice) (split_text text)) as [|cd0 cds] eqn:Hcd.
  { by exists w1, w1. }
  rewrite bind_eq.
  destruct (synthesize_loop_keeps voicepack speed (cd0 :: cds) [] w1) as [w2 ->].
  { intros cd Hin e. rewrite <- Hcd in Hin.
    apply list_elem_of_omap in Hin as (chunk & Hchunk & Htd).
    eapply not_interrupted_synthesize; eauto. }
  cbn [app]. exists w1, w2.
  destruct (omap (audio_data voicepack speed) (cd0 :: cds)) as [|a [|a' l]];
    [done| |].
  - destruct (decide (1 < length [a])) as [Hlt|_]; [cbn in Hlt; lia|done].
  - destruct (decide (1 < length (a :: a' :: l))) as [_|Hge]; [done|].
    cbn in Hge; lia.
Qed.

(** C3. With [stitch_long_output] set, when some chunks fail to tokenize
    or to synthesize (an [Exception], or no audio) and at least one chunk
    gets through both, the call does not raise: the failing chunks are
    skipped, the samples returned are those of the surviving buffers, one
    after the other in the order of their chunks, and a lone survivor is
    returned as the very object the model produced. *)
Theorem stitching_skips_failed_chunks text voice speed w w1 voicepack :
  accepted text voice w w1 voicepack ->
  (forall chunk, chunk ∈ split_text (normalize_text text) ->
     interrupts voice voicepack speed chunk = false) ->
  survivors voice voicepack speed (split_text (normalize_text text)) <> [] ->
  exists w' audio,
    _generate_audio_internal text voice speed true w =
      (w', Ok (Some audio, elapsed)) /\
    a_samples audio =
      concat (map a_samples
                (survivors voice voicepack speed (split_text (normalize_text text)))) /\
    (forall a,
        survivors voice voicepack speed (split_text (normalize_text text)) = [a] ->
        audio = a).
Proof.
  intros Hacc Hint Hsurv.
  rewrite (generate_audio_internal_accepted _ _ _ _ _ _ _ Hacc).
  rewrite try_except_eq, bind_eq.
  destruct (stitched_audio_eq (normalize_text text) voice voicepack speed w1 Hint)
    as (w2 & w3 & ->).
  destruct (omap (token_data voice) (split_text (normalize_text text)))
    as [|cd cds] eqn:Hcd.
  { rewrite survivors_two_phases, Hcd in Hsurv. done. }
  destruct (survivors voice voicepack speed (split_text (normalize_text text)))
    as [|a [|a' l]]; [done| |].
  - exists w3, a. split; [done|]. split; [cbn; by rewrite app_nil_r|].
    by intros ? [= ->].
  - eexists _, _. split; [reflexivity|]. split; [reflexivity|]. intros; discriminate.
Qed.

Lemma soft_fails_not_interrupted voice voicepack speed chunk :
  soft_fails voice voicepack speed chunk = true ->
  interrupts voice voicepack speed chunk = false.
Proof.
  unfold soft_fails, interrupts, synthesize_fails.
  destruct (tokenize_result voice chunk) as [[ph toks]|e].
  - destruct (generate_from_tokens toks voicepack speed) as [[a|]|e]; try done.
    by intros ->.
  - by intros ->.
Qed.

Lemma soft_fails_no_audio voice voicepack speed chunk :
  soft_fails voice voicepack speed chunk = true ->
  chunk_audio_of voice voicepack speed chunk = None.
Proof.
  unfold soft_fails, chunk_audio_of, synthesize_fails.
  destruct (tokenize_result voice chunk) as [[ph toks]|e]; [|done].
  by destruct (generate_from_tokens toks voicepack speed) as [[a|]|e].
Qed.

Lemma tokenize_fails_soft voice voicepack speed chunk :
  tokenize_fails voice chunk = true ->
  soft_fails voice voicepack speed chunk = true /\
  token_data voice chunk = None.
Proof.
  unfold tokenize_fails, soft_fails, token_data.
  by destruct (tokenize_result voice chunk) as [[ph toks]|e].
Qed.

Lemma omap_all_None {A B} (f : A -> option B) l :
  (forall x, x ∈ l -> f x = None) -> omap f l = [].
Proof.
  induction l as [|x l IH]; intros H; [done|].
  rewrite omap_cons_eq, (H x (list_elem_of_here _ _)).
  apply IH. intros; apply H. by right.
Qed.

(** C4. With [stitch_long_output] set: when every chunk fails to tokenize,
    the request fails with [ValueError "No chunks were processed
    successfully"]; when some chunk tokenizes but no tokenized chunk gives
    audio, it fails with [ValueError "No audio chunks were generated
    successfully"].  Either error leaves [_generate_audio_internal] and
    [_generate_audio]: the whole request is aborted. *)
Theorem zero_survivors_abort_request text voice speed w w1 voicepack :
  accepted text voice w w1 voicepack ->
  ((forall chunk, chunk ∈ split_text (normalize_text text) ->
      tokenize_fails voice chunk = true) ->
   exists w' w'',
     _generate_audio_internal text voice speed true w =
       (w', Raise (mk_exc ValueError "No chunks were processed successfully")) /\
     _generate_audio text voice speed true w =
       (w'', Raise (mk_exc ValueError "No chunks were processed successfully"))) /\
  ((forall chunk, chunk ∈ split_text (normalize_text text) ->
      soft_fails voice voicepack speed chunk = true) ->
   (exists chunk, chunk ∈ split_text (normalize_text text) /\
      tokenize_fails voice chunk = false) ->
   exists w' w'',
     _generate_audio_internal text voice speed true w =
       (w', Raise (mk_exc ValueError "No audio chunks were generated successfully")) /\
     _generate_audio text voice speed true w =
       (w'', Raise (mk_exc ValueError "No audio chunks were generated successfully"))).
Proof.
  intros Hacc. split.
  - intros Hall.
    assert (Hi : exists w', _generate_audio_internal text voice speed true w =
       (w', Raise (mk_exc ValueError "No chunks were processed successfully"))).
    { rewrite (generate_audio_internal_accepted _ _ _ _ _ _ _ Hacc).
      rewrite try_except_eq, bind_eq.
      destruct (stitched_audio_eq (normalize_text text) voice voicepack speed w1)
        as (w2 & w3 & ->).
      { intros chunk Hin. apply soft_fails_not_interrupted.
        by apply tokenize_fails_soft, Hall. }
      rewrite omap_all_None; [by eexists|].
      intros chunk Hin. by apply (tokenize_fails_soft voice voicepack speed), Hall. }
    destruct Hi as [w' Hi]. exists w'. eexists. split; [done|].
    unfold _generate_audio. by rewrite try_finally_eq, bind_eq, Hi.
  - intros Hall (c0 & Hc0 & Htok).
    assert (Hi : exists w', _generate_audio_internal text voice speed true w =
       (w', Raise (mk_exc ValueError "No audio chunks were generated successfully"))).
    { rewrite (generate_audio_internal_accepted _ _ _ _ _ _ _ Hacc).
      rewrite try_except_eq, bind_eq.
      destruct (stitched_audio_eq (normalize_text text) voice voicepack speed w1)
        as (w2 & w3 & ->).
      { intros chunk Hin. by apply soft_fails_not_interrupted, Hall. }
      destruct (omap (token_data voice) (split_text (normalize_text text)))
        as [|cd cds] eqn:Hcd.
      { exfalso. pose proof (Hall c0 Hc0) as Hs.
        assert (Hsome : is_Some (token_data voice c0)).
        { unfold token_data, tokenize_fails, soft_fails in *.
          destruct (tokenize_result voice c0) as [[ph toks]|e]; [by eexists|].
          congruence. }
        destruct Hsome as [cd Hsome].
        assert (Hin : cd ∈ omap (token_data voice) (split_text (normalize_text text)))
          by (apply list_elem_of_omap; eauto).
        rewrite Hcd in Hin. by apply not_elem_of_nil in Hin. }
      unfold survivors. rewrite omap_all_None; [by eexists|].
      intros chunk Hin. by apply soft_fails_no_audio, Hall. }
    destruct Hi as [w' Hi]. exists w'. eexists. split; [done|].
    unfold _generate_audio. by rewrite try_finally_eq, bind_eq, Hi.
Qed.
End NonStreaming.

(** On the stubs: of the chunks ["bad"], ["good"], ["-"] and ["fine"], the
    first fails to tokenize and the third gives no audio; the two others are
    stitched. *)
Lemma demo_accepted text :
  text <> "" ->
  accepted (C:=demo) text "af" demo_world
    (mk_world demo_fs [("voices/af.pt", mk_tensor 0 [1; 1]%Q)] 1 [EvTorchLoad "voices/af.pt"])
    (mk_tensor 0 [1; 1]%Q).
Proof.
  intros H. split; [exact H|]. split; [exact H|].
  split; [by eexists|]. reflexivity.
Qed.

Lemma stitching_skips_failed_chunks_witness :
  exists w' audio,
    _generate_audio_internal (C:=demo) "bad.good.-.fine" "af" tt true demo_world =
      (w', Ok (Some audio, tt)) /\
    a_samples audio = [4; 4; 4; 4]%Z.
Proof.
  destruct (stitching_skips_failed_chunks (C:=demo) "bad.good.-.fine" "af" tt demo_world
              _ _ (demo_accepted "bad.good.-.fine" ltac:(discriminate)))
    as (w' & audio & H1 & H2 & _).
  - intros chunk Hin. vm_compute in Hin.
    repeat (apply elem_of_cons in Hin as [->|Hin]; [reflexivity|]).
    by apply not_elem_of_nil in Hin.
  - vm_compute. discriminate.
  - exists w', audio. split; [exact H1|exact H2].
Defined.

Lemma zero_survivors_abort_request_witness :
  (exists w' w'',
      _generate_audio_internal (C:=demo) "bad.bad" "af" tt true demo_world =
        (w', Raise (mk_exc ValueError "No chunks were processed successfully")) /\
      _generate_audio (C:=demo) "bad.bad" "af" tt true demo_world =
        (w'', Raise (mk_exc ValueError "No chunks were processed successfully"))) /\
  (exists w' w'',
      _generate_audio_internal (C:=demo) "bad.-" "af" tt true demo_world =
        (w', Raise (mk_exc ValueError "No audio chunks were generated successfully")) /\
      _generate_audio (C:=demo) "bad.-" "af" tt true demo_world =
        (w'', Raise (mk_exc ValueError "No audio chunks were generated successfully"))).
Proof.
  split.
  - apply (proj1 (zero_survivors_abort_request (C:=demo) "bad.bad" "af" tt demo_world
                    _ _ (demo_accepted "bad.bad" ltac:(discriminate)))).
    intros chunk Hin. vm_compute in Hin.
    repeat (apply elem_of_cons in Hin as [->|Hin]; [reflexivity|]).
    by apply not_elem_of_nil in Hin.
  - apply (proj2 (zero_survivors_abort_request (C:=demo) "bad.-" "af" tt demo_world
                    _ _ (demo_accepted "bad.-" ltac:(discriminate)))).
    + intros chunk Hin. vm_compute in Hin.
      repeat (apply elem_of_cons in Hin as [->|Hin]; [reflexivity|]).
      by apply not_elem_of_nil in Hin.
    + exists "-". split; [|reflexivity]. vm_compute. right. left.
Defined.

(** ** The streaming path *)

Section Streaming.
Context `{C : Collaborators}.

(** The loop, one turn at a time. *)
Lemma stream_loop_eq voice voicepack speed fmt c gen is_first norm w :
  stream_loop voice voicepack speed fmt c gen is_first norm w =
  match process_chunk voice voicepack speed fmt c is_first
          (bool_decide (head gen = None)) norm w with
  | Emitted w2 norm' y =>
      Yielded w2 y (after_yield voice voicepack speed fmt c gen is_first norm' w2)
  | Skipped w' norm' => next_turn voice voicepack speed fmt gen is_first norm' w'
  | Aborted w' e => Raised w' e
  end.
Proof.
  unfold process_chunk, chunk_except, after_yield, next_turn.
  destruct gen as [|c' gen']; cbn [stream_loop head];
    (destruct (bind _ _ w) as [w1 [[a|]|e]]; [|reflexivity|];
     [destruct (convert_audio _ _ _ _ _ _) as [norm' [b|e]]; [reflexivity|]|];
     destruct (isinstance_Exception e); reflexivity).
Qed.

End Streaming.

Arguments stream_loop : simpl never.
Arguments process_chunk : simpl never.
Arguments next_turn : simpl never.
Arguments after_yield : simpl never.
Arguments count_cleanup : simpl never.

Lemma count_emit ev w :
  count_cleanup (trace (exec (emit ev) w)) =
  count_cleanup (trace w) + (if is_cleanup ev then 1 else 0).
Proof.
  change (trace (exec (emit ev) w)) with (trace w ++ [ev])%list.
  rewrite count_cleanup_app. by destruct ev.
Qed.

Ltac count_trace :=
  unfold logger_error, log_gpu_memory, cleanup;
  rewrite ?count_emit; cbn [is_cleanup]; try lia.

Section Turns.
Context `{C : Collaborators}.

Lemma exhaust_from_loop voice voicepack speed fmt c gen is_first norm w :
  exhaust_from (stream_loop voice voicepack speed fmt c gen is_first norm w) =
  match process_chunk voice voicepack speed fmt c is_first
          (bool_decide (head gen = None)) norm w with
  | Emitted w2 norm' y =>
      run_cons y (exhaust_from (next_turn voice voicepack speed fmt gen false norm' w2))
  | Skipped w' norm' =>
      exhaust_from (next_turn voice voicepack speed fmt gen is_first norm' w')
  | Aborted w' e => mk_run [] w' (Some e)
  end.
Proof.
  rewrite stream_loop_eq. by destruct (process_chunk _ _ _ _ _ _ _ _ _).
Qed.

Lemma exhaust_from_handlers {Y} (s : step Y) :
  yields (exhaust_from (stream_handlers s)) = yields (exhaust_from s) /\
  raised (exhaust_from (stream_handlers s)) = raised (exhaust_from s).
Proof.
  induction s as [w y k IH|w|w e]; cbn; [|done..].
  destruct (IH RNext) as [-> ->]. done.
Qed.

Lemma tokenize_then_synthesize chunk voice voicepack speed w :
  exists w1,
    (let* '(_, toks) := call_process_text chunk voice in
     call_generate_from_tokens toks voicepack speed) w =
    (w1, match tokenize_result voice chunk with
         | Ok (_, toks) => generate_from_tokens toks voicepack speed
         | Raise e => Raise e
         end) /\
    count_cleanup (trace w1) = count_cleanup (trace w).
Proof.
  rewrite bind_eq. rewrite call_process_text_eq. unfold tokenize_result.
  destruct voice as [|lang rest]; [by eexists|].
  destruct (process_text chunk lang) as [[ph toks]|e].
  - rewrite call_generate_from_tokens_eq. eexists; split; [done|]. count_trace.
  - eexists; split; [done|]. count_trace.
Qed.

(** A chunk that soft-fails is skipped, and the normalizer is untouched. *)
Lemma process_chunk_soft_fails voice voicepack speed fmt c is_first is_last norm w :
  soft_fails voice voicepack speed c = true ->
  exists w', process_chunk voice voicepack speed fmt c is_first is_last norm w =
             Skipped w' norm.
Proof.
  intros Hs. unfold process_chunk.
  destruct (tokenize_then_synthesize c voice voicepack speed w) as (w1 & -> & _).
  unfold soft_fails, synthesize_fails in Hs. unfold chunk_except.
  destruct (tokenize_result voice c) as [[ph toks]|e].
  - destruct (generate_from_tokens toks voicepack speed) as [[a|]|e]; [done|by eexists|].
    rewrite Hs. by eexists.
  - rewrite Hs. by eexists.
Qed.

(** A chunk that has audio goes to the encoder. *)
Lemma process_chunk_audio voice voicepack speed fmt c is_first is_last norm w a :
  chunk_audio_of voice voicepack speed c = Some a ->
  exists w2,
    process_chunk voice voicepack speed fmt c is_first is_last norm w =
    match convert_audio a 24000 fmt is_first norm is_last with
    | (norm', Raise e) => chunk_except c e norm' w2
    | (norm', Ok b) => Emitted w2 norm' b
    end.
Proof.
  intros Ha. unfold process_chunk.
  destruct (tokenize_then_synthesize c voice voicepack speed w) as (w1 & -> & _).
  unfold chunk_audio_of in Ha.
  destruct (tokenize_result voice c) as [[ph toks]|e]; [|done].
  destruct (generate_from_tokens toks voicepack speed) as [[a'|]|e]; [|done..].
  injection Ha as ->. by eexists.
Qed.

(** Only an interrupt, from the model or from the encoder, leaves the loop. *)
Lemma process_chunk_not_aborted voice voicepack speed fmt c is_first is_last norm w :
  interrupts voice voicepack speed c = false ->
  encoder_raises_Exceptions ->
  forall w' e,
    process_chunk voice voicepack speed fmt c is_first is_last norm w <> Aborted w' e.
Proof.
  intros Hi Henc w' e. unfold process_chunk.
  destruct (tokenize_then_synthesize c voice voicepack speed w) as (w1 & -> & _).
  unfold interrupts in Hi. unfold chunk_except.
  destruct (tokenize_result voice c) as [[ph toks]|e0].
  - destruct (generate_from_tokens toks voicepack speed) as [[a|]|e0]; [|done|].
    + pose proof (Henc a 24000%Z fmt is_first norm is_last) as Henc'.
      destruct (convert_audio a 24000 fmt is_first norm is_last) as [norm' [b|e0]];
        [done|].
      by rewrite (Henc' e0 eq_refl).
    + apply negb_false_iff in Hi. by rewrite Hi.
  - apply negb_false_iff in Hi. by rewrite Hi.
Qed.

(** No turn of the loop releases resources. *)
Lemma process_chunk_no_cleanup voice voicepack speed fmt c is_first is_last norm w :
  match process_chunk voice voicepack speed fmt c is_first is_last norm w with
  | Emitted w' _ _ | Skipped w' _ | Aborted w' _ =>
      count_cleanup (trace w') = count_cleanup (trace w)
  end.
Proof.
  unfold process_chunk.
  destruct (tokenize_then_synthesize c voice voicepack speed w) as (w1 & -> & Hw1).
  unfold chunk_except.
  destruct (tokenize_result voice c) as [[ph toks]|e].
  - destruct (generate_from_tokens toks voicepack speed) as [[a|]|e].
    + destruct (convert_audio a 24000 fmt is_first norm is_last) as [norm' [b|e]].
      * count_trace.
      * destruct (isinstance_Exception e); count_trace.
    + count_trace.
    + destruct (isinstance_Exception e); count_trace.
  - destruct (isinstance_Exception e); count_trace.
Qed.

(** The recording encoder changes nothing but what is yielded. *)
Lemma process_chunk_tagged voice voicepack speed fmt c is_first is_last norm w :
  process_chunk (C:=tagged C) voice voicepack speed fmt c is_first is_last norm w =
  match process_chunk (C:=C) voice voicepack speed fmt c is_first is_last norm w with
  | Emitted w' norm' y => Emitted w' norm' (y, (is_first, is_last))
  | Skipped w' norm' => Skipped w' norm'
  | Aborted w' e => Aborted w' e
  end.
Proof.
  unfold process_chunk.
  change (@call_process_text (tagged C)) with (@call_process_text C).
  change (@call_generate_from_tokens (tagged C)) with (@call_generate_from_tokens C).
  destruct (bind _ _ w) as [w1 [[a|]|e]]; [|done|].
  - cbn [convert_audio tagged].
    destruct (@convert_audio C a 24000%Z fmt is_first norm is_last) as [norm' [b|e]];
      [done|].
    unfold chunk_except. by destruct (isinstance_Exception e).
  - unfold chunk_except. by destruct (isinstance_Exception e).
Qed.
End Turns.

Section Flags.
Context `{C : Collaborators}.
Variables (voice : string) (voicepack : tensor) (speed : speed_t) (fmt : string).


(** When every chunk is yielded, the flags follow the position alone. *)
Lemma loop_positions_all_yielded gen :
  encoder_total (C:=C) ->
  forall c is_first norm w,
    (forall chunk, chunk ∈ c :: gen ->
       is_Some (chunk_audio_of voice voicepack speed chunk)) ->
    let rt := exhaust_from (stream_loop (C:=tagged C) voice voicepack speed fmt
                              c gen is_first norm w) in
    map snd (yields rt) = loop_positions is_first (length gen) /\
    raised rt = None.
Proof.
  intros Henc. induction gen as [|c' gen IH]; intros c is_first norm w Hall; cbn zeta;
    rewrite exhaust_from_loop, process_chunk_tagged;
    destruct (Hall c (list_elem_of_here _ _)) as [a Ha].
  - rewrite bool_decide_eq_true_2 by done.
    destruct (process_chunk_audio voice voicepack speed fmt c is_first
                true norm w a Ha) as [w2 ->].
    by destruct (Henc a 24000%Z fmt is_first norm true) as (n' & b & ->).
  - rewrite bool_decide_eq_false_2 by done.
    destruct (process_chunk_audio voice voicepack speed fmt c is_first
                false norm w a Ha) as [w2 ->].
    destruct (Henc a 24000%Z fmt is_first norm false) as (n' & b & ->).
    unfold next_turn. cbn [run_cons yields raised map length loop_positions snd].
    destruct (IH c' false n' w2) as [-> ->]; [|done].
    intros; apply Hall. by right.
Qed.


(** The first item yielded carries the current [is_first]; every later
    one carries [false]. *)
Lemma loop_first_flag gen :
  forall c is_first norm w,
    let rt := exhaust_from (stream_loop (C:=tagged C) voice voicepack speed fmt
                              c gen is_first norm w) in
    map tag_first (yields rt) =
    match yields rt with
    | [] => []
    | _ :: later => is_first :: repeat false (length later)
    end.
Proof.
  induction gen as [|c' gen IH]; intros c is_first norm w; cbn zeta;
    rewrite exhaust_from_loop, process_chunk_tagged;
    destruct (process_chunk (C:=C) _ _ _ _ _ _ _ _ _) as [w' n' y|w' n'|w' e];
    unfold next_turn; try done.
  - cbn [run_cons yields map]. f_equal. rewrite IH.
    by destruct (yields _).
Qed.

(** A final chunk that soft-fails leaves no item flagged as last. *)
Lemma loop_no_last_flag gen :
  forall c is_first norm w last_chunk,
    last (c :: gen) = Some last_chunk ->
    soft_fails voice voicepack speed last_chunk = true ->
    let rt := exhaust_from (stream_loop (C:=tagged C) voice voicepack speed fmt
                              c gen is_first norm w) in
    Forall (fun y => tag_last y = false) (yields rt).
Proof.
  induction gen as [|c' gen IH]; intros c is_first norm w lc Hlast Hsoft; cbn zeta;
    rewrite exhaust_from_loop, process_chunk_tagged.
  - injection Hlast as ->. rewrite bool_decide_eq_true_2 by done.
    destruct (process_chunk_soft_fails voice voicepack speed fmt lc is_first
                true norm w Hsoft) as [w' ->].
    unfold next_turn. constructor.
  - rewrite bool_decide_eq_false_2 by done.
    destruct (process_chunk (C:=C) _ _ _ _ _ _ _ _ _) as [w' n' y|w' n'|w' e];
      unfold next_turn.
    + cbn [run_cons yields]. constructor; [done|]. by eapply IH.
    + by eapply IH.
    + constructor.
Qed.

(** Nothing but an interrupt ends the loop with an exception. *)
Lemma loop_contains_failures gen :
  encoder_raises_Exceptions (C:=C) ->
  forall c is_first norm w,
    (forall chunk, chunk ∈ c :: gen ->
       interrupts voice voicepack speed chunk = false) ->
    raised (exhaust_from (stream_loop (C:=C) voice voicepack speed fmt
                            c gen is_first norm w)) = None.
Proof.
  intros Henc. induction gen as [|c' gen IH]; intros c is_first norm w Hall;
    rewrite exhaust_from_loop.
  - rewrite bool_decide_eq_true_2 by done.
    pose proof (process_chunk_not_aborted voice voicepack speed fmt c is_first
                  true norm w
                  (Hall c (list_elem_of_here _ _)) Henc) as Hna.
    destruct (process_chunk (C:=C) _ _ _ _ _ _ _ _ _) as [w' n' y|w' n'|w' e];
      unfold next_turn; [done..|]. by edestruct Hna.
  - rewrite bool_decide_eq_false_2 by done.
    pose proof (process_chunk_not_aborted voice voicepack speed fmt c is_first
                  false norm w
                  (Hall c (list_elem_of_here _ _)) Henc) as Hna.
    destruct (process_chunk (C:=C) _ _ _ _ _ _ _ _ _) as [w' n' y|w' n'|w' e];
      unfold next_turn; [| |by edestruct Hna].
    + cbn. apply IH. intros; apply Hall; by right.
    + apply IH. intros; apply Hall; by right.
Qed.
End Flags.

(** ** Where [cleanup()] is called *)

Section Cleanup.
Context `{C : Collaborators}.

Lemma cleans_ret {A} (a : A) : cleans_on_return 0 (ret a).
Proof. intros w. cbn. lia. Qed.

Lemma cleans_raise {A} n e : cleans_on_return n (@raise A e).
Proof. intros w. cbn. lia. Qed.

Lemma cleans_lift {A} (r : result A) : cleans_on_return 0 (lift r).
Proof. intros w. cbn. destruct (is_Ok r); lia. Qed.

Lemma cleans_emit ev : is_cleanup ev = false -> cleans_on_return 0 (emit ev).
Proof.
  intros H w. change (fst (emit ev w)) with (exec (emit ev) w).
  rewrite (count_emit ev w), H. cbn. lia.
Qed.

Lemma cleans_cleanup verbose : cleans_on_return 1 (cleanup verbose).
Proof.
  intros w. unfold cleanup.
  change (fst (emit (EvCleanup verbose) w)) with (exec (emit (EvCleanup verbose)) w).
  rewrite (count_emit _ w). cbn. lia.
Qed.

Lemma cleans_bind {A B} n (m : M A) (k : A -> M B) :
  cleans_on_return 0 m -> (forall a, cleans_on_return n (k a)) ->
  cleans_on_return n (bind m k).
Proof.
  intros Hm Hk w. rewrite bind_eq. specialize (Hm w).
  destruct (m w) as [w1 [a|e]]; cbn in *.
  - rewrite (Hk a w1). lia.
  - lia.
Qed.

Lemma cleans_bind_after {A B} (m : M A) (k : A -> M B) :
  cleans_on_return 1 m -> (forall a, cleans_on_return 0 (k a)) ->
  (forall a w, is_Ok (snd (k a w)) = true) ->
  cleans_on_return 1 (bind m k).
Proof.
  intros Hm Hk Hok w. rewrite bind_eq. specialize (Hm w).
  destruct (m w) as [w1 [a|e]]; cbn in *.
  - rewrite (Hk a w1), (Hok a w1). lia.
  - lia.
Qed.

Lemma cleans_try_except {A} n (body : M A) handler :
  cleans_on_return n body ->
  (forall e, cleans_on_return n (handler e)) ->
  cleans_on_return n (try_except body handler).
Proof.
  intros Hb Hh w. rewrite try_except_eq. specialize (Hb w).
  destruct (body w) as [w1 [a|e]]; cbn in *; [lia|].
  destruct (isinstance_Exception e); cbn; [|lia].
  rewrite (Hh e w1). lia.
Qed.

Lemma cleans_torch_load path : cleans_on_return 0 (torch_load path).
Proof.
  intros w. unfold torch_load.
  destruct (fs w !! path) as [[d|]|]; cbn [fst snd is_Ok];
    change (count_cleanup (trace w ++ [EvTorchLoad path]) =
            count_cleanup (trace w) + 0);
    rewrite count_cleanup_app; change (count_cleanup [EvTorchLoad path]) with 0; lia.
Qed.

Lemma cleans_load_voice path : cleans_on_return 0 (_load_voice path).
Proof.
  intros w. unfold _load_voice.
  destruct n_cache_voices; [apply cleans_torch_load|].
  destruct (cache_get path (voice_cache w)); [cbn; lia|].
  pose proof (cleans_torch_load path w) as H.
  destruct (torch_load path w) as [w1 [t|e]]; cbn in *; lia.
Qed.

Lemma cleans_get_voice_path voice : cleans_on_return 0 (_get_voice_path voice).
Proof.
  intros w. unfold _get_voice_path, os_path_exists, bind, ret. cbn. lia.
Qed.

Lemma cleans_call_process_text chunk voice :
  cleans_on_return 0 (call_process_text chunk voice).
Proof.
  unfold call_process_text. apply cleans_bind; [destruct voice; intros w; cbn; lia|].
  intros lang. apply cleans_bind; [by apply cleans_emit|]. intros _. apply cleans_lift.
Qed.

Lemma cleans_call_generate toks voicepack speed :
  cleans_on_return 0 (call_generate_from_tokens toks voicepack speed).
Proof.
  unfold call_generate_from_tokens.
  apply cleans_bind; [by apply cleans_emit|]. intros _. apply cleans_lift.
Qed.

Lemma cleans_logger_error msg : cleans_on_return 0 (logger_error msg).
Proof. by apply cleans_emit. Qed.

Lemma cleans_tokenize_loop voice chunks :
  forall acc, cleans_on_return 0 (tokenize_loop voice chunks acc).
Proof.
  induction chunks as [|c cs IH]; intros acc; [apply cleans_ret|].
  cbn [tokenize_loop]. apply cleans_bind; [|auto].
  apply cleans_try_except.
  - apply cleans_bind; [apply cleans_call_process_text|].
    intros [ph toks]. apply cleans_ret.
  - intros e. apply cleans_bind; [apply cleans_logger_error|]. intros; apply cleans_ret.
Qed.

Lemma cleans_synthesize_loop voicepack speed chunks_data :
  forall acc, cleans_on_return 0 (synthesize_loop voicepack speed chunks_data acc).
Proof.
  induction chunks_data as [|[c toks] cs IH]; intros acc; [apply cleans_ret|].
  cbn [synthesize_loop]. apply cleans_bind; [|auto].
  apply cleans_try_except.
  - apply cleans_bind; [apply cleans_call_generate|].
    intros [a|]; [apply cleans_ret|].
    apply cleans_bind; [apply cleans_logger_error|]. intros; apply cleans_ret.
  - intros e. apply cleans_bind; [apply cleans_logger_error|]. intros; apply cleans_ret.
Qed.

Lemma cleans_np_concatenate arrays : cleans_on_return 0 (np_concatenate arrays).
Proof. intros w. unfold np_concatenate. cbn. lia. Qed.

Lemma cleans_stitched_audio text voice voicepack speed :
  cleans_on_return 0 (stitched_audio text voice voicepack speed).
Proof.
  unfold stitched_audio. apply cleans_bind; [apply cleans_tokenize_loop|].
  intros [|cd cds]; [apply cleans_raise|].
  apply cleans_bind; [apply cleans_synthesize_loop|].
  intros [|a l]; [apply cleans_raise|].
  destruct (decide _); [|apply cleans_ret].
  apply cleans_bind; [apply cleans_np_concatenate|]. intros; apply cleans_ret.
Qed.

Lemma cleans_single_chunk_audio text voice voicepack speed :
  cleans_on_return 1 (single_chunk_audio text voice voicepack speed).
Proof.
  unfold single_chunk_audio. apply cleans_bind; [apply cleans_call_process_text|].
  intros [ph toks]. apply cleans_bind; [by apply cleans_emit|]. intros _.
  apply cleans_bind; [apply cleans_call_generate|]. intros a.
  apply cleans_bind; [by apply cleans_emit|]. intros _.
  apply cleans_bind_after; [apply cleans_cleanup|intros; apply cleans_ret|done].
Qed.

Lemma cleans_generate_audio_internal text voice speed stitch :
  cleans_on_return (if stitch : bool then 0 else 1)
    (_generate_audio_internal text voice speed stitch).
Proof.
  unfold _generate_audio_internal. apply cleans_try_except.
  - apply cleans_bind; [destruct (decide _); [apply cleans_raise|apply cleans_ret]|].
    intros _. cbn zeta.
    apply cleans_bind; [destruct (decide _); [apply cleans_raise|apply cleans_ret]|].
    intros _. apply cleans_bind; [apply cleans_get_voice_path|].
    intros [path|]; [|apply cleans_raise].
    apply cleans_bind; [apply cleans_load_voice|]. intros voicepack.
    destruct stitch.
    + apply cleans_bind; [apply cleans_stitched_audio|]. intros; apply cleans_ret.
    + apply cleans_bind_after;
        [apply cleans_single_chunk_audio|intros; apply cleans_ret|done].
  - intros e. apply cleans_bind; [apply cleans_logger_error|].
    intros _. apply cleans_raise.
Qed.

(** What [_generate_audio] adds to the count: its own [finally], and the
    verbose call of the unstitched branch when that branch completes. *)
Lemma generate_audio_cleanups text voice speed stitch w :
  count_cleanup (trace (fst (_generate_audio text voice speed stitch w))) =
  count_cleanup (trace w) + 1 +
  (if stitch then 0
   else if is_Ok (snd (_generate_audio text voice speed stitch w)) then 1 else 0).
Proof.
  unfold _generate_audio. rewrite try_finally_eq, bind_eq.
  pose proof (cleans_generate_audio_internal text voice speed stitch w) as H.
  destruct (_generate_audio_internal text voice speed stitch w) as [w1 [[a t]|e]];
    cbn [fst snd is_Ok] in *.
  - unfold cleanup, emit, ret. cbn [fst snd is_Ok trace set_trace].
    rewrite count_cleanup_app, H. change (count_cleanup [EvCleanup false]) with 1.
    destruct stitch; lia.
  - unfold cleanup, emit. cbn [fst snd is_Ok trace set_trace].
    rewrite count_cleanup_app, H. change (count_cleanup [EvCleanup false]) with 1.
    destruct stitch; lia.
Qed.

Lemma cleans_stream_prologue text voice : cleans_on_return 0 (stream_prologue text voice).
Proof.
  unfold stream_prologue.
  apply cleans_bind; [destruct (decide _); [apply cleans_raise|apply cleans_ret]|].
  intros _. cbn zeta.
  apply cleans_bind; [destruct (decide _); [apply cleans_raise|apply cleans_ret]|].
  intros _. apply cleans_bind; [apply cleans_get_voice_path|].
  intros [path|]; [|apply cleans_raise].
  apply cleans_bind; [apply cleans_load_voice|]. intros; apply cleans_ret.
Qed.

Lemma after_yield_no_cleanup voice voicepack speed fmt gen :
  (forall is_first norm w w',
      ends_in (next_turn voice voicepack speed fmt gen is_first norm w) w' \/
      suspends_in (next_turn voice voicepack speed fmt gen is_first norm w) w' ->
      count_cleanup (trace w') = count_cleanup (trace w)) ->
  forall r c is_first norm w w',
    ends_in (after_yield voice voicepack speed fmt c gen is_first norm w r) w' \/
    suspends_in (after_yield voice voicepack speed fmt c gen is_first norm w r) w' ->
    count_cleanup (trace w') = count_cleanup (trace w).
Proof.
  intros HP r c is_first norm w w'. unfold after_yield.
  destruct r as [|e]; [apply HP|].
  destruct (isinstance_Exception e).
  - intros H. rewrite (HP _ _ _ _ H). count_trace.
  - intros [H|H]; inversion H; by subst.
Qed.

(** Inside the loop, suspended or ended, nothing has been released. *)
Lemma next_turn_no_cleanup voice voicepack speed fmt gen :
  forall is_first norm w w',
    ends_in (next_turn voice voicepack speed fmt gen is_first norm w) w' \/
    suspends_in (next_turn voice voicepack speed fmt gen is_first norm w) w' ->
    count_cleanup (trace w') = count_cleanup (trace w).
Proof.
  induction gen as [|c gen IH]; intros is_first norm w w'; unfold next_turn.
  - intros [H|H]; inversion H; by subst.
  - rewrite stream_loop_eq.
    match goal with
    | |- context [process_chunk ?v ?vp ?s ?f ?c ?b ?l ?n ?w] =>
        pose proof (process_chunk_no_cleanup v vp s f c b l n w) as Hq;
        destruct (process_chunk v vp s f c b l n w) as [w2 n' y|w2 n'|w2 e]
    end.
    + intros [H|H]; inversion H; subst; try done;
        match goal with
        | Hk : _ (after_yield _ _ _ _ _ _ _ _ _ _) _ |- _ =>
            rewrite <- Hq;
            eapply (after_yield_no_cleanup _ _ _ _ _ IH); eauto
        end.
    + intros H. by rewrite (IH _ _ _ _ H).
    + intros [H|H]; inversion H; by subst.
Qed.

Lemma loop_no_cleanup voice voicepack speed fmt gen c is_first norm w w' :
  ends_in (stream_loop voice voicepack speed fmt c gen is_first norm w) w' \/
  suspends_in (stream_loop voice voicepack speed fmt c gen is_first norm w) w' ->
  count_cleanup (trace w') = count_cleanup (trace w).
Proof. apply (next_turn_no_cleanup voice voicepack speed fmt (c :: gen)). Qed.

Lemma handlers_end {Y} (s : step Y) w' :
  ends_in (stream_handlers s) w' ->
  exists w0, ends_in s w0 /\ count_cleanup (trace w') = S (count_cleanup (trace w0)).
Proof.
  induction s as [w y k IH|w|w e]; cbn [stream_handlers]; intros H; inversion H; subst.
  - match goal with
    | Hk : ends_in (stream_handlers (k _)) _ |- _ =>
        destruct (IH _ Hk) as (w0 & ? & ?)
    end.
    exists w0. split; [|done]. by econstructor.
  - eexists; split; [constructor|]. count_trace.
  - eexists; split; [constructor|]. destruct (isinstance_Exception e); count_trace.
Qed.

Lemma handlers_suspend {Y} (s : step Y) w' :
  suspends_in (stream_handlers s) w' -> suspends_in s w'.
Proof.
  induction s as [w y k IH|w|w e]; cbn; intros H; inversion H; subst.
  - constructor.
  - econstructor. by apply IH.
Qed.

Lemma ends_in_exhaust {Y} (s : step Y) : ends_in s (final (exhaust_from s)).
Proof.
  induction s as [w y k IH|w|w e]; cbn; [|constructor..].
  econstructor. apply IH.
Qed.

Lemma ends_in_close_after {Y} (s : step Y) n :
  closes_promptly s -> ends_in s (final (close_after_from n s)).
Proof.
  intros Hs. revert n. induction Hs as [w|w e|w y k (w' & e & Hk & He) Hn IH];
    intros n; cbn; [constructor..|].
  destruct n as [|n].
  - econstructor. unfold aclose_from. rewrite Hk. cbn. constructor.
  - econstructor. apply IH.
Qed.

Lemma handlers_close_promptly {Y} (s : step Y) :
  closes_promptly s -> closes_promptly (stream_handlers s).
Proof.
  induction 1 as [w|w e|w y k (w' & e & Hk & He) Hn IH]; cbn; [constructor..|].
  constructor; [|done]. rewrite Hk. cbn. eauto.
Qed.

Lemma loop_closes_promptly voice voicepack speed fmt gen :
  forall c is_first norm w,
    closes_promptly (stream_loop voice voicepack speed fmt c gen is_first norm w).
Proof.
  induction gen as [|c' gen IH]; intros c is_first norm w;
    rewrite stream_loop_eq;
    destruct (process_chunk _ _ _ _ _ _ _ _ _) as [w2 n' y|w2 n'|w2 e];
    unfold next_turn; try constructor; unfold after_yield, next_turn; cbn; eauto;
    try constructor.
Qed.

Lemma body_closes_promptly text voice speed fmt w :
  closes_promptly (stream_body text voice speed fmt w).
Proof.
  unfold stream_body. destruct (stream_prologue text voice w) as [w1 [[t vp]|e]];
    [|constructor].
  destruct (split_text t); [constructor|apply loop_closes_promptly].
Qed.

(** The worlds of the generator body, before its handlers. *)
Lemma body_no_cleanup text voice speed fmt w w' :
  ends_in (stream_body text voice speed fmt w) w' \/
  suspends_in (stream_body text voice speed fmt w) w' ->
  count_cleanup (trace w') = count_cleanup (trace w).
Proof.
  unfold stream_body. pose proof (cleans_stream_prologue text voice w) as Hp.
  destruct (stream_prologue text voice w) as [w1 [[t vp]|e]]; cbn in Hp.
  - destruct (split_text t) as [|c gen].
    + intros [H|H]; inversion H; subst. lia.
    + intros H. rewrite (loop_no_cleanup _ _ _ _ _ _ _ _ _ _ H). lia.
  - intros [H|H]; inversion H; subst. lia.
Qed.
End Cleanup.

(** ** The stream as its consumer sees it *)

Section Stream.
Context `{C : Collaborators}.

Lemma generator_accepted text voice speed fmt w w1 voicepack :
  accepted text voice w w1 voicepack ->
  generate_audio_stream text voice speed fmt w RNext =
  stream_handlers
    (next_turn voice voicepack speed fmt (split_text (normalize_text text))
       true AudioNormalizer w1).
Proof.
  intros Hacc. unfold generate_audio_stream, stream_body.
  rewrite (stream_prologue_accepted _ _ _ _ _ Hacc). unfold next_turn.
  by destruct (split_text (normalize_text text)).
Qed.

Lemma exhaust_accepted text voice speed fmt w w1 voicepack :
  accepted text voice w w1 voicepack ->
  let r := exhaust (generate_audio_stream text voice speed fmt w) in
  let r' := exhaust_from
              (next_turn voice voicepack speed fmt (split_text (normalize_text text))
                 true AudioNormalizer w1) in
  yields r = yields r' /\ raised r = raised r'.
Proof.
  intros Hacc. cbn zeta. unfold exhaust.
  rewrite (generator_accepted _ _ _ _ _ _ _ Hacc). apply exhaust_from_handlers.
Qed.

End Stream.

Section TaggedStream.
Context `{C : Collaborators}.

(** The same, for the stream with the recording encoder. *)
Lemma exhaust_tagged_accepted text voice speed fmt w w1 voicepack :
  accepted text voice w w1 voicepack ->
  let rt := exhaust (generate_audio_stream (C:=tagged C) text voice speed fmt w) in
  let rt' := exhaust_from
               (next_turn (C:=tagged C) voice voicepack speed fmt
                  (@split_text C (@normalize_text C text)) true (@AudioNormalizer C) w1) in
  yields rt = yields rt' /\ raised rt = raised rt'.
Proof.
  intros Hacc.
  exact (exhaust_accepted (C:=tagged C) text voice speed fmt w w1 voicepack Hacc).
Qed.



(** C9. [is_first] stays [True] until an item has been yielded, while
    [is_last_chunk] is decided by the chunk's place in the text.  So in a
    stream whose first chunk soft-fails, the first item yielded is still
    encoded with [is_first_chunk=True]; in any stream, only the first item
    yielded is; and in a stream whose final chunk soft-fails, no item is
    encoded with [is_last_chunk=True]. *)
Theorem flags_under_soft_failure text voice speed fmt w w1 voicepack :
  accepted text voice w w1 voicepack ->
  let chunks := split_text (normalize_text text) in
  let rt := exhaust (generate_audio_stream (C:=tagged C) text voice speed fmt w) in
  (forall first_chunk rest,
      chunks = first_chunk :: rest ->
      soft_fails voice voicepack speed first_chunk = true ->
      forall y later, yields rt = y :: later -> tag_first y = true) /\
  (forall y later,
      yields rt = y :: later ->
      tag_first y = true /\ Forall (fun y' => tag_first y' = false) later) /\
  (forall last_chunk,
      last chunks = Some last_chunk ->
      soft_fails voice voicepack speed last_chunk = true ->
      Forall (fun y => tag_last y = false) (yields rt)).
Proof.
  intros Hacc. cbn zeta.
  destruct (exhaust_tagged_accepted text voice speed fmt w w1 voicepack Hacc)
    as [Hy _]. cbn zeta in Hy. rewrite Hy. clear Hy.
  assert (Hfirst : forall y later,
    yields (exhaust_from
      (next_turn (C:=tagged C) voice voicepack speed fmt
         (@split_text C (@normalize_text C text)) true (@AudioNormalizer C) w1))
      = y :: later ->
    tag_first y = true /\ Forall (fun y' => tag_first y' = false) later).
  { intros y later. destruct (split_text (normalize_text text)) as [|c gen]; [done|].
    pose proof (loop_first_flag (C:=C) voice voicepack speed fmt gen c true
                  (@AudioNormalizer C) w1) as Hf. cbn zeta in Hf.
    intros Hy. unfold next_turn in Hy. rewrite Hy in Hf. cbn [map] in Hf.
    injection Hf as Hy1 Hl.
    split; [done|]. apply Forall_forall. intros y' Hin.
    assert (Hin' : tag_first y' ∈ map tag_first later)
      by (apply list_elem_of_fmap; eauto).
    rewrite Hl in Hin'. by apply list_elem_of_In, repeat_spec in Hin'. }
  split; [|split; [exact Hfirst|]].
  - intros c0 rest _ _ y later Hy. by destruct (Hfirst y later Hy).
  - intros lc Hlast Hsoft.
    destruct (split_text (normalize_text text)) as [|c gen]; [done|].
    by eapply (loop_no_last_flag (C:=C) voice voicepack speed fmt gen c true
                 (@AudioNormalizer C) w1).
Qed.
End TaggedStream.

Section Containment.
Context `{C : Collaborators}.

(** C1 (as the code has it). A chunk on which [TTSModel.process_text]
    raises an [Exception] is handled like one for which the model gives no
    audio: the failure is logged, the chunk is skipped, and the loop goes
    on to the next chunk with [is_first] and the normalizer as they were.
    The exception does not reach the consumer: a stream in which the
    model and the encoder raise nothing but [Exception]s ends normally. *)
Theorem chunk_failures_do_not_end_stream voice voicepack speed fmt :
  (forall lang rest c gen is_first norm w e,
      voice = String lang rest ->
      process_text c lang = Raise e ->
      isinstance_Exception e = true ->
      stream_loop voice voicepack speed fmt c gen is_first norm w =
      next_turn voice voicepack speed fmt gen is_first norm
        (exec (logger_error ("Failed to generate audio for chunk: '" +:+ c +:+
                             "'. Error: " +:+ str e))
           (exec (emit (EvTokenize c)) w))) /\
  (forall lang rest c gen is_first norm w ph toks,
      voice = String lang rest ->
      process_text c lang = Ok (ph, toks) ->
      generate_from_tokens toks voicepack speed = Ok None ->
      stream_loop voice voicepack speed fmt c gen is_first norm w =
      next_turn voice voicepack speed fmt gen is_first norm
        (exec (logger_error ("No audio generated for chunk: '" +:+ c +:+ "'"))
           (exec (emit EvSynthesize) (exec (emit (EvTokenize c)) w)))) /\
  (forall text w w1,
      accepted text voice w w1 voicepack ->
      encoder_raises_Exceptions ->
      (forall chunk, chunk ∈ split_text (normalize_text text) ->
         interrupts voice voicepack speed chunk = false) ->
      raised (exhaust (generate_audio_stream text voice speed fmt w)) = None).
Proof.
  split; [|split].
  - intros lang rest c gen is_first norm w e -> Hp He.
    rewrite stream_loop_eq. unfold process_chunk.
    rewrite bind_eq, call_process_text_eq, Hp. unfold chunk_except. by rewrite He.
  - intros lang rest c gen is_first norm w ph toks -> Hp Hg.
    rewrite stream_loop_eq. unfold process_chunk.
    rewrite bind_eq, call_process_text_eq, Hp, call_generate_from_tokens_eq, Hg.
    done.
  - intros text w w1 Hacc Henc Hint.
    destruct (exhaust_accepted text voice speed fmt w w1 voicepack Hacc) as [_ Hr].
    cbn zeta in Hr. rewrite Hr.
    destruct (split_text (normalize_text text)) as [|c gen]; [done|].
    by apply loop_contains_failures.
Qed.

(** C6 (as the code has it). [cleanup()] runs on every exit path.
    [_generate_audio] calls it once in its [finally], whether
    [_generate_audio_internal] returns or raises; the unstitched branch
    calls it once more, verbosely, when it completes, so a call with
    [stitch_long_output=False] that returns has called it twice.  The
    generator calls it exactly once, when it ends, whichever way it ends
    and whatever its consumer did: while it is suspended at a [yield] it
    has not called it; exhausted by its consumer, or closed after any
    number of items, it has called it once. *)
Theorem cleanup_on_every_exit text voice speed stitch fmt w :
  count_cleanup (trace (fst (_generate_audio text voice speed stitch w))) =
    count_cleanup (trace w) + 1 +
    (if stitch then 0
     else if is_Ok (snd (_generate_audio text voice speed stitch w)) then 1 else 0) /\
  (forall w', ends_in (generate_audio_stream text voice speed fmt w RNext) w' ->
              count_cleanup (trace w') = count_cleanup (trace w) + 1) /\
  (forall w', suspends_in (generate_audio_stream text voice speed fmt w RNext) w' ->
              count_cleanup (trace w') = count_cleanup (trace w)) /\
  count_cleanup (trace (final (exhaust (generate_audio_stream text voice speed fmt w)))) =
    count_cleanup (trace w) + 1 /\
  (forall n,
      count_cleanup
        (trace (final (close_after n (generate_audio_stream text voice speed fmt w)))) =
      count_cleanup (trace w) + 1).
Proof.
  assert (Hend : forall w',
    ends_in (generate_audio_stream text voice speed fmt w RNext) w' ->
    count_cleanup (trace w') = count_cleanup (trace w) + 1).
  { intros w' H. cbn [generate_audio_stream] in H.
    apply handlers_end in H as (w0 & H0 & ->).
    rewrite (body_no_cleanup text voice speed fmt w w0) by auto. lia. }
  split; [apply generate_audio_cleanups|]. split; [exact Hend|]. split; [|split].
  - intros w' H. cbn [generate_audio_stream] in H. apply handlers_suspend in H.
    apply (body_no_cleanup text voice speed fmt w w'). auto.
  - apply Hend, ends_in_exhaust.
  - intros n. apply Hend, ends_in_close_after, handlers_close_promptly,
      body_closes_promptly.
Qed.
End Containment.

(** On the stubs, the text ["bad.good"] has two chunks, and tokenizing the
    first raises a [ValueError]. *)

Lemma tokenize_error_reaches_no_consumer :
  split_text (Collaborators:=demo) (normalize_text (Collaborators:=demo) "bad.good")
    = ["bad"; "good"] /\
  process_text (Collaborators:=demo) "bad" "a"%char
    = Raise (mk_exc ValueError "cannot phonemize") /\
  yields (exhaust (generate_audio_stream (C:=demo) "bad.good" "af" tt "wav" demo_world))
    = [[82; 73; 70; 70; 4; 4; 0]%Z] /\
  raised (exhaust (generate_audio_stream (C:=demo) "bad.good" "af" tt "wav" demo_world))
    = None.
Proof. repeat split; vm_compute; reflexivity. Qed.

Lemma demo_encoder_raises_Exceptions : encoder_raises_Exceptions (C:=demo).
Proof. intros a rate fmt is_first norm is_last e H. discriminate H. Qed.

Lemma chunk_failures_do_not_end_stream_witness :
  (stream_loop (C:=demo) "af" (mk_tensor 0 [1; 1]%Q) tt "wav" "bad" ["good"] true 0
     demo_world =
   next_turn (C:=demo) "af" (mk_tensor 0 [1; 1]%Q) tt "wav" ["good"] true 0
     (exec (logger_error
              "Failed to generate audio for chunk: 'bad'. Error: cannot phonemize")
        (exec (emit (EvTokenize "bad")) demo_world))) /\
  (stream_loop (C:=demo) "af" (mk_tensor 0 [1; 1]%Q) tt "wav" "-" ["good"] true 0
     demo_world =
   next_turn (C:=demo) "af" (mk_tensor 0 [1; 1]%Q) tt "wav" ["good"] true 0
     (exec (logger_error "No audio generated for chunk: '-'")
        (exec (emit EvSynthesize) (exec (emit (EvTokenize "-")) demo_world)))) /\
  raised (exhaust (generate_audio_stream (C:=demo) "bad.good.-" "af" tt "wav" demo_world))
    = None.
Proof.
  pose proof (chunk_failures_do_not_end_stream (C:=demo) "af" (mk_tensor 0 [1; 1]%Q)
                tt "wav") as (H1 & H2 & H3).
  split; [|split].
  - exact (H1 "a"%char "f" "bad" ["good"] true 0 demo_world
             (mk_exc ValueError "cannot phonemize") eq_refl eq_refl eq_refl).
  - exact (H2 "a"%char "f" "-" ["good"] true 0 demo_world "-" [] eq_refl eq_refl eq_refl).
  - apply (H3 "bad.good.-" demo_world _ (demo_accepted "bad.good.-" ltac:(discriminate))
             demo_encoder_raises_Exceptions).
    intros chunk Hin. vm_compute in Hin.
    repeat (apply elem_of_cons in Hin as [->|Hin]; [reflexivity|]).
    by apply not_elem_of_nil in Hin.
Defined.

(** On the stubs, an unstitched call that succeeds has called [cleanup()]
    twice. *)
Lemma unstitched_call_cleans_twice :
  is_Ok (snd (_generate_audio (C:=demo) "good" "af" tt false demo_world)) = true /\
  count_cleanup (trace demo_world) = 0 /\
  count_cleanup (trace (fst (_generate_audio (C:=demo) "good" "af" tt false demo_world))) = 2.
Proof. repeat split; vm_compute; reflexivity. Qed.

Lemma cleanup_on_every_exit_witness :
  (exists w',
      ends_in (generate_audio_stream (C:=demo) "good.fine" "af" tt "wav" demo_world RNext) w' /\
      count_cleanup (trace w') = 1) /\
  (exists w',
      suspends_in (generate_audio_stream (C:=demo) "good.fine" "af" tt "wav" demo_world RNext)
        w' /\
      count_cleanup (trace w') = 0).
Proof.
  pose proof (cleanup_on_every_exit (C:=demo) "good.fine" "af" tt true "wav" demo_world)
    as (_ & Hend & Hsus & _).
  split.
  - eexists. split; [apply ends_in_exhaust|]. apply Hend, ends_in_exhaust.
  - assert (Hs : exists w', suspends_in
        (generate_audio_stream (C:=demo) "good.fine" "af" tt "wav" demo_world RNext) w').
    { eexists. apply suspends_here. }
    destruct Hs as [w' Hs]. exists w'. split; [exact Hs|]. exact (Hsus w' Hs).
Defined.

Lemma demo_encoder_total : encoder_total (C:=demo).
Proof. intros a rate fmt is_first norm is_last. by eexists _, _. Qed.


(** On the stubs, the first and the last chunk of ["bad.good.fine.-"]
    soft-fail. *)
Lemma flags_under_soft_failure_witness :
  let rt := exhaust (generate_audio_stream (C:=tagged demo) "bad.good.fine.-" "af" tt "wav"
                       demo_world) in
  (exists y later, yields rt = y :: later /\ tag_first y = true) /\
  (exists y later, yields rt = y :: later /\
                   Forall (fun y' => tag_first y' = false) later) /\
  Forall (fun y => tag_last y = false) (yields rt).
Proof.
  destruct (flags_under_soft_failure (C:=demo) "bad.good.fine.-" "af" tt "wav"
              demo_world _ _ (demo_accepted "bad.good.fine.-" ltac:(discriminate)))
    as (H1 & H2 & H3).
  split; [|split].
  - eexists _, _. split; [vm_compute; reflexivity|].
    eapply (H1 "bad" ["good"; "fine"; "-"]); [reflexivity..|]. vm_compute; reflexivity.
  - eexists _, _. split; [vm_compute; reflexivity|].
    eapply H2. vm_compute; reflexivity.
  - by apply (H3 "-").
Defined.

(** ** The voice cache *)

Section VoiceCache.
Context `{C : Collaborators}.

Lemma torch_load_found path d w :
  fs w !! path = Some (TensorFile d) ->
  torch_load path w =
  (mk_world (fs w) (voice_cache w) (S (next_id w)) (trace w ++ [EvTorchLoad path]),
   Ok (mk_tensor (next_id w) d)).
Proof. intros H. unfold torch_load. by rewrite H. Qed.

Lemma cache_get_head {V} key (v : V) c : cache_get key ((key, v) :: c) = Some v.
Proof. cbn. by destruct (decide (key = key)). Qed.

Lemma cache_get_absent {V} key (c : list (string * V)) :
  key ∉ map fst c -> cache_get key c = None.
Proof.
  induction c as [|[k v] c IH]; [done|]. cbn. intros Hnin.
  destruct (decide (k = key)) as [->|_]; [by destruct Hnin; left|].
  apply IH. intros Hin. apply Hnin. by right.
Qed.

Lemma cache_get_last {V} key (v : V) c :
  key ∉ map fst c -> cache_get key (c ++ [(key, v)]) = Some v.
Proof.
  induction c as [|[k v'] c IH]; intros Hnin; [apply cache_get_head|].
  cbn in *. destruct (decide (k = key)) as [->|_]; [by destruct Hnin; left|].
  apply IH. intros Hin. apply Hnin. by right.
Qed.

Lemma cache_remove_last {V} key (v : V) c :
  key ∉ map fst c -> cache_remove key (c ++ [(key, v)]) = c.
Proof.
  induction c as [|[k v'] c IH]; intros Hnin; cbn.
  - by destruct (decide (key = key)).
  - cbn in Hnin. destruct (decide (k = key)) as [->|_]; [by destruct Hnin; left|].
    rewrite IH; [done|]. intros Hin. apply Hnin. by right.
Qed.

(** A hit: the cached object is returned, storage is not read, and the
    entry moves to the front. *)
Lemma load_voice_hit path t w :
  0 < n_cache_voices ->
  cache_get path (voice_cache w) = Some t ->
  _load_voice path w =
  (set_voice_cache ((path, t) :: cache_remove path (voice_cache w)) w, Ok t).
Proof.
  intros Hcap Hget. unfold _load_voice.
  destruct n_cache_voices; [lia|]. by rewrite Hget.
Qed.

(** A miss: storage is read, a new object is made and stored at the front;
    a full cache drops its last entry. *)
Lemma load_voice_miss path d w :
  0 < n_cache_voices ->
  cache_get path (voice_cache w) = None ->
  fs w !! path = Some (TensorFile d) ->
  _load_voice path w =
  (mk_world (fs w)
     (cache_store n_cache_voices path (mk_tensor (next_id w) d) (voice_cache w))
     (S (next_id w)) (trace w ++ [EvTorchLoad path]),
   Ok (mk_tensor (next_id w) d)).
Proof.
  intros Hcap Hget Hfs. unfold _load_voice.
  destruct n_cache_voices eqn:Hn; [lia|].
  by rewrite Hget, (torch_load_found _ _ _ Hfs).
Qed.

Lemma load_voice_cached_after path t w w1 :
  0 < n_cache_voices ->
  _load_voice path w = (w1, Ok t) ->
  cache_get path (voice_cache w1) = Some t.
Proof.
  intros Hcap. unfold _load_voice. destruct n_cache_voices eqn:Hn; [lia|].
  destruct (cache_get path (voice_cache w)) as [t'|].
  - intros [= <- <-]. apply cache_get_head.
  - destruct (torch_load path w) as [w' [t'|e]]; [|done].
    intros [= <- <-]. unfold cache_store.
    destruct (decide _); apply cache_get_head.
Qed.

Lemma take_app_take {A} n (l k : list A) :
  take n (l ++ take n k) = take n (l ++ k).
Proof. rewrite !take_app, take_take. do 2 f_equal. lia. Qed.

Lemma cache_store_keys {V} cap key (v : V) c :
  0 < cap -> length c <= cap ->
  map fst (cache_store cap key v c) = take cap (key :: map fst c).
Proof.
  intros Hcap Hlen. unfold cache_store. destruct (decide _) as [Hlt|Hge].
  - cbn [map fst]. rewrite take_ge; [done|]. cbn. rewrite length_map. lia.
  - assert (Hfull : length c = cap) by lia.
    destruct cap as [|m]; [lia|]. cbn [map fst take]. f_equal.
    destruct c as [|x l _] using rev_ind; [cbn in Hfull; lia|].
    rewrite removelast_last, map_app, take_app_length'; [done|].
    rewrite length_map. rewrite length_app in Hfull. cbn in Hfull. lia.
Qed.

(** Loading paths that are not cached, into a cache that is not over its
    capacity: the most recent [n_cache_voices] keys remain. *)
Lemma load_voices_fresh paths :
  0 < n_cache_voices ->
  forall w,
    NoDup paths ->
    (forall p, p ∈ paths -> p ∉ map fst (voice_cache w)) ->
    length (voice_cache w) <= n_cache_voices ->
    (forall p, p ∈ paths -> exists d, fs w !! p = Some (TensorFile d)) ->
    exists w' ts,
      load_voices paths w = (w', Ok ts) /\
      fs w' = fs w /\
      map fst (voice_cache w') =
        take n_cache_voices (reverse paths ++ map fst (voice_cache w)).
Proof.
  intros Hcap. induction paths as [|p ps IH]; intros w Hnd Hfresh Hlen Hfs.
  - exists w, []. split; [done|]. split; [done|].
    cbn. rewrite take_ge; [done|]. by rewrite length_map.
  - cbn [load_voices]. rewrite bind_eq.
    destruct (Hfs p (list_elem_of_here _ _)) as [d Hd].
    apply NoDup_cons in Hnd as [Hp Hnd].
    rewrite (load_voice_miss p d w Hcap);
      [|apply cache_get_absent, Hfresh; by left|done].
    set (t := mk_tensor (next_id w) d).
    set (w1 := mk_world (fs w) (cache_store n_cache_voices p t (voice_cache w))
                 (S (next_id w)) (trace w ++ [EvTorchLoad p])).
    assert (Hkeys : map fst (voice_cache w1) =
                    take n_cache_voices (p :: map fst (voice_cache w)))
      by (by apply cache_store_keys).
    destruct (IH w1) as (w' & ts & Hl & Hfs' & Hk); [done| | | |].
    + intros q Hq Hin. rewrite Hkeys in Hin.
      apply elem_of_take in Hin as (i & Hi & _).
      apply list_elem_of_lookup_2 in Hi.
      apply elem_of_cons in Hi as [->|Hi]; [done|].
      apply (Hfresh q); [by right|done].
    + rewrite <- (length_map fst), Hkeys, length_take. lia.
    + intros q Hq. apply Hfs. by right.
    + rewrite bind_eq, Hl. exists w', (t :: ts). split; [done|]. split; [done|].
      rewrite Hk, Hkeys, take_app_take, reverse_cons, <- app_assoc. done.
Qed.

Lemma cache_get_second_last {V} key key' (v v' : V) c :
  key ∉ map fst c -> key <> key' ->
  cache_get key (c ++ [(key', v'); (key, v)]) = Some v.
Proof.
  intros Hnin Hne.
  replace (c ++ [(key', v'); (key, v)])%list
    with ((c ++ [(key', v')]) ++ [(key, v)])%list by (by rewrite <- app_assoc).
  apply cache_get_last. rewrite map_app. cbn. intros Hin.
  apply elem_of_app in Hin as [Hin|Hin]; [done|].
  apply list_elem_of_singleton in Hin. done.
Qed.

(** C8. [_load_voice] is memoized by path, with a bound of
    [n_cache_voices] entries (taken positive, as configured).  Loading a
    path that is cached returns the cached object itself and changes
    nothing in the world but the order of the cache; a load that returns
    leaves its path cached, so a second load returns the very object the
    first one returned, without reading storage.  Loading [n_cache_voices + 1] distinct paths into an
    empty cache leaves all of them cached but the first one loaded; in
    general a miss on a full cache drops its least recently used entry and
    no other.  And a hit moves its entry to the front: when the least
    recently used entry is hit before the next miss, it is the entry
    before it that is dropped. *)
Theorem voice_cache_is_lru :
  0 < n_cache_voices ->
  (forall path w t,
      cache_get path (voice_cache w) = Some t ->
      _load_voice path w =
        (set_voice_cache ((path, t) :: cache_remove path (voice_cache w)) w, Ok t)) /\
  (forall path w w1 t,
      _load_voice path w = (w1, Ok t) ->
      cache_get path (voice_cache w1) = Some t /\
      exists w2,
        _load_voice path w1 = (w2, Ok t) /\
        trace w2 = trace w1 /\ fs w2 = fs w1 /\ next_id w2 = next_id w1) /\
  (forall paths w,
      voice_cache w = [] ->
      NoDup paths ->
      length paths = S n_cache_voices ->
      (forall p, p ∈ paths -> exists d, fs w !! p = Some (TensorFile d)) ->
      exists w' ts,
        load_voices paths w = (w', Ok ts) /\
        map fst (voice_cache w') = reverse (tail paths)) /\
  (forall path d w,
      length (voice_cache w) = n_cache_voices ->
      path ∉ map fst (voice_cache w) ->
      fs w !! path = Some (TensorFile d) ->
      exists w' t,
        _load_voice path w = (w', Ok t) /\
        voice_cache w' = (path, t) :: removelast (voice_cache w)) /\
  (forall older k tk lru t fresh d w,
      voice_cache w = (older ++ [(k, tk); (lru, t)])%list ->
      NoDup (map fst (voice_cache w)) ->
      length (voice_cache w) = n_cache_voices ->
      fresh ∉ map fst (voice_cache w) ->
      fs w !! fresh = Some (TensorFile d) ->
      (exists w',
          (let* _ := _load_voice fresh in ret tt) w = (w', Ok tt) /\
          map fst (voice_cache w') = fresh :: map fst older ++ [k]) /\
      (exists w',
          (let* _ := _load_voice lru in let* _ := _load_voice fresh in ret tt) w
            = (w', Ok tt) /\
          map fst (voice_cache w') = fresh :: lru :: map fst older)).
Proof.
  intros Hcap. split; [|split; [|split; [|split]]].
  - intros path w t Hget. by apply load_voice_hit.
  - intros path w w1 t Hload.
    pose proof (load_voice_cached_after _ _ _ _ Hcap Hload) as Hget.
    split; [done|]. rewrite (load_voice_hit _ _ _ Hcap Hget). by eexists.
  - intros paths w Hempty Hnd Hlen Hfs.
    destruct (load_voices_fresh paths Hcap w Hnd) as (w' & ts & Hl & _ & Hk);
      [intros p _; rewrite Hempty; apply not_elem_of_nil
      |rewrite Hempty; cbn; lia|done|].
    exists w', ts. split; [done|]. rewrite Hk, Hempty. cbn. rewrite app_nil_r.
    destruct paths as [|p ps]; [done|]. cbn [tail].
    rewrite reverse_cons, take_app_length'; [done|].
    rewrite length_reverse. cbn in Hlen. lia.
  - intros path d w Hfull Hnin Hfs.
    rewrite (load_voice_miss path d w Hcap (cache_get_absent _ _ Hnin) Hfs).
    eexists _, _. split; [done|]. cbn. unfold cache_store.
    destruct (decide _); [lia|done].
  - intros older k tk lru t fresh d w Hc Hnd Hfull Hfresh Hfs.
    rewrite Hc in Hnd, Hfull, Hfresh.
    rewrite map_app in Hnd. cbn in Hnd.
    apply NoDup_app in Hnd as (_ & Hdisj & Hnd2).
    apply NoDup_cons in Hnd2 as [Hk _].
    assert (Hne : lru <> k).
    { intros ->. apply Hk. by left. }
    assert (Hlru : lru ∉ map fst older).
    { intros Hin. apply (Hdisj lru Hin). right. by left. }
    split.
    + rewrite bind_eq, (load_voice_miss fresh d w Hcap); [|rewrite Hc|done].
      2:{ by apply cache_get_absent. }
      eexists. split; [done|]. cbn. rewrite Hc. unfold cache_store.
      destruct (decide _); [lia|]. cbn [map fst]. f_equal.
      replace (older ++ [(k, tk); (lru, t)])%list
        with ((older ++ [(k, tk)]) ++ [(lru, t)])%list by (by rewrite <- app_assoc).
      by rewrite removelast_last, map_app.
    + rewrite bind_eq, (load_voice_hit lru t w Hcap);
        [|rewrite Hc; by apply cache_get_second_last].
      rewrite bind_eq.
      set (w1 := set_voice_cache _ w).
      assert (Hc1 : voice_cache w1 = (lru, t) :: (older ++ [(k, tk)])%list).
      { unfold w1. cbn. rewrite Hc. f_equal.
        replace (older ++ [(k, tk); (lru, t)])%list
          with ((older ++ [(k, tk)]) ++ [(lru, t)])%list by (by rewrite <- app_assoc).
        apply cache_remove_last. rewrite map_app. cbn. intros Hin.
        apply elem_of_app in Hin as [Hin|Hin]; [done|].
        by apply list_elem_of_singleton in Hin. }
      assert (Hfs1 : fs w1 !! fresh = Some (TensorFile d)) by done.
      clearbody w1.
      rewrite (load_voice_miss fresh d w1 Hcap); [| |done].
      2:{ apply cache_get_absent. rewrite Hc1. cbn. rewrite map_app. cbn.
          intros Hin. apply Hfresh. rewrite map_app. cbn.
          apply elem_of_cons in Hin as [->|Hin].
          - apply elem_of_app. right. right. by left.
          - apply elem_of_app in Hin as [Hin|Hin]; apply elem_of_app;
              [by left|right].
            apply list_elem_of_singleton in Hin as ->. by left. }
      eexists. split; [done|]. cbn [voice_cache]. rewrite Hc1. unfold cache_store.
      destruct (decide _) as [Hlt|_].
      { cbn in Hlt. rewrite length_app in Hlt, Hfull. cbn in Hlt, Hfull. lia. }
      cbn [map fst]. f_equal.
      replace ((lru, t) :: older ++ [(k, tk)])%list
        with (((lru, t) :: older) ++ [(k, tk)])%list by done.
      by rewrite removelast_last.
Qed.

End VoiceCache.

(** On the stubs the cache holds two voices. *)
Lemma voice_cache_is_lru_witness :
  (exists w2,
      _load_voice (C:=demo) "voices/a.pt"
        (mk_world demo_fs [("voices/a.pt", mk_tensor 0 [2; 2]%Q)] 1
           [EvTorchLoad "voices/a.pt"])
      = (w2, Ok (mk_tensor 0 [2; 2]%Q)) /\
      trace w2 = [EvTorchLoad "voices/a.pt"]) /\
  (exists w' ts,
      load_voices (C:=demo) ["voices/a.pt"; "voices/b.pt"; "voices/c.pt"] demo_world
        = (w', Ok ts) /\
      map fst (voice_cache w') = ["voices/c.pt"; "voices/b.pt"]) /\
  (let w := mk_world demo_fs
              [("voices/b.pt", mk_tensor 1 [4; 4]%Q); ("voices/a.pt", mk_tensor 0 [2; 2]%Q)]
              2 [] in
   (exists w', (let* _ := _load_voice (C:=demo) "voices/c.pt" in ret tt) w = (w', Ok tt) /\
               map fst (voice_cache w') = ["voices/c.pt"; "voices/b.pt"]) /\
   (exists w', (let* _ := _load_voice (C:=demo) "voices/a.pt" in
                let* _ := _load_voice (C:=demo) "voices/c.pt" in ret tt) w = (w', Ok tt) /\
               map fst (voice_cache w') = ["voices/c.pt"; "voices/a.pt"])).
Proof.
  destruct (voice_cache_is_lru (C:=demo) ltac:(cbn; lia)) as (_ & Ha & Hb & _ & Hd).
  split; [|split].
  - destruct (Ha "voices/a.pt" demo_world _ _ eq_refl) as (_ & w2 & H1 & H2 & _).
    exists w2. split; [exact H1|exact H2].
  - apply (Hb ["voices/a.pt"; "voices/b.pt"; "voices/c.pt"] demo_world eq_refl);
      [apply (bool_decide_unpack _); vm_compute; reflexivity|reflexivity|].
    intros p Hin.
    repeat (apply elem_of_cons in Hin as [->|Hin]; [by eexists|]).
    by apply not_elem_of_nil in Hin.
  - apply (Hd [] "voices/b.pt" (mk_tensor 1 [4; 4]%Q) "voices/a.pt" (mk_tensor 0 [2; 2]%Q)
             "voices/c.pt" [6; 0]%Q); [reflexivity| |reflexivity| |reflexivity].
    + apply (bool_decide_unpack _); vm_compute; reflexivity.
    + apply (bool_decide_unpack _); vm_compute; reflexivity.
Defined.


(** ** Combining voices *)

Section CombineVoices.
Context `{C : Collaborators}.

(** When every named voice loads, the loop reads each file once, in
    order, and touches neither the store nor the cache. *)
Lemma load_loop_all voices :
  forall embs t_voices v_name w,
    Forall2 (fun v d => fs w !! voice_file v = Some (TensorFile d)) voices embs ->
    exists w' ts,
      load_loop voices t_voices v_name w =
        (w', Ok ((t_voices ++ ts)%list, (v_name ++ voices)%list)) /\
      map t_data ts = embs /\
      fs w' = fs w /\ voice_cache w' = voice_cache w /\
      trace w' = (trace w ++ map (fun v => EvTorchLoad (voice_file v)) voices)%list.
Proof.
  induction voices as [|v vs IH]; intros embs t_voices v_name w Hall.
  - apply Forall2_nil_inv_l in Hall as ->. exists w, [].
    cbn. by rewrite !app_nil_r.
  - apply Forall2_cons_inv_l in Hall as (d & embs' & Hd & Hall & ->).
    cbn [load_loop]. rewrite bind_eq, try_except_eq, bind_eq.
    fold (voice_file v). rewrite (torch_load_found _ _ _ Hd).
    set (w1 := mk_world _ _ _ _). cbn [ret].
    destruct (IH embs' (t_voices ++ [mk_tensor (next_id w) d])%list
                (v_name ++ [v])%list w1 Hall) as (w' & ts & Hl & Hts & Hfs & Hc & Htr).
    rewrite Hl. exists w', (mk_tensor (next_id w) d :: ts).
    rewrite <- !app_assoc. split; [done|]. split; [cbn; by rewrite Hts|].
    split; [done|]. split; [done|]. rewrite Htr. cbn. by rewrite <- app_assoc.
Qed.

(** When a named voice does not load, the loop stops at the first such
    voice with a [ValueError] that names it. *)
Lemma load_loop_first_failure pre :
  forall v post t_voices v_name w,
    Forall (loads w) pre -> ~ loads w v ->
    exists w' msg,
      load_loop (pre ++ v :: post) t_voices v_name w =
        (w', Raise (mk_exc ValueError ("Failed to load voice " +:+ v +:+ ": " +:+ msg))) /\
      fs w' = fs w /\ voice_cache w' = voice_cache w /\
      next_id w' = next_id w + length pre /\
      trace w' =
        (trace w ++ map (fun v => EvTorchLoad (voice_file v)) (pre ++ [v]))%list.
Proof.
  induction pre as [|p pre IH]; intros v post t_voices v_name w Hpre Hv.
  - cbn [app load_loop]. rewrite bind_eq, try_except_eq, bind_eq.
    fold (voice_file v). unfold torch_load.
    destruct (fs w !! voice_file v) as [[d|]|] eqn:Hfs.
    + destruct Hv. by exists d.
    + eexists _, _. split; [done|]. cbn. by rewrite Nat.add_0_r.
    + eexists _, _. split; [done|]. cbn. by rewrite Nat.add_0_r.
  - apply Forall_cons in Hpre as [[d Hd] Hpre].
    cbn [app load_loop]. rewrite bind_eq, try_except_eq, bind_eq.
    fold (voice_file p). rewrite (torch_load_found _ _ _ Hd).
    set (w1 := mk_world _ _ _ _). cbn [ret].
    destruct (IH v post (t_voices ++ [mk_tensor (next_id w) d])%list
                (v_name ++ [p])%list w1 Hpre Hv)
      as (w' & msg & Hl & Hfs & Hc & Hid & Htr).
    rewrite Hl. exists w', msg. split; [done|]. split; [done|]. split; [done|].
    split; [rewrite Hid; cbn; lia|].
    rewrite Htr. cbn. by rewrite <- app_assoc.
Qed.

Lemma loads_dec w v : loads w v \/ ~ loads w v.
Proof.
  unfold loads. destruct (fs w !! voice_file v) as [[d|]|].
  - left. by exists d.
  - right. by intros [d Hd].
  - right. by intros [d Hd].
Qed.

Lemma first_failure w voices :
  Forall (loads w) voices \/
  exists pre v post, voices = (pre ++ v :: post)%list /\
                     Forall (loads w) pre /\ ~ loads w v.
Proof.
  induction voices as [|v vs IH]; [by left|].
  destruct (loads_dec w v) as [Hv|Hv].
  - destruct IH as [IH|(pre & v' & post & -> & Hpre & Hv')].
    + left. by constructor.
    + right. exists (v :: pre), v', post. split; [done|]. split; [|done].
      by constructor.
  - right. exists [], v, vs. by split.
Qed.

Lemma no_save_in_loads l :
  filter is_save (map (fun v => EvTorchLoad (voice_file v)) l) = [].
Proof. induction l as [|x l IH]; [done|]. exact IH. Qed.

(** C10. When loading one of the named voices raises, [combine_voices]
    raises a [ValueError] that names the first such voice; it has not
    attempted any [torch.save], the store is as it was, and the only
    objects made are the voices loaded before the failure (no combined
    embedding).  Conversely, a call in which [torch.save] was attempted is
    a call in which every named voice had loaded. *)
Theorem combine_voices_saves_only_after_loading :
  (forall pre v post w,
      2 <= length (pre ++ v :: post) ->
      Forall (loads w) pre -> ~ loads w v ->
      exists w' msg,
        combine_voices (pre ++ v :: post) w =
          (w', Raise (mk_exc ValueError
                        ("Failed to load voice " +:+ v +:+ ": " +:+ msg))) /\
        fs w' = fs w /\
        next_id w' = next_id w + length pre /\
        filter is_save (events_since w w') = []) /\
  (forall voices w,
      filter is_save (events_since w (fst (combine_voices voices w))) <> [] ->
      Forall (loads w) voices).
Proof.
  assert (Hfail : forall pre v post w,
    2 <= length (pre ++ v :: post) ->
    Forall (loads w) pre -> ~ loads w v ->
    exists w' msg,
      combine_voices (pre ++ v :: post) w =
        (w', Raise (mk_exc ValueError
                      ("Failed to load voice " +:+ v +:+ ": " +:+ msg))) /\
      fs w' = fs w /\
      next_id w' = next_id w + length pre /\
      filter is_save (events_since w w') = []).
  { intros pre v post w Hlen Hpre Hv. unfold combine_voices.
    destruct (decide _) as [Hlt|_]; [lia|]. rewrite bind_eq.
    destruct (load_loop_first_failure pre v post [] [] w Hpre Hv)
      as (w' & msg & -> & Hfs & _ & Hid & Htr).
    exists w', msg. split; [done|]. split; [done|]. split; [done|].
    rewrite (events_since_app _ _ _ Htr). apply no_save_in_loads. }
  split; [exact Hfail|].
  intros voices w Hsave.
  destruct (first_failure w voices) as [Hall|(pre & v & post & -> & Hpre & Hv)];
    [done|].
  exfalso. apply Hsave.
  destruct (decide (length (pre ++ v :: post) < 2)) as [Hlt|Hge].
  - unfold combine_voices. destruct (decide _); [|done].
    cbn. unfold events_since. by rewrite drop_all.
  - destruct (Hfail pre v post w ltac:(lia) Hpre Hv) as (w' & msg & -> & _ & _ & Hns).
    exact Hns.
Qed.





Lemma torch_stack_same_size ts dim w :
  ts <> [] -> Forall (fun d => length d = dim) (map t_data ts) ->
  torch_stack ts w = (w, Ok (map t_data ts)).
Proof.
  intros Hne Hall. destruct ts as [|t ts]; [done|]. cbn [torch_stack].
  apply Forall_cons in Hall as [Ht Hall].
  replace (forallb _ ts) with true; [done|]. symmetry.
  apply forallb_forall. intros t' Hin. apply Nat.eqb_eq. rewrite Ht.
  rewrite Forall_forall in Hall. apply Hall, list_elem_of_fmap.
  exists t'. split; [done|]. by apply list_elem_of_In.
Qed.

End CombineVoices.


Lemma combine_voices_saves_only_after_loading_witness :
  exists w' msg,
    combine_voices (C:=demo) (["a"] ++ "zz" :: ["b"]) demo_world =
      (w', Raise (mk_exc ValueError ("Failed to load voice zz: " +:+ msg))) /\
    fs w' = fs demo_world /\
    next_id w' = 1 /\
    filter is_save (events_since demo_world w') = [].
Proof.
  apply (proj1 (combine_voices_saves_only_after_loading (C:=demo)) ["a"] "zz" ["b"]
           demo_world).
  - cbn. lia.
  - constructor; [|constructor]. by eexists.
  - intros [d Hd]. vm_compute in Hd. discriminate Hd.
Defined.

(** ** What the happy path leaves out *)

Section Remarks.
Context `{C : Collaborators}.

(** A generator that is closed before its first resumption runs none of its
    body: no validation, no synthesis, and no [cleanup()]. *)
Remark unstarted_generator_runs_nothing text voice speed fmt w e :
  generate_audio_stream text voice speed fmt w (RThrow e) = Raised w e.
Proof. reflexivity. Qed.

(** When the store refuses the write, [combine_voices] raises a
    [RuntimeError] that names the path, after calling [cleanup()]; the store
    is unchanged. *)
Remark combine_voices_save_refused voices embs dim w e :
  2 <= length voices ->
  Forall2 (fun v d => fs w !! voice_file v = Some (TensorFile d)) voices embs ->
  Forall (fun d => length d = dim) embs ->
  torch_save_error (voice_file (String.concat "_" voices)) = Some e ->
  isinstance_Exception e = true ->
  exists w',
    combine_voices voices w =
      (w', Raise (mk_exc RuntimeError
                    ("Failed to save combined voice to " +:+
                     voice_file (String.concat "_" voices) +:+ ": " +:+ str e))) /\
    fs w' = fs w /\
    count_cleanup (events_since w w') = 1.
Proof.
  intros Hlen Hload Hdim Hsave He. unfold combine_voices.
  destruct (decide _) as [Hlt|_]; [lia|]. rewrite bind_eq.
  destruct (load_loop_all voices embs [] [] w Hload)
    as (w1 & ts & -> & Hts & Hfs & Hc & Htr).
  cbn [app]. rewrite try_except_eq, bind_eq.
  assert (Hn : length embs = length voices) by (symmetry; by eapply Forall2_length).
  assert (Hne : ts <> []).
  { intros ->. cbn in Hts. subst embs. cbn in Hn. lia. }
  rewrite (torch_stack_same_size ts dim w1 Hne) by (by rewrite Hts).
  rewrite Hts, bind_eq. unfold torch_mean_dim0.
  rewrite bind_eq, try_finally_eq, try_except_eq. unfold torch_save.
  fold (voice_file (String.concat "_" voices)). rewrite Hsave, He.
  eexists. split; [reflexivity|]. cbn [fs set_fs set_trace set_next_id].
  split; [done|].
  erewrite events_since_app; [|cbn; rewrite Htr, <- !app_assoc; reflexivity].
  rewrite count_cleanup_app. unfold count_cleanup at 1.
  replace (filter is_cleanup (map (fun v => EvTorchLoad (voice_file v)) voices))
    with (@nil event); [done|].
  clear. induction voices as [|v vs IH]; [done|]. exact IH.
Qed.

(** When the embeddings differ in size, [torch.stack] raises and
    [combine_voices] lets that [RuntimeError] through; nothing is saved. *)
Remark combine_voices_sizes_differ v1 v2 d1 d2 w :
  fs w !! voice_file v1 = Some (TensorFile d1) ->
  fs w !! voice_file v2 = Some (TensorFile d2) ->
  length d1 <> length d2 ->
  exists w',
    combine_voices [v1; v2] w =
      (w', Raise (mk_exc RuntimeError "stack expects each tensor to be equal size")) /\
    fs w' = fs w /\
    filter is_save (events_since w w') = [].
Proof.
  intros H1 H2 Hne. unfold combine_voices.
  destruct (decide _) as [Hlt|_]; [cbn in Hlt; lia|]. rewrite bind_eq.
  destruct (load_loop_all [v1; v2] [d1; d2] [] [] w) as (w1 & ts & -> & Hts & Hfs & Hc & Htr).
  { by repeat constructor. }
  cbn [app]. rewrite try_except_eq, bind_eq.
  destruct ts as [|t1 [|t2 [|]]]; try done. injection Hts as Ht1 Ht2.
  cbn [torch_stack forallb]. rewrite Ht1, Ht2.
  replace (Nat.eqb (length d2) (length d1)) with false
    by (symmetry; apply Nat.eqb_neq; congruence).
  cbn. eexists. split; [reflexivity|]. split; [done|].
  rewrite (events_since_app _ _ _ Htr). apply no_save_in_loads.
Qed.
End Remarks.

(** * The rest of the service *)

(** ** The instance is made once *)

Lemma construct_all_existing inst dirs cls :
  _instance cls = Some inst ->
  construct_all dirs cls = (cls, repeat inst (length dirs)).
Proof.
  intros Hinst. induction dirs as [|d dirs IH]; [done|].
  cbn [construct_all length repeat]. unfold __new__ at 1. rewrite Hinst.
  by rewrite IH.
Qed.

(** X1. However often and with whatever arguments [TTSService] is
    constructed, every construction returns the instance made by the first
    one, whose [output_dir] is the first call's argument: the arguments of
    later calls are ignored. *)
Theorem service_is_constructed_once dir dirs cls :
  _instance cls = None ->
  let first := mk_service (next_service_id cls) dir in
  construct_all (dir :: dirs) cls =
    (mk_class (Some first) (S (next_service_id cls)),
     repeat first (S (length dirs))).
Proof.
  intros Hnone. cbn [construct_all]. unfold __new__ at 1. rewrite Hnone.
  by rewrite (construct_all_existing (mk_service (next_service_id cls) dir)).
Qed.

Lemma service_is_constructed_once_witness :
  construct_all [None; Some "out"; Some "elsewhere"] (mk_class None 0) =
    (mk_class (Some (mk_service 0 None)) 1, repeat (mk_service 0 None) 3).
Proof.
  exact (service_is_constructed_once None [Some "out"; Some "elsewhere"]
           (mk_class None 0) eq_refl).
Defined.

(** ** Frames: what a computation leaves alone *)

Section Frames.
Variables (A B R : frame).
Hypothesis seq : forall w1 w2 w3, A w1 w2 -> B w2 w3 -> R w1 w3.
Hypothesis weaken : forall w1 w2, A w1 w2 -> R w1 w2.

Lemma within_bind_seq {X Y} (m : M X) (k : X -> M Y) :
  within A m -> (forall x, within B (k x)) -> within R (bind m k).
Proof.
  intros Hm Hk w. rewrite bind_eq. specialize (Hm w).
  destruct (m w) as [w1 [x|e]]; cbn in *; [|by apply weaken].
  eapply seq; [exact Hm|]. apply Hk.
Qed.

Lemma within_try_except_seq {X} (body : M X) handler :
  within A body -> (forall e, within B (handler e)) ->
  within R (try_except body handler).
Proof.
  intros Hb Hh w. rewrite try_except_eq. specialize (Hb w).
  destruct (body w) as [w1 [x|e]]; cbn in *; [by apply weaken|].
  destruct (isinstance_Exception e); cbn; [|by apply weaken].
  eapply seq; [exact Hb|]. apply Hh.
Qed.

Lemma within_try_finally_seq {X} (body : M X) fin :
  within A body -> within B fin -> within R (try_finally body fin).
Proof.
  intros Hb Hf w. rewrite try_finally_eq. specialize (Hb w).
  destruct (body w) as [w1 r]. specialize (Hf w1). cbn in *.
  destruct (fin w1) as [w2 [[]|e]]; cbn in *; by eapply seq.
Qed.
End Frames.


Lemma untouched_refl w : untouched w w.
Proof. by repeat split. Qed.

Lemma untouched_trans w1 w2 w3 : untouched w1 w2 -> untouched w2 w3 -> untouched w1 w3.
Proof. intros (? & ? & ?) (? & ? & ?). repeat split; congruence. Qed.

Lemma untouched_set_next_id n w : untouched w (set_next_id n w).
Proof. by repeat split. Qed.

Lemma untouched_emit ev : is_load ev = false -> within untouched (emit ev).
Proof.
  intros Hev w. repeat split. cbn. rewrite filter_app. cbn. rewrite Hev.
  by rewrite app_nil_r.
Qed.

Lemma untouched_ret {X} (x : X) : within untouched (ret x).
Proof. intros w. apply untouched_refl. Qed.

Lemma untouched_raise {X} e : within untouched (@raise X e).
Proof. intros w. apply untouched_refl. Qed.

Lemma untouched_lift {X} (r : result X) : within untouched (lift r).
Proof. intros w. apply untouched_refl. Qed.

Lemma untouched_bind {X Y} (m : M X) (k : X -> M Y) :
  within untouched m -> (forall x, within untouched (k x)) -> within untouched (bind m k).
Proof. apply within_bind_seq; eauto using untouched_trans. Qed.

Lemma untouched_try_except {X} (body : M X) handler :
  within untouched body -> (forall e, within untouched (handler e)) ->
  within untouched (try_except body handler).
Proof. apply within_try_except_seq; eauto using untouched_trans. Qed.

Lemma untouched_try_finally {X} (body : M X) fin :
  within untouched body -> within untouched fin ->
  within untouched (try_finally body fin).
Proof. apply within_try_finally_seq; eauto using untouched_trans. Qed.

Ltac untouched_step :=
  first
    [ apply untouched_ret
    | apply untouched_raise
    | apply untouched_lift
    | apply untouched_emit; reflexivity
    | apply untouched_bind
    | apply untouched_try_except
    | apply untouched_try_finally
    | match goal with
      | |- within _ (match ?x with _ => _ end) => destruct x
      | |- within _ (if ?x then _ else _) => destruct x
      | |- forall _, _ => intro
      end ].

Section Untouched.
Context `{C : Collaborators}.

Lemma untouched_call_process_text chunk voice :
  within untouched (call_process_text chunk voice).
Proof.
  unfold call_process_text, index0. repeat untouched_step.
Qed.

Lemma untouched_call_generate toks voicepack speed :
  within untouched (call_generate_from_tokens toks voicepack speed).
Proof. unfold call_generate_from_tokens. repeat untouched_step. Qed.

Lemma untouched_logger_error msg : within untouched (logger_error msg).
Proof. by apply untouched_emit. Qed.

Lemma untouched_cleanup verbose : within untouched (cleanup verbose).
Proof. by apply untouched_emit. Qed.

Lemma untouched_get_voice_path voice : within untouched (_get_voice_path voice).
Proof.
  intros w. unfold _get_voice_path, os_path_exists, bind, ret. cbn.
  apply untouched_refl.
Qed.

Lemma untouched_tokenize_loop voice chunks :
  forall acc, within untouched (tokenize_loop voice chunks acc).
Proof.
  induction chunks as [|c cs IH]; intros acc; cbn [tokenize_loop];
    repeat first [apply IH | apply untouched_call_process_text
                 | apply untouched_logger_error | untouched_step].
Qed.

Lemma untouched_synthesize_loop voicepack speed chunks_data :
  forall acc, within untouched (synthesize_loop voicepack speed chunks_data acc).
Proof.
  induction chunks_data as [|[c toks] cs IH]; intros acc; cbn [synthesize_loop];
    repeat first [apply IH | apply untouched_call_generate
                 | apply untouched_logger_error | untouched_step].
Qed.

Lemma untouched_np_concatenate arrays : within untouched (np_concatenate arrays).
Proof. intros w. apply untouched_set_next_id. Qed.

Lemma untouched_stitched_audio text voice voicepack speed :
  within untouched (stitched_audio text voice voicepack speed).
Proof.
  unfold stitched_audio.
  repeat first [apply untouched_tokenize_loop | apply untouched_synthesize_loop
               | apply untouched_np_concatenate | untouched_step].
Qed.

Lemma untouched_single_chunk_audio text voice voicepack speed :
  within untouched (single_chunk_audio text voice voicepack speed).
Proof.
  unfold single_chunk_audio, log_gpu_memory.
  repeat first [apply untouched_call_process_text | apply untouched_call_generate
               | apply untouched_cleanup | untouched_step].
Qed.
End Untouched.

(** ** The cache stays in order *)

Section CacheOrder.
Context `{C : Collaborators}.

Lemma cache_get_Some_in {V} key (v : V) c :
  cache_get key c = Some v -> key ∈ map fst c.
Proof.
  induction c as [|[k v'] c IH]; [done|]. cbn.
  destruct (decide (k = key)) as [->|_]; [by left|]. intros H. right. by apply IH.
Qed.

Lemma cache_get_None_notin {V} key (c : list (string * V)) :
  cache_get key c = None -> key ∉ map fst c.
Proof.
  induction c as [|[k v'] c IH]; [intros _; apply not_elem_of_nil|]. cbn.
  destruct (decide (k = key)) as [->|Hne]; [done|]. intros H Hin.
  apply elem_of_cons in Hin as [->|Hin]; [done|]. by apply IH.
Qed.

Lemma cache_remove_subset {V} key x (c : list (string * V)) :
  x ∈ map fst (cache_remove key c) -> x ∈ map fst c.
Proof.
  induction c as [|[k v] c IH]; [done|]. cbn.
  destruct (decide (k = key)) as [->|_]; [by right|]. cbn. intros Hin.
  apply elem_of_cons in Hin as [->|Hin]; [by left|]. right. by apply IH.
Qed.

Lemma cache_hit_in_order {V} key (v : V) c :
  cache_get key c = Some v -> NoDup (map fst c) ->
  NoDup (key :: map fst (cache_remove key c)) /\
  S (length (cache_remove key c)) = length c.
Proof.
  induction c as [|[k v'] c IH]; [done|]. cbn.
  intros Hget Hnd. apply NoDup_cons in Hnd as [Hk Hnd].
  destruct (decide (k = key)) as [->|Hne].
  - split; [by apply NoDup_cons|done].
  - destruct (IH Hget Hnd) as [Hnd' Hlen]. split; [|cbn; by rewrite Hlen].
    apply NoDup_cons in Hnd' as [Hkey Hnd']. cbn.
    apply NoDup_cons. split.
    + intros Hin. apply elem_of_cons in Hin as [->|Hin]; done.
    + apply NoDup_cons. split; [|done]. intros Hin. apply Hk.
      by eapply cache_remove_subset.
Qed.

Lemma cache_store_in_order {V} cap key (v : V) c :
  0 < cap -> length c <= cap -> NoDup (map fst c) -> key ∉ map fst c ->
  length (cache_store cap key v c) <= cap /\
  NoDup (map fst (cache_store cap key v c)).
Proof.
  intros Hcap Hlen Hnd Hkey.
  pose proof (cache_store_keys cap key v c Hcap Hlen) as Hkeys. split.
  - rewrite <- (length_map fst), Hkeys, length_take. lia.
  - rewrite Hkeys. eapply sublist_NoDup; [|apply sublist_take]. by apply NoDup_cons.
Qed.

(** X3. Whatever a load does (a hit, a miss that fills or evicts, a load
    that fails), it leaves the cache with at most [n_cache_voices] entries
    and no path twice. *)
Theorem load_voice_keeps_cache_in_order path w :
  cache_ok w -> cache_ok (fst (_load_voice path w)).
Proof.
  intros [Hlen Hnd]. unfold _load_voice, cache_ok in *.
  destruct n_cache_voices as [|m] eqn:Hcap.
  - unfold torch_load. by destruct (fs w !! path) as [[d|]|].
  - destruct (cache_get path (voice_cache w)) as [t|] eqn:Hget.
    + destruct (cache_hit_in_order _ _ _ Hget Hnd) as [Hnd' Hl].
      cbn. unfold cache_hit. cbn. split; [lia|done].
    + unfold torch_load. destruct (fs w !! path) as [[d|]|]; [|done..].
      cbn [fst voice_cache set_voice_cache set_trace set_next_id].
      apply cache_store_in_order; [lia|done|done|].
      by apply cache_get_None_notin.
Qed.

(** X2. A load that fails is not memoized: the cache is left as it was,
    and the next load of the same path reads storage again. *)
Theorem failed_load_is_not_cached path w w' e :
  _load_voice path w = (w', Raise e) ->
  voice_cache w' = voice_cache w /\
  fs w' = fs w /\
  events_since w w' = [EvTorchLoad path] /\
  exists w'',
    _load_voice path w' = (w'', Raise e) /\
    events_since w' w'' = [EvTorchLoad path].
Proof.
  intros Hload.
  assert (Hw : voice_cache w' = voice_cache w /\ fs w' = fs w /\
               trace w' = (trace w ++ [EvTorchLoad path])%list).
  { revert Hload. unfold _load_voice.
    destruct n_cache_voices as [|m].
    - unfold torch_load. destruct (fs w !! path) as [[d|]|]; by intros [= <- <-].
    - destruct (cache_get path (voice_cache w)) as [t|]; [done|].
      unfold torch_load. destruct (fs w !! path) as [[d|]|]; by intros [= <- <-]. }
  destruct Hw as (Hc & Hfs & Htr).
  split; [done|]. split; [done|]. split; [by apply events_since_app|].
  revert Hload. unfold _load_voice. rewrite Hc.
  destruct n_cache_voices as [|m].
  - unfold torch_load. rewrite Hfs.
    destruct (fs w !! path) as [[d|]|]; intros [= Hw' <-];
      eexists; (split; [reflexivity|]); by apply events_since_app.
  - destruct (cache_get path (voice_cache w)) as [t|]; [done|].
    unfold torch_load. rewrite Hfs.
    destruct (fs w !! path) as [[d|]|]; intros [= Hw' <-];
      eexists; (split; [reflexivity|]); by apply events_since_app.
Qed.

End CacheOrder.

Lemma failed_load_is_not_cached_witness :
  exists w' e,
    _load_voice (C:=demo) "voices/missing.pt" demo_world = (w', Raise e) /\
    voice_cache w' = [] /\
    events_since demo_world w' = [EvTorchLoad "voices/missing.pt"].
Proof.
  eexists _, _. split; [reflexivity|].
  destruct (failed_load_is_not_cached (C:=demo) "voices/missing.pt" demo_world _ _ eq_refl)
    as (H1 & _ & H2 & _).
  split; [exact H1|exact H2].
Defined.

Lemma load_voice_keeps_cache_in_order_witness :
  cache_ok (C:=demo) (fst (_load_voice (C:=demo) "voices/c.pt"
     (mk_world demo_fs
        [("voices/b.pt", mk_tensor 1 [4; 4]%Q); ("voices/a.pt", mk_tensor 0 [2; 2]%Q)]
        2 []))).
Proof.
  apply (load_voice_keeps_cache_in_order (C:=demo)). split; [cbn; lia|].
  apply (bool_decide_unpack _). vm_compute. reflexivity.
Defined.


(** ** What a synthesis request does to the world *)

Section RequestFrame.
Context `{C : Collaborators}.

Lemma request_of_untouched w w' : untouched w w' -> request_frame w w'.
Proof.
  intros (Hfs & Hc & Hl). split; [done|]. split; [rewrite Hl; lia|].
  unfold cache_ok. by rewrite Hc.
Qed.

Lemma untouched_then_request w1 w2 w3 :
  untouched w1 w2 -> request_frame w2 w3 -> request_frame w1 w3.
Proof.
  intros (Hfs & Hc & Hl) (Hfs' & Hl' & Hok). split; [congruence|].
  split; [by rewrite <- Hl|]. unfold cache_ok in *. by rewrite <- Hc.
Qed.

Lemma request_then_untouched w1 w2 w3 :
  request_frame w1 w2 -> untouched w2 w3 -> request_frame w1 w3.
Proof.
  intros (Hfs & Hl & Hok) (Hfs' & Hc & Hl'). split; [congruence|].
  split; [by rewrite Hl'|]. unfold cache_ok in *. rewrite Hc. exact Hok.
Qed.

Lemma loads_after_load (t : list event) path :
  length (filter is_load (t ++ [EvTorchLoad path])%list) = S (length (filter is_load t)).
Proof.
  rewrite filter_app, length_app, filter_cons_True by done.
  rewrite filter_nil. cbn. lia.
Qed.

Lemma load_voice_within_request path : within request_frame (_load_voice path).
Proof.
  intros w. unfold request_frame, cache_ok, _load_voice.
  destruct n_cache_voices as [|m] eqn:Hcap.
  - unfold torch_load.
    destruct (fs w !! path) as [[d|]|];
      cbn [fst fs voice_cache trace set_trace set_next_id];
      rewrite loads_after_load; (split; [done|split; [lia|done]]).
  - destruct (cache_get path (voice_cache w)) as [t|] eqn:Hget.
    + cbn [fst fs voice_cache trace set_voice_cache].
      split; [done|]. split; [lia|]. intros [Hlen Hnd].
      destruct (cache_hit_in_order _ _ _ Hget Hnd) as [Hnd' Hl].
      unfold cache_hit. cbn [length map fst]. split; [lia|done].
    + unfold torch_load. destruct (fs w !! path) as [[d|]|];
        cbn [fst fs voice_cache trace set_trace set_next_id set_voice_cache];
        rewrite loads_after_load; (split; [done|split; [lia|]]); [|done..].
      intros [Hlen Hnd]. apply cache_store_in_order; [lia|done|done|].
      by apply cache_get_None_notin.
Qed.

Lemma generate_audio_internal_within_request text voice speed stitch :
  within request_frame (_generate_audio_internal text voice speed stitch).
Proof.
  unfold _generate_audio_internal.
  apply (within_try_except_seq request_frame untouched request_frame
           request_then_untouched (fun _ _ H => H)).
  2:{ intros e. repeat first [apply untouched_logger_error | untouched_step]. }
  apply (within_bind_seq untouched request_frame request_frame
           untouched_then_request request_of_untouched);
    [repeat untouched_step|]. intros _. cbn zeta.
  apply (within_bind_seq untouched request_frame request_frame
           untouched_then_request request_of_untouched);
    [repeat untouched_step|]. intros _.
  apply (within_bind_seq untouched request_frame request_frame
           untouched_then_request request_of_untouched);
    [apply untouched_get_voice_path|].
  intros [path|]; [|intros w; apply request_of_untouched, untouched_refl].
  apply (within_bind_seq request_frame untouched request_frame
           request_then_untouched (fun _ _ H => H));
    [apply load_voice_within_request|].
  intros voicepack.
  repeat first [apply untouched_stitched_audio | apply untouched_single_chunk_audio
               | untouched_step].
Qed.

Lemma process_chunk_untouched voice voicepack speed fmt c is_first is_last norm w :
  match process_chunk voice voicepack speed fmt c is_first is_last norm w with
  | Emitted w' _ _ | Skipped w' _ | Aborted w' _ => untouched w w'
  end.
Proof.
  unfold process_chunk, chunk_except.
  assert (H1 : within untouched
            (let* '(_, toks) := call_process_text c voice in
             call_generate_from_tokens toks voicepack speed)).
  { repeat first [apply untouched_call_process_text | apply untouched_call_generate
                 | untouched_step]. }
  specialize (H1 w). destruct (bind _ _ w) as [w1 r]. cbn [fst] in H1.
  assert (Hlog : forall msg w0, untouched w w0 -> untouched w (exec (logger_error msg) w0)).
  { intros msg w0 H. eapply untouched_trans; [exact H|]. apply untouched_logger_error. }
  assert (Hconv : untouched w (exec (emit (EvConvert is_first is_last)) w1)).
  { eapply untouched_trans; [exact H1|]. by apply untouched_emit. }
  destruct r as [[a|]|e].
  - destruct (convert_audio a 24000 fmt is_first norm is_last) as [norm' [b|e]]; [done|].
    destruct (isinstance_Exception e); auto.
  - auto.
  - destruct (isinstance_Exception e); auto.
Qed.

Lemma next_turn_untouched voice voicepack speed fmt gen :
  forall is_first norm w w',
    ends_in (next_turn voice voicepack speed fmt gen is_first norm w) w' \/
    suspends_in (next_turn voice voicepack speed fmt gen is_first norm w) w' ->
    untouched w w'.
Proof.
  induction gen as [|c gen IH]; intros is_first norm w w'; unfold next_turn.
  - intros [H|H]; inversion H; subst. apply untouched_refl.
  - rewrite stream_loop_eq.
    pose proof (process_chunk_untouched voice voicepack speed fmt c is_first
                  (bool_decide (head gen = None)) norm w) as Hq.
    destruct (process_chunk voice voicepack speed fmt c is_first
                (bool_decide (head gen = None)) norm w) as [w2 n' y|w2 n'|w2 e].
    + assert (Hafter : forall r,
        ends_in (after_yield voice voicepack speed fmt c gen is_first n' w2 r) w' \/
        suspends_in (after_yield voice voicepack speed fmt c gen is_first n' w2 r) w' ->
        untouched w w').
      { intros r. unfold after_yield. destruct r as [|e].
        - intros H. eapply untouched_trans; [exact Hq|]. by eapply IH.
        - destruct (isinstance_Exception e).
          + intros H. eapply untouched_trans; [exact Hq|].
            eapply untouched_trans; [apply untouched_logger_error|]. by eapply IH.
          + intros [H|H]; inversion H; by subst. }
      intros [H|H]; inversion H; subst; try done; eapply Hafter; eauto.
    + intros H. eapply untouched_trans; [exact Hq|]. by eapply IH.
    + intros [H|H]; inversion H; by subst.
Qed.

Lemma handlers_end_world {Y} (s : step Y) w' :
  ends_in (stream_handlers s) w' ->
  exists w0, ends_in s w0 /\ untouched w0 w'.
Proof.
  induction s as [w y k IH|w|w e]; cbn [stream_handlers]; intros H; inversion H; subst.
  - match goal with
    | Hk : ends_in (stream_handlers (k _)) _ |- _ =>
        destruct (IH _ Hk) as (w0 & ? & ?)
    end.
    exists w0. split; [by econstructor|done].
  - eexists; split; [constructor|]. apply untouched_cleanup.
  - eexists; split; [constructor|]. destruct (isinstance_Exception e).
    + eapply untouched_trans; [apply untouched_logger_error|apply untouched_cleanup].
    + apply untouched_cleanup.
Qed.

Lemma stream_prologue_within_request text voice :
  within request_frame (stream_prologue text voice).
Proof.
  unfold stream_prologue.
  apply (within_bind_seq untouched request_frame request_frame
           untouched_then_request request_of_untouched);
    [repeat untouched_step|]. intros _. cbn zeta.
  apply (within_bind_seq untouched request_frame request_frame
           untouched_then_request request_of_untouched);
    [repeat untouched_step|]. intros _.
  apply (within_bind_seq untouched request_frame request_frame
           untouched_then_request request_of_untouched);
    [apply untouched_get_voice_path|].
  intros [path|]; [|intros w; apply request_of_untouched, untouched_refl].
  apply (within_bind_seq request_frame untouched request_frame
           request_then_untouched (fun _ _ H => H));
    [apply load_voice_within_request|].
  intros voicepack. untouched_step.
Qed.

Lemma stream_body_within_request text voice speed fmt w w' :
  ends_in (stream_body text voice speed fmt w) w' \/
  suspends_in (stream_body text voice speed fmt w) w' ->
  request_frame w w'.
Proof.
  unfold stream_body. pose proof (stream_prologue_within_request text voice w) as Hp.
  destruct (stream_prologue text voice w) as [w1 [[t vp]|e]]; cbn [fst] in Hp.
  - intros H. eapply request_then_untouched; [exact Hp|].
    apply (next_turn_untouched voice vp speed fmt (split_text t) true AudioNormalizer).
    unfold next_turn. by destruct (split_text t).
  - intros [H|H]; inversion H; by subst.
Qed.

(** X4. A synthesis request, whichever path it takes and however it ends,
    writes nothing to the voice store, reads it at most once (the load of the
    requested voice, when it is not cached), and leaves the cache within its
    bound and without duplicates.  For the generator this holds of every
    world it can be suspended or end in, whatever its consumer does. *)
Theorem synthesis_only_reads_the_store text voice speed stitch fmt w :
  request_frame w (fst (_generate_audio text voice speed stitch w)) /\
  (forall w',
      ends_in (generate_audio_stream text voice speed fmt w RNext) w' \/
      suspends_in (generate_audio_stream text voice speed fmt w RNext) w' ->
      request_frame w w').
Proof.
  split.
  - unfold _generate_audio.
    apply (within_try_finally_seq request_frame untouched request_frame
             request_then_untouched); [|apply untouched_cleanup].
    apply (within_bind_seq request_frame untouched request_frame
             request_then_untouched (fun _ _ H => H));
      [apply generate_audio_internal_within_request|].
    intros [a t]. untouched_step.
  - intros w' [H|H]; cbn [generate_audio_stream] in H.
    + apply handlers_end_world in H as (w0 & H0 & Hu).
      eapply request_then_untouched; [|exact Hu].
      apply (stream_body_within_request text voice speed fmt). auto.
    + apply handlers_suspend in H.
      apply (stream_body_within_request text voice speed fmt). auto.
Qed.
End RequestFrame.

Lemma synthesis_only_reads_the_store_witness :
  exists w',
    ends_in (generate_audio_stream (C:=demo) "good.fine" "af" tt "wav" demo_world RNext) w' /\
    request_frame (C:=demo) demo_world w'.
Proof.
  eexists. split; [apply ends_in_exhaust|].
  apply (proj2 (synthesis_only_reads_the_store (C:=demo) "good.fine" "af" tt true "wav"
                  demo_world)).
  left. apply ends_in_exhaust.
Defined.

(** ** The unstitched branch *)

Section Unstitched.
Context `{C : Collaborators}.

Lemma tokenized_chunks_app t1 t2 :
  tokenized_chunks (t1 ++ t2) = (tokenized_chunks t1 ++ tokenized_chunks t2)%list.
Proof. unfold tokenized_chunks. apply omap_app. Qed.

Lemma single_chunk_audio_eq text voice voicepack speed w :
  single_chunk_audio text voice voicepack speed w =
  match voice with
  | EmptyString => (w, Raise (mk_exc IndexError "string index out of range"))
  | String lang _ =>
      let w1 := exec (emit (EvTokenize text)) w in
      match process_text text lang with
      | Raise e => (w1, Raise e)
      | Ok (_, toks) =>
          let w2 := exec (emit EvSynthesize)
                      (exec (log_gpu_memory "After text processing, pre-generate") w1) in
          match generate_from_tokens toks voicepack speed with
          | Raise e => (w2, Raise e)
          | Ok a =>
              (exec (cleanup true) (exec (log_gpu_memory "After audio generation") w2),
               Ok a)
          end
      end
  end.
Proof.
  unfold single_chunk_audio. rewrite bind_eq, call_process_text_eq.
  destruct voice as [|lang rest]; [done|].
  destruct (process_text text lang) as [[ph toks]|e]; [|done].
  rewrite bind_eq. unfold log_gpu_memory at 1. cbn [emit].
  rewrite bind_eq, call_generate_from_tokens_eq.
  by destruct (generate_from_tokens toks voicepack speed) as [a|e].
Qed.

(** X5. With [stitch_long_output=False] the normalised text goes to the
    model whole, as one chunk, and nothing is contained: whatever
    [process_text] or [generate_from_tokens] raises reaches the caller as it
    is, and when the model gives no audio the call returns [None] for the
    audio instead of raising. *)
Theorem unstitched_call_contains_nothing text voice speed w w1 voicepack :
  accepted text voice w w1 voicepack ->
  let outcome :=
    match tokenize_result voice (normalize_text text) with
    | Raise e => Raise e
    | Ok (_, toks) =>
        match generate_from_tokens toks voicepack speed with
        | Raise e => Raise e
        | Ok audio => Ok (audio, elapsed)
        end
    end in
  snd (_generate_audio_internal text voice speed false w) = outcome /\
  snd (_generate_audio text voice speed false w) = outcome /\
  tokenized_chunks (events_since w1 (fst (_generate_audio text voice speed false w))) =
    match voice with
    | EmptyString => []
    | String _ _ => [normalize_text text]
    end.
Proof.
  intros Hacc. cbn zeta.
  pose proof (generate_audio_internal_accepted _ _ speed false _ _ _ Hacc) as Hi.
  rewrite try_except_eq, bind_eq, single_chunk_audio_eq in Hi.
  unfold _generate_audio. rewrite try_finally_eq, bind_eq, Hi. clear Hi.
  unfold tokenize_result.
  destruct voice as [|lang rest].
  { cbn. split; [done|]. split; [done|].
    erewrite events_since_app by (rewrite <- !app_assoc; reflexivity). reflexivity. }
  destruct (process_text (normalize_text text) lang) as [[ph toks]|e].
  - destruct (generate_from_tokens toks voicepack speed) as [a|e].
    + cbn. split; [done|]. split; [done|].
      erewrite events_since_app by (rewrite <- !app_assoc; reflexivity). reflexivity.
    + cbn. destruct (isinstance_Exception e); cbn; (split; [done|]); (split; [done|]);
        erewrite events_since_app by (rewrite <- !app_assoc; reflexivity); reflexivity.
  - cbn. destruct (isinstance_Exception e); cbn; (split; [done|]); (split; [done|]);
      erewrite events_since_app by (rewrite <- !app_assoc; reflexivity); reflexivity.
Qed.
End Unstitched.

(** On the stubs, the chunk ["-"] gives no audio and ["bad"] does not
    tokenize. *)
Lemma unstitched_call_contains_nothing_witness :
  snd (_generate_audio (C:=demo) "-" "af" tt false demo_world) = Ok (None, tt) /\
  snd (_generate_audio (C:=demo) "bad" "af" tt false demo_world) =
    Raise (mk_exc ValueError "cannot phonemize").
Proof.
  split.
  - exact (proj1 (proj2 (unstitched_call_contains_nothing (C:=demo) "-" "af" tt
                           demo_world _ _ (demo_accepted "-" ltac:(discriminate))))).
  - exact (proj1 (proj2 (unstitched_call_contains_nothing (C:=demo) "bad" "af" tt
                           demo_world _ _ (demo_accepted "bad" ltac:(discriminate))))).
Defined.

(** ** The stream, read as a function of the chunks *)

Section PureReading.
Context `{C : Collaborators}.
Variables (voice : string) (voicepack : tensor) (speed : speed_t) (fmt : string).

Lemma no_audio_soft_fails chunk :
  interrupts voice voicepack speed chunk = false ->
  chunk_audio_of voice voicepack speed chunk = None ->
  soft_fails voice voicepack speed chunk = true.
Proof.
  unfold interrupts, chunk_audio_of, soft_fails, synthesize_fails.
  destruct (tokenize_result voice chunk) as [[ph toks]|e].
  - destruct (generate_from_tokens toks voicepack speed) as [[a|]|e]; try done.
    intros H _. by apply negb_false_iff in H.
  - intros H _. by apply negb_false_iff in H.
Qed.

Lemma encoder_total_raises_nothing :
  encoder_total -> encoder_raises_Exceptions.
Proof.
  intros Htot a rate f is_first norm is_last e.
  destruct (Htot a rate f is_first norm is_last) as (n' & b & ->). done.
Qed.

Lemma loop_pure_reading gen :
  encoder_raises_Exceptions ->
  forall c is_first norm w,
    (forall chunk, chunk ∈ c :: gen -> interrupts voice voicepack speed chunk = false) ->
    yields (exhaust_from (stream_loop voice voicepack speed fmt c gen is_first norm w)) =
    expected_stream voice voicepack speed fmt (c :: gen) is_first norm.
Proof.
  intros Henc. induction gen as [|c' gen IH]; intros c is_first norm w Hall;
    rewrite exhaust_from_loop; cbn [expected_stream];
    pose proof (Hall c (list_elem_of_here _ _)) as Hc.
  - rewrite !bool_decide_eq_true_2 by done.
    destruct (chunk_audio_of voice voicepack speed c) as [a|] eqn:Ha.
    + destruct (process_chunk_audio voice voicepack speed fmt c is_first true norm w a Ha)
        as [w2 ->].
      pose proof (Henc a 24000%Z fmt is_first norm true) as He.
      destruct (convert_audio a 24000 fmt is_first norm true) as [n' [b|e]]; [done|].
      unfold chunk_except. by rewrite (He e eq_refl).
    + destruct (process_chunk_soft_fails voice voicepack speed fmt c is_first true norm w
                  (no_audio_soft_fails c Hc Ha)) as [w' ->]. done.
  - rewrite !bool_decide_eq_false_2 by done.
    assert (Hrest : forall chunk, chunk ∈ c' :: gen ->
              interrupts voice voicepack speed chunk = false)
      by (intros; apply Hall; by right).
    destruct (chunk_audio_of voice voicepack speed c) as [a|] eqn:Ha.
    + destruct (process_chunk_audio voice voicepack speed fmt c is_first false norm w a Ha)
        as [w2 ->].
      pose proof (Henc a 24000%Z fmt is_first norm false) as He.
      destruct (convert_audio a 24000 fmt is_first norm false) as [n' [b|e]].
      * unfold next_turn. cbn [run_cons yields]. f_equal. by apply IH.
      * unfold chunk_except. rewrite (He e eq_refl). unfold next_turn. by apply IH.
    + destruct (process_chunk_soft_fails voice voicepack speed fmt c is_first false norm w
                  (no_audio_soft_fails c Hc Ha)) as [w' ->].
      unfold next_turn. by apply IH.
Qed.

(** Chunks that all soft-fail give nothing, and no exception. *)
Lemma loop_all_soft_fail gen :
  forall c is_first norm w,
    (forall chunk, chunk ∈ c :: gen -> soft_fails voice voicepack speed chunk = true) ->
    yields (exhaust_from (stream_loop voice voicepack speed fmt c gen is_first norm w)) = [] /\
    raised (exhaust_from (stream_loop voice voicepack speed fmt c gen is_first norm w)) = None.
Proof.
  induction gen as [|c' gen IH]; intros c is_first norm w Hall;
    rewrite exhaust_from_loop;
    pose proof (Hall c (list_elem_of_here _ _)) as Hc.
  - rewrite bool_decide_eq_true_2 by done.
    by destruct (process_chunk_soft_fails voice voicepack speed fmt c is_first true norm w Hc)
      as [w' ->].
  - rewrite bool_decide_eq_false_2 by done.
    destruct (process_chunk_soft_fails voice voicepack speed fmt c is_first false norm w Hc)
      as [w' ->].
    unfold next_turn. apply IH. intros; apply Hall; by right.
Qed.
End PureReading.

Section StreamReading.
Context `{C : Collaborators}.

(** X6. For a consumer that pulls to the end, what the stream yields is a
    function of the chunks alone ([expected_stream]): chunk by chunk, in
    order, the bytes the encoder returns for the chunk's buffer, with
    [is_first_chunk] set until an item has been yielded and [is_last_chunk]
    set on the chunk in the final position; a chunk without audio, or one the
    encoder fails on, contributes nothing.  Logging, the voice cache and the
    store have no influence, and no exception reaches the consumer. *)
Theorem stream_is_a_function_of_the_chunks text voice speed fmt w w1 voicepack :
  accepted text voice w w1 voicepack ->
  encoder_raises_Exceptions ->
  (forall chunk, chunk ∈ split_text (normalize_text text) ->
     interrupts voice voicepack speed chunk = false) ->
  let r := exhaust (generate_audio_stream text voice speed fmt w) in
  yields r =
    expected_stream voice voicepack speed fmt (split_text (normalize_text text))
      true AudioNormalizer /\
  raised r = None.
Proof.
  intros Hacc Henc Hall. cbn zeta.
  destruct (exhaust_accepted text voice speed fmt w w1 voicepack Hacc) as [Hy Hr].
  cbn zeta in Hy, Hr. rewrite Hy, Hr. clear Hy Hr.
  destruct (split_text (normalize_text text)) as [|c gen]; [done|].
  unfold next_turn. split.
  - by apply loop_pure_reading.
  - by apply loop_contains_failures.
Qed.

(** X7. When every chunk soft-fails (or the chunker gives no chunk), the
    two paths part ways: the stream ends normally without having yielded
    anything, while the stitched call raises a [ValueError]. *)
Theorem zero_survivors_end_the_stream_silently text voice speed fmt w w1 voicepack :
  accepted text voice w w1 voicepack ->
  (forall chunk, chunk ∈ split_text (normalize_text text) ->
     soft_fails voice voicepack speed chunk = true) ->
  yields (exhaust (generate_audio_stream text voice speed fmt w)) = [] /\
  raised (exhaust (generate_audio_stream text voice speed fmt w)) = None /\
  exists w' msg,
    _generate_audio text voice speed true w = (w', Raise (mk_exc ValueError msg)).
Proof.
  intros Hacc Hall.
  destruct (exhaust_accepted text voice speed fmt w w1 voicepack Hacc) as [Hy Hr].
  cbn zeta in Hy, Hr. rewrite Hy, Hr. clear Hy Hr.
  assert (Hstream :
    yields (exhaust_from (next_turn voice voicepack speed fmt
              (split_text (normalize_text text)) true AudioNormalizer w1)) = [] /\
    raised (exhaust_from (next_turn voice voicepack speed fmt
              (split_text (normalize_text text)) true AudioNormalizer w1)) = None).
  { destruct (split_text (normalize_text text)) as [|c gen]; [done|].
    unfold next_turn. by apply loop_all_soft_fail. }
  destruct Hstream as [-> ->]. split; [done|]. split; [done|].
  unfold _generate_audio. rewrite try_finally_eq, bind_eq.
  rewrite (generate_audio_internal_accepted _ _ _ _ _ _ _ Hacc).
  rewrite try_except_eq, bind_eq.
  destruct (stitched_audio_eq (normalize_text text) voice voicepack speed w1)
    as (w2 & w3 & ->).
  { intros chunk Hin. by apply soft_fails_not_interrupted, Hall. }
  assert (Hs : survivors voice voicepack speed (split_text (normalize_text text)) = []).
  { apply omap_all_None. intros chunk Hin. by apply soft_fails_no_audio, Hall. }
  rewrite Hs.
  destruct (omap (token_data voice) (split_text (normalize_text text))); by eexists _, _.
Qed.
End StreamReading.

(** On the stubs neither ["bad"] nor ["-"] gives audio. *)
Lemma zero_survivors_end_the_stream_silently_witness :
  yields (exhaust (generate_audio_stream (C:=demo) "bad.-" "af" tt "wav" demo_world)) = [] /\
  raised (exhaust (generate_audio_stream (C:=demo) "bad.-" "af" tt "wav" demo_world)) = None /\
  exists w' msg,
    _generate_audio (C:=demo) "bad.-" "af" tt true demo_world =
      (w', Raise (mk_exc ValueError msg)).
Proof.
  apply (zero_survivors_end_the_stream_silently (C:=demo) "bad.-" "af" tt "wav" demo_world
           _ _ (demo_accepted "bad.-" ltac:(discriminate))).
  intros chunk Hin. vm_compute in Hin.
  repeat (apply elem_of_cons in Hin as [->|Hin]; [reflexivity|]).
  by apply not_elem_of_nil in Hin.
Defined.

Lemma stream_is_a_function_of_the_chunks_witness :
  yields (exhaust (generate_audio_stream (C:=demo) "bad.good.-.fine" "af" tt "wav"
                     demo_world)) =
    [[82; 73; 70; 70; 4; 4]; [4; 4; 0]]%Z.
Proof.
  destruct (stream_is_a_function_of_the_chunks (C:=demo) "bad.good.-.fine" "af" tt "wav"
              demo_world _ _ (demo_accepted "bad.good.-.fine" ltac:(discriminate))
              demo_encoder_raises_Exceptions) as [Hy _].
  - intros chunk Hin. vm_compute in Hin.
    repeat (apply elem_of_cons in Hin as [->|Hin]; [reflexivity|]).
    by apply not_elem_of_nil in Hin.
  - rewrite Hy. vm_compute. reflexivity.
Defined.

(** ** What the stream encodes *)

Section Recorded.
Context `{C : Collaborators}.
Variables (voice : string) (voicepack : tensor) (speed : speed_t) (fmt : string).

Lemma recording_encoder_raises_Exceptions :
  encoder_total (C:=C) -> encoder_raises_Exceptions (C:=recording C).
Proof.
  intros Htot a rate f is_first norm is_last e. cbn [convert_audio recording].
  destruct (Htot a rate f is_first norm is_last) as (n' & b & ->). done.
Qed.

(** With an encoder that always returns, the buffers recorded along the pure
    reading are the surviving chunks' audio. *)
Lemma expected_stream_recorded chunks :
  encoder_total (C:=C) ->
  forall is_first norm,
    map snd (expected_stream (C:=recording C) voice voicepack speed fmt
               chunks is_first norm) =
    survivors (C:=C) voice voicepack speed chunks.
Proof.
  intros Htot. unfold survivors.
  induction chunks as [|c rest IH]; intros is_first norm; [done|].
  cbn [expected_stream omap list_omap].
  change (@chunk_audio_of (recording C)) with (@chunk_audio_of C).
  destruct (chunk_audio_of voice voicepack speed c) as [a|]; [|apply IH].
  cbn [convert_audio recording].
  destruct (Htot a 24000%Z fmt is_first norm (bool_decide (rest = [])))
    as (n' & b & ->).
  cbn [map snd]. f_equal. apply IH.
Qed.
End Recorded.

(** X8. The stream and the stitched call work on the same audio.  With an
    encoder that always returns and a model that raises no interrupt, the
    buffers the stream hands to the encoder, in order, are the audio of the
    chunks that survive: the list whose concatenation the stitched call
    returns. *)
Theorem stream_encodes_the_survivors `{C : Collaborators}
    text voice (speed : @speed_t C) fmt w w1 voicepack :
  accepted (C:=C) text voice w w1 voicepack ->
  encoder_total (C:=C) ->
  (forall chunk, chunk ∈ split_text (normalize_text text) ->
     interrupts (C:=C) voice voicepack speed chunk = false) ->
  map snd (yields (exhaust (generate_audio_stream (C:=recording C)
                              text voice speed fmt w))) =
  survivors (C:=C) voice voicepack speed (split_text (normalize_text text)).
Proof.
  intros Hacc Htot Hall.
  destruct (exhaust_accepted (C:=recording C) text voice speed fmt w w1 voicepack Hacc)
    as [Hy _].
  cbn zeta in Hy. etrans; [exact (f_equal (map snd) Hy)|]. clear Hy.
  change (@split_text (recording C) (@normalize_text (recording C) text))
    with (split_text (normalize_text text)).
  destruct (split_text (normalize_text text)) as [|c gen]; [done|].
  unfold next_turn.
  rewrite (loop_pure_reading (C:=recording C) voice voicepack speed fmt gen
             (recording_encoder_raises_Exceptions Htot) c true _ w1 Hall).
  exact (expected_stream_recorded (C:=C) voice voicepack speed fmt _ Htot true _).
Qed.

Lemma stream_encodes_the_survivors_witness :
  map snd (yields (exhaust (generate_audio_stream (C:=recording demo)
                              "bad.good.-.fine" "af" tt "wav" demo_world))) =
  survivors (C:=demo) "af" (mk_tensor 0 [1; 1]%Q) tt ["bad"; "good"; "-"; "fine"].
Proof.
  refine (stream_encodes_the_survivors (C:=demo) "bad.good.-.fine" "af" tt "wav"
            demo_world _ _ (demo_accepted "bad.good.-.fine" ltac:(discriminate))
            demo_encoder_total _).
  intros chunk Hin. vm_compute in Hin.
  repeat (apply elem_of_cons in Hin as [->|Hin]; [reflexivity|]).
  by apply not_elem_of_nil in Hin.
Defined.

(** ** Consumers that throw or close *)

Lemma drive_nil {Y} (s : step Y) : drive [] s = exhaust_from s.
Proof.
  induction s as [w y k IH|w|w e]; cbn; [|done..].
  unfold run_cons. by rewrite IH.
Qed.

Lemma drive_handlers {Y} (s : step Y) :
  forall script,
    yields (drive script (stream_handlers s)) = yields (drive script s) /\
    raised (drive script (stream_handlers s)) = raised (drive script s).
Proof.
  induction s as [w y k IH|w|w e]; intros script; cbn; [|done..].
  destruct script as [|r script]; cbn.
  - destruct (IH RNext []) as [-> ->]. done.
  - destruct (IH r script) as [-> ->]. done.
Qed.

Lemma tokenized_chunks_emit ev w :
  tokenized_chunks (trace (exec (emit ev) w)) =
  (tokenized_chunks (trace w) ++
   match ev with EvTokenize c => [c] | _ => [] end)%list.
Proof.
  change (trace (exec (emit ev) w)) with (trace w ++ [ev])%list.
  rewrite tokenized_chunks_app. by destruct ev.
Qed.

Section Cancel.
Context `{C : Collaborators}.
Variables (voice : string) (voicepack : tensor) (speed : speed_t) (fmt : string).

(** a turn whose chunk has audio tokenizes that chunk, and nothing else *)
Lemma process_chunk_tokenizes c is_first is_last norm w a :
  chunk_audio_of voice voicepack speed c = Some a ->
  exists w2,
    process_chunk voice voicepack speed fmt c is_first is_last norm w =
    match convert_audio a 24000 fmt is_first norm is_last with
    | (norm', Raise e) => chunk_except c e norm' w2
    | (norm', Ok b) => Emitted w2 norm' b
    end /\
    exists t, trace w2 = (trace w ++ t)%list /\ tokenized_chunks t = [c].
Proof.
  intros Ha. unfold process_chunk. rewrite bind_eq, call_process_text_eq.
  unfold chunk_audio_of, tokenize_result in Ha.
  destruct voice as [|lang v]; [done|].
  destruct (process_text c lang) as [[ph toks]|e]; [|done].
  rewrite call_generate_from_tokens_eq.
  destruct (generate_from_tokens toks voicepack speed) as [[a'|]|e]; [|done..].
  injection Ha as ->. eexists. split; [reflexivity|].
  exists [EvTokenize c; EvSynthesize; EvConvert is_first is_last].
  split; [|done]. cbn. by rewrite <- !app_assoc.
Qed.

Lemma loop_close_after gen :
  encoder_total ->
  forall c is_first norm w k,
    (forall chunk, chunk ∈ c :: gen ->
       is_Some (chunk_audio_of voice voicepack speed chunk)) ->
    let r := close_after_from k
               (stream_handlers
                  (stream_loop voice voicepack speed fmt c gen is_first norm w)) in
    length (yields r) = length (take (S k) (c :: gen)) /\
    raised r = None /\
    exists t, trace (final r) = (trace w ++ t)%list /\
              tokenized_chunks t = take (S k) (c :: gen).
Proof.
  intros Henc. induction gen as [|c' gen IH]; intros c is_first norm w k Hall; cbn zeta;
    rewrite stream_loop_eq;
    destruct (Hall c (list_elem_of_here _ _)) as [a Ha].
  - rewrite bool_decide_eq_true_2 by done.
    destruct (process_chunk_tokenizes c is_first true norm w a Ha)
      as (w2 & -> & t & Ht & Htok).
    destruct (Henc a 24000%Z fmt is_first norm true) as (n' & b & ->).
    cbn [stream_handlers close_after_from].
    destruct k as [|k]; unfold aclose_from, after_yield, next_turn;
      cbn [isinstance_Exception exc_cls stream_handlers close_after_from
           yields final raised length take];
      (split; [done|]; split; [done|]);
      exists (t ++ [EvCleanup false])%list;
      (split; [cbn; by rewrite Ht, app_assoc|]);
      rewrite tokenized_chunks_app, Htok; done.
  - rewrite bool_decide_eq_false_2 by done.
    destruct (process_chunk_tokenizes c is_first false norm w a Ha)
      as (w2 & -> & t & Ht & Htok).
    destruct (Henc a 24000%Z fmt is_first norm false) as (n' & b & ->).
    cbn [stream_handlers close_after_from].
    destruct k as [|k].
    + unfold aclose_from, after_yield.
      cbn [isinstance_Exception exc_cls stream_handlers yields final raised length take].
      split; [done|]. split; [done|].
      exists (t ++ [EvCleanup false])%list.
      split; [cbn; by rewrite Ht, app_assoc|].
      by rewrite tokenized_chunks_app, Htok.
    + unfold after_yield, next_turn.
      destruct (IH c' false n' w2 k) as (Hl & Hr & t' & Ht' & Htok').
      { intros; apply Hall. by right. }
      cbn zeta in Hl, Hr, Ht'.
      cbn [yields final raised length]. rewrite Hl, Hr.
      split; [done|]. split; [done|].
      exists (t ++ t')%list. split.
      * by rewrite Ht', Ht, app_assoc.
      * rewrite tokenized_chunks_app, Htok, Htok'. done.
Qed.
End Cancel.

Section Consumers.
Context `{C : Collaborators}.

(** X9. Closing the stream stops the work.  A consumer that takes [k+1]
    items of a stream whose chunks all give audio and then closes it has made
    the service tokenize the first [k+1] chunks and no other: no chunk is
    prepared ahead of the consumer.  The close itself raises nothing. *)
Theorem closing_the_stream_stops_the_work text voice speed fmt w w1 voicepack k :
  accepted text voice w w1 voicepack ->
  encoder_total ->
  (forall chunk, chunk ∈ split_text (normalize_text text) ->
     is_Some (chunk_audio_of voice voicepack speed chunk)) ->
  let r := close_after k (generate_audio_stream text voice speed fmt w) in
  length (yields r) = length (take (S k) (split_text (normalize_text text))) /\
  raised r = None /\
  tokenized_chunks (events_since w1 (final r)) =
    take (S k) (split_text (normalize_text text)).
Proof.
  intros Hacc Henc Hall. cbn zeta. unfold close_after.
  rewrite (generator_accepted _ _ _ _ _ _ _ Hacc).
  destruct (split_text (normalize_text text)) as [|c gen].
  - unfold next_turn. cbn. split; [done|]. split; [done|].
    by erewrite events_since_app by reflexivity.
  - unfold next_turn.
    destruct (loop_close_after voice voicepack speed fmt gen Henc c true
                AudioNormalizer w1 k Hall) as (Hl & Hr & t & Ht & Htok).
    cbn zeta in Hl, Hr, Ht. split; [exact Hl|]. split; [exact Hr|].
    by rewrite (events_since_app _ _ _ Ht).
Qed.
End Consumers.

Lemma closing_the_stream_stops_the_work_witness :
  let r := close_after 0 (generate_audio_stream (C:=demo) "good.fine.more" "af" tt "wav"
                            demo_world) in
  length (yields r) = 1 /\ raised r = None /\
  tokenized_chunks (trace (final r)) = ["good"].
Proof.
  destruct (closing_the_stream_stops_the_work (C:=demo) "good.fine.more" "af" tt "wav"
              demo_world _ _ 0 (demo_accepted "good.fine.more" ltac:(discriminate))
              demo_encoder_total) as (Hl & Hr & Ht).
  - intros chunk Hin. vm_compute in Hin.
    repeat (apply elem_of_cons in Hin as [->|Hin]; [by eexists|]).
    by apply not_elem_of_nil in Hin.
  - cbn zeta. split; [exact Hl|]. split; [exact Hr|]. vm_compute. reflexivity.
Defined.

(** X10. An exception thrown into the stream at a [yield] is contained like
    a chunk's own failure, and the statement after the [yield] is skipped:
    when it is thrown at the first item the next chunk is encoded with
    [is_first_chunk=True] again.  (All chunks give audio; positions as
    recorded by the tagged encoder.) *)
Theorem exception_at_first_yield_repeats_first_flag `{C : Collaborators}
    text voice (speed : @speed_t C) fmt w w1 voicepack c0 c1 rest e :
  accepted (C:=C) text voice w w1 voicepack ->
  split_text (normalize_text text) = c0 :: c1 :: rest ->
  encoder_total (C:=C) ->
  (forall chunk, chunk ∈ c0 :: c1 :: rest ->
     is_Some (chunk_audio_of (C:=C) voice voicepack speed chunk)) ->
  isinstance_Exception e = true ->
  let r := drive [RThrow e]
             (generate_audio_stream (C:=tagged C) text voice speed fmt w RNext) in
  map snd (yields r) = (true, false) :: loop_positions true (length rest) /\
  raised r = None.
Proof.
  intros Hacc Hsplit Henc Hall He. cbn zeta.
  rewrite (generator_accepted (C:=tagged C) text voice speed fmt w w1 voicepack Hacc).
  destruct (drive_handlers
              (next_turn (C:=tagged C) voice voicepack speed fmt
                 (@split_text (tagged C) (@normalize_text (tagged C) text)) true
                 (@AudioNormalizer (tagged C)) w1) [RThrow e]) as [-> ->].
  change (@split_text (tagged C) (@normalize_text (tagged C) text))
    with (split_text (normalize_text text)).
  change (@AudioNormalizer (tagged C)) with (@AudioNormalizer C).
  rewrite Hsplit. unfold next_turn.
  rewrite stream_loop_eq, process_chunk_tagged.
  rewrite bool_decide_eq_false_2 by done.
  destruct (Hall c0 (list_elem_of_here _ _)) as [a Ha].
  destruct (process_chunk_audio voice voicepack speed fmt c0 true false
              AudioNormalizer w1 a Ha) as [w2 ->].
  destruct (Henc a 24000%Z fmt true AudioNormalizer false) as (n' & b & ->).
  cbn [drive]. unfold after_yield. rewrite He. unfold next_turn.
  rewrite drive_nil. cbn [run_cons yields raised map snd].
  destruct (loop_positions_all_yielded voice voicepack speed fmt rest Henc c1 true n'
              (exec (logger_error ("Failed to generate audio for chunk: '" +:+
                                   c0 +:+ "'. Error: " +:+ str e)) w2))
    as [-> ->]; [|done].
  intros; apply Hall. by right.
Qed.

Lemma exception_at_first_yield_repeats_first_flag_witness :
  map snd (yields (drive [RThrow (mk_exc ValueError "stop")]
                     (generate_audio_stream (C:=tagged demo) "good.fine.more" "af" tt "wav"
                        demo_world RNext))) =
  [(true, false); (true, false); (false, true)].
Proof.
  refine (proj1 (exception_at_first_yield_repeats_first_flag (C:=demo)
                   "good.fine.more" "af" tt "wav" demo_world _ _ "good" "fine" ["more"]
                   (mk_exc ValueError "stop")
                   (demo_accepted "good.fine.more" ltac:(discriminate))
                   eq_refl demo_encoder_total _ eq_refl)).
  intros chunk Hin.
  repeat (apply elem_of_cons in Hin as [->|Hin]; [by eexists|]).
  by apply not_elem_of_nil in Hin.
Defined.

(** ** [combine_voices], whatever the store holds *)

Section Combine.
Context `{C : Collaborators}.

Lemma saves_app (t1 t2 : list event) :
  length (filter is_save (t1 ++ t2)%list) =
  length (filter is_save t1) + length (filter is_save t2).
Proof. by rewrite filter_app, length_app. Qed.

Lemma count_cleanup_one ev : count_cleanup [ev] = if is_cleanup ev then 1 else 0.
Proof. by destruct ev. Qed.

Lemma saves_one ev : length (filter is_save [ev]) = if is_save ev then 1 else 0.
Proof. by destruct ev. Qed.

(** The loading loop in any store: it changes neither the store nor the
    cache, cleans and saves nothing, and either returns the names it was
    given, all of which load, or raises a [ValueError]. *)
Lemma load_loop_outcome voices :
  forall t_voices v_name w,
  exists w' r,
    load_loop voices t_voices v_name w = (w', r) /\
    fs w' = fs w /\ voice_cache w' = voice_cache w /\
    count_cleanup (trace w') = count_cleanup (trace w) /\
    length (filter is_save (trace w')) = length (filter is_save (trace w)) /\
    match r with
    | Ok (ts, ns) => ns = (v_name ++ voices)%list /\ Forall (loads w) voices
    | Raise e => exc_cls e = ValueError
    end.
Proof.
  induction voices as [|v vs IH]; intros t_voices v_name w.
  - exists w, (Ok (t_voices, v_name)). cbn. by rewrite app_nil_r.
  - cbn [load_loop]. rewrite bind_eq, try_except_eq, bind_eq.
    fold (voice_file v).
    destruct (fs w !! voice_file v) as [[d|]|] eqn:Hfs.
    + rewrite (torch_load_found _ _ _ Hfs).
      set (w1 := mk_world _ _ _ _). cbn [ret].
      destruct (IH (t_voices ++ [mk_tensor (next_id w) d])%list (v_name ++ [v])%list w1)
        as (w' & r & Hl & Hf & Hc & Hcl & Hsv & Hr).
      exists w', r. split; [exact Hl|]. split; [exact Hf|]. split; [exact Hc|].
      split; [|split].
      * rewrite Hcl. unfold w1. cbn [trace].
        rewrite count_cleanup_app, count_cleanup_one. cbn [is_cleanup]. lia.
      * rewrite Hsv. unfold w1. cbn [trace].
        rewrite saves_app, saves_one. cbn [is_save]. lia.
      * destruct r as [[ts ns]|e]; [|exact Hr]. destruct Hr as [-> Hall].
        rewrite <- app_assoc. split; [done|]. constructor; [by exists d|exact Hall].
    + unfold torch_load. rewrite Hfs. cbn.
      eexists _, _. split; [reflexivity|]. cbn.
      rewrite count_cleanup_app, saves_app, count_cleanup_one, saves_one.
      cbn [is_cleanup is_save]. repeat split; lia.
    + unfold torch_load. rewrite Hfs. cbn.
      eexists _, _. split; [reflexivity|]. cbn.
      rewrite count_cleanup_app, saves_app, count_cleanup_one, saves_one.
      cbn [is_cleanup is_save]. repeat split; lia.
Qed.

(** What follows the loading loop. *)
Lemma combine_voices_after_loading voices w w1 ts ns :
  2 <= length voices ->
  load_loop voices [] [] w = (w1, Ok (ts, ns)) ->
  exists w' r,
    combine_voices voices w = (w', r) /\
    voice_cache w' = voice_cache w1 /\
    (forall q, q <> voice_file (String.concat "_" ns) -> fs w' !! q = fs w1 !! q) /\
    count_cleanup (trace w') + length (filter is_save (trace w1)) =
      count_cleanup (trace w1) + length (filter is_save (trace w')) /\
    match r with
    | Ok f =>
        f = String.concat "_" ns /\
        torch_save_error (voice_file f) = None /\
        is_Some (fs w' !! voice_file f)
    | Raise e =>
        exc_cls e = RuntimeError \/
        (torch_save_error (voice_file (String.concat "_" ns)) = Some e /\
         isinstance_Exception e = false)
    end.
Proof.
  intros Hlen Hload. unfold combine_voices.
  destruct (decide _) as [Hlt|_]; [lia|]. rewrite bind_eq, Hload.
  rewrite try_except_eq, bind_eq.
  assert (Hstack :
    (exists rows, torch_stack ts w1 = (w1, Ok rows)) \/
    (exists msg, torch_stack ts w1 = (w1, Raise (mk_exc RuntimeError msg)))).
  { unfold torch_stack. destruct ts as [|t ts']; [right; by eexists|].
    destruct (forallb _ ts'); [left|right]; by eexists. }
  destruct Hstack as [[rows ->]|[msg ->]].
  - rewrite bind_eq. unfold torch_mean_dim0.
    rewrite bind_eq, try_finally_eq, try_except_eq. unfold torch_save.
    fold (voice_file (String.concat "_" ns)).
    destruct (torch_save_error (voice_file (String.concat "_" ns))) as [e|] eqn:Hsave.
    + destruct (isinstance_Exception e) eqn:He.
      * eexists _, _. split; [reflexivity|]. cbn.
        rewrite !count_cleanup_app, !saves_app, !count_cleanup_one, !saves_one.
        cbn [is_cleanup is_save].
        split; [done|]. split; [done|]. split; [lia|]. by left.
      * cbn. rewrite He. eexists _, _. split; [reflexivity|]. cbn.
        rewrite !count_cleanup_app, !saves_app, !count_cleanup_one, !saves_one.
        cbn [is_cleanup is_save].
        split; [done|]. split; [done|]. split; [lia|]. by right.
    + eexists _, _. split; [reflexivity|]. cbn.
      rewrite !count_cleanup_app, !saves_app, !count_cleanup_one, !saves_one.
      cbn [is_cleanup is_save].
      split; [done|]. split; [|split; [lia|]].
      * intros q Hq. by rewrite lookup_insert_ne.
      * split; [done|]. split; [exact Hsave|]. rewrite lookup_insert_eq. by eexists.
  - eexists _, _. split; [reflexivity|]. cbn.
    split; [done|]. split; [done|]. split; [lia|]. by left.
Qed.

(** X11. What [combine_voices] can give, in any store and for any names:
    when it returns, it returns the names joined by ["_"], there were at
    least two of them, and all of them loaded; when it raises, with a store
    whose write errors are [Exception]s, it raises a [ValueError] or a
    [RuntimeError] and no other class. *)
Theorem combine_voices_outcomes voices w :
  (forall path e, torch_save_error path = Some e -> isinstance_Exception e = true) ->
  match snd (combine_voices voices w) with
  | Ok f =>
      f = String.concat "_" voices /\ 2 <= length voices /\ Forall (loads w) voices
  | Raise e => isinstance_ValueError_RuntimeError e = true
  end.
Proof.
  intros Hsave.
  destruct (decide (length voices < 2)) as [Hlt|Hge].
  - unfold combine_voices. by destruct (decide _).
  - destruct (load_loop_outcome voices [] [] w) as (w1 & r & Hl & _ & _ & _ & _ & Hr).
    destruct r as [[ts ns]|e].
    + destruct Hr as [Hns Hall]. cbn [app] in Hns. subst ns.
      destruct (combine_voices_after_loading voices w w1 ts voices ltac:(lia) Hl)
        as (w' & r' & -> & _ & _ & _ & Hr').
      cbn [snd]. destruct r' as [f|e].
      * destruct Hr' as (-> & _). split; [done|]. split; [lia|done].
      * unfold isinstance_ValueError_RuntimeError.
        destruct Hr' as [->|[He Hne]]; [done|].
        apply Hsave in He. congruence.
    + unfold combine_voices. destruct (decide _) as [|_]; [done|].
      rewrite bind_eq, Hl. cbn [snd].
      unfold isinstance_ValueError_RuntimeError. by rewrite Hr.
Qed.

(** X12. The footprint of [combine_voices], on every path through it: the
    voice cache is as it was (a combined voice does not replace a cached
    one), no file is written or removed except, possibly, the combined
    voice's own, and [cleanup()] has been called exactly as often as a save
    was attempted. *)
Theorem combine_voices_footprint voices w :
  save_frame (voice_file (String.concat "_" voices)) w
    (fst (combine_voices voices w)).
Proof.
  destruct (decide (length voices < 2)) as [Hlt|Hge].
  - unfold combine_voices. destruct (decide _); [|done]. cbn. by repeat split.
  - destruct (load_loop_outcome voices [] [] w)
      as (w1 & r & Hl & Hfs & Hc & Hcl & Hsv & Hr).
    destruct r as [[ts ns]|e].
    + destruct Hr as [Hns _]. cbn [app] in Hns. subst ns.
      destruct (combine_voices_after_loading voices w w1 ts voices ltac:(lia) Hl)
        as (w' & r' & -> & Hc' & Hfs' & Hbal & _).
      cbn [fst]. split; [congruence|]. split.
      * intros q Hq. rewrite (Hfs' q Hq). by rewrite Hfs.
      * lia.
    + unfold combine_voices. destruct (decide _) as [|_]; [done|].
      rewrite bind_eq, Hl. cbn [fst]. split; [done|]. split.
      * intros q _. by rewrite Hfs.
      * lia.
Qed.

(** X13. A combined voice written over a voice that is in the cache is not
    served: the next [_load_voice] of its path is a hit and returns the
    object cached before, without reading the file just written. *)
Theorem combined_voice_is_stale_in_cache voices w w' f t :
  0 < n_cache_voices ->
  combine_voices voices w = (w', Ok f) ->
  cache_get (voice_file f) (voice_cache w) = Some t ->
  exists w'',
    _load_voice (voice_file f) w' = (w'', Ok t) /\
    trace w'' = trace w' /\
    is_Some (fs w' !! voice_file f).
Proof.
  intros Hcap Hcomb Hget.
  destruct (decide (length voices < 2)) as [Hlt|Hge].
  { unfold combine_voices in Hcomb. by destruct (decide _). }
  destruct (load_loop_outcome voices [] [] w) as (w1 & r & Hl & _ & Hc & _ & _ & Hr).
  destruct r as [[ts ns]|e].
  - destruct (combine_voices_after_loading voices w w1 ts ns ltac:(lia) Hl)
      as (w2 & r' & Heq & Hc' & _ & _ & Hr').
    rewrite Hcomb in Heq. injection Heq as <- <-.
    destruct Hr' as (_ & _ & Hfile).
    eexists. split; [|split; [|exact Hfile]].
    + apply load_voice_hit; [exact Hcap|]. by rewrite Hc', Hc.
    + reflexivity.
  - unfold combine_voices in Hcomb. destruct (decide _) as [|_]; [done|].
    rewrite bind_eq, Hl in Hcomb. discriminate.
Qed.
End Combine.

(** With a full disk the call raises a [RuntimeError]; with a missing voice,
    a [ValueError]. *)
Lemma combine_voices_outcomes_witness :
  exc_cls <$> (match snd (combine_voices (C:=demo_full_disk) ["a"; "b"] demo_world) with
               | Ok _ => None
               | Raise e => Some e
               end) = Some RuntimeError /\
  match snd (combine_voices (C:=demo_full_disk) ["a"; "zz"] demo_world) with
  | Ok f => f = "a_zz" /\ 2 <= 2 /\ Forall (loads (C:=demo_full_disk) demo_world) ["a"; "zz"]
  | Raise e => isinstance_ValueError_RuntimeError e = true
  end.
Proof.
  split; [vm_compute; reflexivity|].
  apply (combine_voices_outcomes (C:=demo_full_disk) ["a"; "zz"] demo_world).
  intros path e H. cbn in H. injection H as <-. reflexivity.
Defined.

Lemma combined_voice_is_stale_in_cache_witness :
  let w := mk_world (<["voices/a_b.pt" := TensorFile [9; 9]%Q]> demo_fs)
             [("voices/a_b.pt", mk_tensor 0 [9; 9]%Q)] 1 [EvTorchLoad "voices/a_b.pt"] in
  exists w' w'',
    combine_voices (C:=demo) ["a"; "b"] w = (w', Ok "a_b") /\
    _load_voice (C:=demo) "voices/a_b.pt" w' = (w'', Ok (mk_tensor 0 [9; 9]%Q)) /\
    fs w' !! "voices/a_b.pt" = Some (TensorFile [3; 3]%Q).
Proof.
  intros w.
  pose (w' := fst (combine_voices (C:=demo) ["a"; "b"] w)).
  assert (Hc : combine_voices (C:=demo) ["a"; "b"] w = (w', Ok "a_b"))
    by (vm_compute; reflexivity).
  destruct (combined_voice_is_stale_in_cache (C:=demo) ["a"; "b"] w w' "a_b"
              (mk_tensor 0 [9; 9]%Q) ltac:(cbn; lia) Hc eq_refl) as (w'' & Hl & _ & _).
  exists w', w''. split; [exact Hc|]. split; [exact Hl|]. vm_compute. reflexivity.
Defined.

(** ** Listing the voices *)

Lemma append_cons c a b : String c a +:+ b = String c (a +:+ b).
Proof. reflexivity. Qed.

Lemma append_assoc_str a b c : (a +:+ b) +:+ c = a +:+ (b +:+ c).
Proof.
  induction a as [|x a IH]; [done|]. rewrite !append_cons. by rewrite IH.
Qed.

Lemma strip_prefix_app pre s : strip_prefix pre (pre +:+ s) = Some s.
Proof.
  induction pre as [|c pre IH]; [done|]. rewrite append_cons. cbn.
  destruct (decide (c = c)); [exact IH|done].
Qed.

Lemma strip_prefix_Some pre : forall s rest,
  strip_prefix pre s = Some rest -> s = pre +:+ rest.
Proof.
  induction pre as [|c pre IH]; intros s rest H; cbn in H.
  - by injection H as ->.
  - destruct s as [|c' s]; [done|]. destruct (decide (c = c')) as [->|]; [|done].
    rewrite append_cons. f_equal. by apply IH.
Qed.

Lemma has_sep_app a b : has_sep (a +:+ b) = has_sep a || has_sep b.
Proof.
  induction a as [|c a IH]; [done|]. rewrite append_cons. cbn.
  by destruct (decide (c = "/"%char)).
Qed.

Lemma first_component_no_sep s : has_sep s = false -> first_component s = s.
Proof.
  induction s as [|c s IH]; [done|]. cbn.
  destruct (decide (c = "/"%char)); [done|]. intros H. by rewrite IH.
Qed.

Lemma endswith_refl suffix : endswith suffix suffix = true.
Proof. destruct suffix; cbn; by destruct (decide _). Qed.

Lemma endswith_app suffix s : endswith suffix (s +:+ suffix) = true.
Proof.
  induction s as [|c s IH]; [apply endswith_refl|].
  rewrite append_cons. cbn. destruct (decide _); [done|exact IH].
Qed.

Lemma endswith_inv suffix s :
  endswith suffix s = true -> exists pre, s = pre +:+ suffix.
Proof.
  induction s as [|c s IH]; cbn; intros H.
  - destruct (decide _) as [<-|]; [by exists ""|done].
  - destruct (decide _) as [<-|]; [by exists ""|].
    destruct (IH H) as [pre ->]. by exists (String c pre).
Qed.

Lemma length_append a b :
  String.length (a +:+ b) = String.length a + String.length b.
Proof. induction a as [|c a IH]; [done|]. rewrite append_cons. cbn. by rewrite IH. Qed.

Lemma substring_0_app a b : substring 0 (String.length a) (a +:+ b) = a.
Proof.
  induction a as [|c a IH]; [by destruct b|]. rewrite append_cons. cbn. by rewrite IH.
Qed.

Lemma drop_last3_pt name : drop_last3 (name +:+ ".pt") = name.
Proof.
  unfold drop_last3. rewrite length_append. cbn [String.length].
  replace (String.length name + 3 - 3) with (String.length name) by lia.
  apply substring_0_app.
Qed.

Lemma collect_voices_omap entries : forall voices,
  collect_voices entries voices =
  (voices ++ omap (fun e => if endswith ".pt" e then Some (drop_last3 e) else None)
               entries)%list.
Proof.
  induction entries as [|e es IH]; intros voices; cbn [collect_voices omap list_omap].
  - by rewrite app_nil_r.
  - rewrite IH. destruct (endswith ".pt" e); [|done]. by rewrite <- app_assoc.
Qed.

Lemma listed_iff e name :
  (if endswith ".pt" e then Some (drop_last3 e) else None) = Some name <->
  e = name +:+ ".pt".
Proof.
  split.
  - destruct (endswith ".pt" e) eqn:He; [|done]. intros [= <-].
    apply endswith_inv in He as [pre ->]. by rewrite drop_last3_pt.
  - intros ->. by rewrite endswith_app, drop_last3_pt.
Qed.

Lemma NoDup_omap_inj {A B} (f : A -> option B) l :
  (forall x y z, f x = Some z -> f y = Some z -> x = y) ->
  NoDup l -> NoDup (omap f l).
Proof.
  intros Hinj. induction 1 as [|x l Hx Hl IH]; cbn; [constructor|].
  destruct (f x) as [z|] eqn:Hfx; [|exact IH].
  constructor; [|exact IH].
  intros Hz. apply list_elem_of_omap in Hz as (y & Hy & Hfy).
  by rewrite (Hinj x y z Hfx Hfy) in Hx.
Qed.


Lemma has_sep_concat names :
  Forall (fun v => has_sep v = false) names ->
  has_sep (String.concat "_" names) = false.
Proof.
  induction 1 as [|v vs Hv Hvs IH]; [done|].
  destruct vs as [|v' vs]; [exact Hv|].
  change (String.concat "_" (v :: v' :: vs))
    with (v +:+ "_" +:+ String.concat "_" (v' :: vs)).
  by rewrite !has_sep_app, Hv, IH.
Qed.

Lemma scandir_world d w : fst (scandir d w) = w.
Proof.
  unfold scandir. destruct (decide _); [done|]. by destruct (existsb _ _).
Qed.

Lemma scandir_entries d w es e :
  snd (scandir d w) = Ok es -> e ∈ es <-> dir_entry w d e.
Proof.
  unfold scandir, dir_entry. destruct (decide (d = "")) as [|Hd]; [done|].
  destruct (existsb _ _); [|done]. cbn. intros [= <-].
  rewrite elem_of_remove_dups, list_elem_of_omap. unfold entry_name. split.
  - intros (path & Hin & He).
    apply list_elem_of_fmap in Hin as ([p f] & -> & Hin).
    apply elem_of_map_to_list in Hin. cbn in He.
    destruct (strip_prefix (dir_prefix d) p) as [rest|] eqn:Hrest; [|done].
    destruct (decide (first_component rest = "")) as [|Hne]; [done|].
    injection He as <-. split; [done|]. split; [done|].
    exists p, rest. by rewrite Hin.
  - intros (_ & He & path & rest & [f Hf] & Hrest & <-).
    exists path. split.
    + apply list_elem_of_fmap. exists (path, f). split; [done|].
      by apply elem_of_map_to_list.
    + rewrite Hrest. by destruct (decide _).
Qed.

Lemma scandir_raises d w e0 e :
  snd (scandir d w) = Raise e0 -> ~ dir_entry w d e.
Proof.
  unfold scandir, dir_entry. destruct (decide (d = "")) as [->|Hd]; [by intros _ []|].
  destruct (existsb _ _) eqn:Hex; [done|]. intros _.
  intros (_ & _ & path & rest & [f Hf] & Hrest & _).
  apply not_true_iff_false in Hex. apply Hex. apply existsb_exists.
  exists path. split.
  - apply list_elem_of_In, list_elem_of_fmap. exists (path, f). split; [done|].
    by apply elem_of_map_to_list.
  - apply bool_decide_eq_true. by rewrite Hrest.
Qed.

Lemma scandir_NoDup d w es : snd (scandir d w) = Ok es -> NoDup es.
Proof.
  unfold scandir. destruct (decide _); [done|]. destruct (existsb _ _); [|done].
  intros [= <-]. apply NoDup_remove_dups.
Qed.

Lemma scandir_raises_Exception d w e :
  snd (scandir d w) = Raise e -> isinstance_Exception e = true.
Proof.
  unfold scandir. destruct (decide _); [by intros [= <-]|].
  destruct (existsb _ _); [done|]. by intros [= <-].
Qed.

Section Listing.
Context `{C : Collaborators}.

(** [list_voices] always returns: the sorted list of what the loop
    collected, which holds no name twice and holds the names of the
    directory's [.pt] entries. *)
Lemma list_voices_returns w :
  exists w' l,
    list_voices w = (w', Ok (sorted l)) /\
    fs w' = fs w /\ voice_cache w' = voice_cache w /\
    (trace w' = trace w \/ exists msg, trace w' = (trace w ++ [EvLogError msg])%list) /\
    NoDup l /\
    forall name, name ∈ l <-> dir_entry w VOICES_DIR (name +:+ ".pt").
Proof.
  unfold list_voices. rewrite bind_eq, try_except_eq, bind_eq.
  pose proof (scandir_world VOICES_DIR w) as Hw.
  pose proof (scandir_entries VOICES_DIR w) as Hin.
  pose proof (scandir_raises VOICES_DIR w) as Hno.
  pose proof (scandir_NoDup VOICES_DIR w) as Hnd.
  pose proof (scandir_raises_Exception VOICES_DIR w) as Hexc.
  destruct (scandir VOICES_DIR w) as [w1 [es|e]]; cbn in Hw; subst w1.
  - assert (Hes : forall e, e ∈ es <-> dir_entry w VOICES_DIR e)
      by (intros e; by apply Hin).
    exists w, (collect_voices es []). split; [done|]. split; [done|]. split; [done|].
    split; [by left|]. rewrite collect_voices_omap. cbn [app]. split.
    + apply NoDup_omap_inj; [|by apply Hnd].
      intros x y z Hx Hy. apply listed_iff in Hx, Hy. congruence.
    + intros name. rewrite list_elem_of_omap. split.
      * intros (e & He & Hl). apply listed_iff in Hl as ->. by apply Hes.
      * intros He. exists (name +:+ ".pt"). split; [by apply Hes|by apply listed_iff].
  - cbn. rewrite (Hexc e eq_refl). cbn.
    eexists _, []. split; [reflexivity|]. cbn. split; [done|]. split; [done|].
    split; [right; by eexists|]. split; [constructor|].
    intros name. split; [by intros ?%not_elem_of_nil|]. intros He.
    by apply (Hno e (name +:+ ".pt")) in He.
Qed.

Lemma elem_of_sorted name l : name ∈ sorted l <-> name ∈ l.
Proof. unfold sorted. by rewrite merge_sort_Permutation. Qed.

(** a plain name's file is an entry of the voices directory *)
Lemma voice_file_plain name :
  VOICES_DIR <> "" -> has_sep name = false ->
  voice_file name = dir_prefix VOICES_DIR +:+ (name +:+ ".pt").
Proof.
  intros Hd Hn. unfold voice_file, os_path_join, dir_prefix.
  assert (Hs : startswith_sep (name +:+ ".pt") = false).
  { destruct name as [|c name]; [done|]. rewrite append_cons. cbn in *.
    by destruct (decide (c = "/"%char)). }
  rewrite Hs. destruct (decide _) as [|_]; [done|].
  destruct (endswith_sep VOICES_DIR); [done|].
  by rewrite append_assoc_str.
Qed.

Lemma file_is_entry w name :
  VOICES_DIR <> "" -> has_sep name = false ->
  is_Some (fs w !! voice_file name) ->
  dir_entry w VOICES_DIR (name +:+ ".pt").
Proof.
  intros Hd Hn Hf. split; [done|]. split; [by destruct name|].
  exists (voice_file name), (name +:+ ".pt"). split; [done|].
  rewrite (voice_file_plain name Hd Hn), strip_prefix_app. split; [done|].
  apply first_component_no_sep. by rewrite has_sep_app, Hn.
Qed.

Lemma entry_is_file w name :
  flat_dir w VOICES_DIR ->
  dir_entry w VOICES_DIR (name +:+ ".pt") ->
  has_sep name = false /\ is_Some (fs w !! voice_file name).
Proof.
  intros Hflat (Hd & _ & path & rest & Hf & Hrest & He).
  pose proof (Hflat path rest Hf Hrest) as Hsep.
  rewrite (first_component_no_sep rest Hsep) in He. subst rest.
  rewrite has_sep_app in Hsep. apply orb_false_iff in Hsep as [Hn _].
  split; [done|]. rewrite (voice_file_plain name Hd Hn).
  by rewrite <- (strip_prefix_Some _ _ _ Hrest).
Qed.

(** X14. [list_voices] never raises and changes neither the store nor the
    voice cache.  It returns, in ascending order and without repetition, the
    names [n] for which the voices directory has an entry called [n.pt]; an
    empty [VOICES_DIR] or a directory that is not there gives the empty list
    (and one logged error), not an exception. *)
Theorem list_voices_lists_the_pt_entries w :
  exists names,
    snd (list_voices w) = Ok names /\
    fs (fst (list_voices w)) = fs w /\
    voice_cache (fst (list_voices w)) = voice_cache w /\
    Sorted String.le names /\ NoDup names /\
    (forall name, name ∈ names <-> dir_entry w VOICES_DIR (name +:+ ".pt")) /\
    count_cleanup (trace (fst (list_voices w))) = count_cleanup (trace w).
Proof.
  destruct (list_voices_returns w) as (w' & l & -> & Hfs & Hc & Htr & Hnd & Hin).
  exists (sorted l). cbn [fst snd]. split; [done|]. split; [done|]. split; [done|].
  split; [apply Sorted_merge_sort, _|]. split; [|split].
  - unfold sorted. by rewrite merge_sort_Permutation.
  - intros name. by rewrite elem_of_sorted.
  - destruct Htr as [->|[msg ->]]; [done|].
    rewrite count_cleanup_app, count_cleanup_one. cbn [is_cleanup]. lia.
Qed.

(** X15. Listing and resolving agree on plain names.  A voice that
    [_get_voice_path] resolves, and whose name holds no ["/"], is in the
    list; when the voices directory has no subdirectories, a listed voice
    resolves, to the file [VOICES_DIR/name.pt].  (A name with a ["/"] can
    resolve, to a file elsewhere, without being listed.) *)
Theorem listed_voices_are_the_resolvable_ones w name :
  VOICES_DIR <> "" ->
  (has_sep name = false ->
   snd (_get_voice_path name w) = Ok (Some (voice_file name)) ->
   exists names, snd (list_voices w) = Ok names /\ name ∈ names) /\
  (flat_dir w VOICES_DIR ->
   forall names, snd (list_voices w) = Ok names -> name ∈ names ->
   snd (_get_voice_path name w) = Ok (Some (voice_file name))).
Proof.
  intros Hd.
  destruct (list_voices_returns w) as (w' & l & -> & _ & _ & _ & _ & Hin).
  cbn [snd]. split.
  - intros Hn Hres. exists (sorted l). split; [done|].
    apply elem_of_sorted, Hin, file_is_entry; [done..|].
    destruct (fs w !! voice_file name) as [f|] eqn:Hf; [by eexists|].
    by rewrite (get_voice_path_missing _ _ Hf) in Hres.
  - intros Hflat names [= <-] Hname.
    apply elem_of_sorted, Hin in Hname.
    destruct (entry_is_file w name Hflat Hname) as [_ Hf].
    by rewrite (get_voice_path_found _ _ Hf).
Qed.

(** X16. A voice made by [combine_voices] from plain names is there at
    once: it resolves, and [list_voices] lists it. *)
Theorem combined_voice_is_listed voices w w' f :
  VOICES_DIR <> "" ->
  Forall (fun v => has_sep v = false) voices ->
  combine_voices voices w = (w', Ok f) ->
  snd (_get_voice_path f w') = Ok (Some (voice_file f)) /\
  exists names, snd (list_voices w') = Ok names /\ f ∈ names.
Proof.
  intros Hd Hplain Hcomb.
  destruct (decide (length voices < 2)) as [Hlt|Hge].
  { unfold combine_voices in Hcomb. by destruct (decide _). }
  destruct (load_loop_outcome voices [] [] w) as (w1 & r & Hl & _ & _ & _ & _ & Hr).
  destruct r as [[ts ns]|e].
  - destruct Hr as [Hns _]. cbn [app] in Hns. subst ns.
    destruct (combine_voices_after_loading voices w w1 ts voices ltac:(lia) Hl)
      as (w2 & r' & Heq & _ & _ & _ & Hr').
    rewrite Hcomb in Heq. injection Heq as <- <-.
    destruct Hr' as (-> & _ & Hfile).
    split; [by rewrite (get_voice_path_found _ _ Hfile)|].
    destruct (list_voices_returns w') as (w'' & l & -> & _ & _ & _ & _ & Hin).
    exists (sorted l). split; [done|].
    apply elem_of_sorted, Hin, file_is_entry; [done| |done].
    by apply has_sep_concat.
  - unfold combine_voices in Hcomb. destruct (decide _) as [|_]; [done|].
    rewrite bind_eq, Hl in Hcomb. discriminate.
Qed.
End Listing.

Lemma demo_voices_dir_is_flat : flat_dir demo_world (@VOICES_DIR demo).
Proof.
  intros path rest [f Hf] Hrest. cbn [fs demo_world] in Hf. unfold demo_fs in Hf.
  repeat (apply lookup_insert_Some in Hf as [[<- _]|[_ Hf]];
          [vm_compute in Hrest; by injection Hrest as <-|]).
  by rewrite lookup_empty in Hf.
Qed.

Lemma listed_voices_are_the_resolvable_ones_witness :
  (exists names, snd (list_voices (C:=demo) demo_world) = Ok names /\ "af" ∈ names) /\
  snd (_get_voice_path (C:=demo) "c" demo_world) = Ok (Some "voices/c.pt").
Proof.
  split.
  - apply (proj1 (listed_voices_are_the_resolvable_ones (C:=demo) demo_world "af"
                    ltac:(discriminate))); [reflexivity|vm_compute; reflexivity].
  - apply (proj2 (listed_voices_are_the_resolvable_ones (C:=demo) demo_world "c"
                    ltac:(discriminate)) demo_voices_dir_is_flat ["a"; "af"; "b"; "c"]).
    + vm_compute. reflexivity.
    + repeat constructor.
Defined.

Lemma combined_voice_is_listed_witness :
  exists w',
    combine_voices (C:=demo) ["a"; "b"] demo_world = (w', Ok "a_b") /\
    snd (_get_voice_path (C:=demo) "a_b" w') = Ok (Some "voices/a_b.pt") /\
    exists names, snd (list_voices (C:=demo) w') = Ok names /\ "a_b" ∈ names.
Proof.
  pose (w' := fst (combine_voices (C:=demo) ["a"; "b"] demo_world)).
  assert (Hc : combine_voices (C:=demo) ["a"; "b"] demo_world = (w', Ok "a_b"))
    by (vm_compute; reflexivity).
  exists w'. split; [exact Hc|].
  apply (combined_voice_is_listed (C:=demo) ["a"; "b"] demo_world w' "a_b"
           ltac:(discriminate) ltac:(repeat constructor) Hc).
Defined.

(** ** Names that are paths *)

Section AbsoluteNames.
Context `{C : Collaborators}.

Lemma startswith_sep_app a b :
  startswith_sep a = true -> startswith_sep (a +:+ b) = true.
Proof. destruct a as [|c a]; [done|]. by rewrite append_cons. Qed.

Lemma startswith_sep_concat name rest :
  startswith_sep name = true ->
  startswith_sep (String.concat "_" (name :: rest)) = true.
Proof.
  intros H. destruct rest as [|v vs]; [exact H|].
  change (String.concat "_" (name :: v :: vs))
    with (name +:+ "_" +:+ String.concat "_" (v :: vs)).
  by apply startswith_sep_app.
Qed.

Lemma voice_file_absolute name :
  startswith_sep name = true -> voice_file name = name +:+ ".pt".
Proof.
  intros H. unfold voice_file, os_path_join.
  by rewrite (startswith_sep_app name ".pt" H).
Qed.

(** X17. Voice names are not confined to the voices directory.  A name that
    starts with ["/"] is taken as a path of its own: [_get_voice_path]
    resolves it to [name.pt] wherever that file is, and a call of
    [combine_voices] whose first name is such a name, when it returns, has
    written the combined voice next to that file, outside [VOICES_DIR]. *)
Theorem absolute_names_leave_the_voices_dir name rest w :
  startswith_sep name = true ->
  (is_Some (fs w !! (name +:+ ".pt")) ->
   _get_voice_path name w = (w, Ok (Some (name +:+ ".pt")))) /\
  (forall w' f,
     combine_voices (name :: rest) w = (w', Ok f) ->
     f = String.concat "_" (name :: rest) /\
     is_Some (fs w' !! (f +:+ ".pt")) /\
     forall q, q <> f +:+ ".pt" -> fs w' !! q = fs w !! q).
Proof.
  intros Habs. split.
  - intros Hf. rewrite <- (voice_file_absolute name Habs) in *.
    by apply get_voice_path_found.
  - intros w' f Hcomb.
    destruct (decide (length (name :: rest) < 2)) as [Hlt|Hge].
    { unfold combine_voices in Hcomb. by destruct (decide _). }
    destruct (load_loop_outcome (name :: rest) [] [] w)
      as (w1 & r & Hl & Hfs & _ & _ & _ & Hr).
    destruct r as [[ts ns]|e].
    + destruct Hr as [Hns _]. cbn [app] in Hns. subst ns.
      destruct (combine_voices_after_loading (name :: rest) w w1 ts (name :: rest)
                  ltac:(lia) Hl) as (w2 & r' & Heq & _ & Hoff & _ & Hr').
      rewrite Hcomb in Heq. injection Heq as <- <-.
      destruct Hr' as (-> & _ & Hfile).
      rewrite (voice_file_absolute _ (startswith_sep_concat name rest Habs)) in Hfile, Hoff.
      split; [done|]. split; [exact Hfile|].
      intros q Hq. rewrite (Hoff q Hq). by rewrite Hfs.
    + unfold combine_voices in Hcomb. destruct (decide _) as [|_]; [done|].
      rewrite bind_eq, Hl in Hcomb. discriminate.
Qed.
End AbsoluteNames.

Lemma absolute_names_leave_the_voices_dir_witness :
  let w := mk_world (<["/tmp/x.pt" := TensorFile [0; 4]%Q]> demo_fs) [] 0 [] in
  _get_voice_path (C:=demo) "/tmp/x" w = (w, Ok (Some "/tmp/x.pt")) /\
  exists w',
    combine_voices (C:=demo) ["/tmp/x"; "a"] w = (w', Ok "/tmp/x_a") /\
    is_Some (fs w' !! "/tmp/x_a.pt").
Proof.
  intros w.
  destruct (absolute_names_leave_the_voices_dir (C:=demo) "/tmp/x" ["a"] w eq_refl)
    as [Hres Hcomb].
  split.
  - apply Hres. vm_compute. by eexists.
  - pose (w' := fst (combine_voices (C:=demo) ["/tmp/x"; "a"] w)).
    assert (Hc : combine_voices (C:=demo) ["/tmp/x"; "a"] w = (w', Ok "/tmp/x_a"))
      by (vm_compute; reflexivity).
    exists w'. split; [exact Hc|]. exact (proj1 (proj2 (Hcomb w' _ Hc))).
Defined.
